(** * Betterer: the file-test result differ and the CLI merge command

    Shallow embedding of
      - [packages/betterer/src/test/file-test/differ.ts]  (function [differ])
      - [packages/cli/src/merge.ts]                       (function [merge])

    Numbers are JavaScript numbers holding integers and are modelled as [Z];
    strings are [string]; the [diff] object, used as a dictionary keyed by
    absolute path, is a [gmap string _].

    [differ] is embedded twice.  On values, a JavaScript array is a [list] and
    the arrays that a loop changes are the state that the loop passes on; the
    properties of the diff are proved there.  On references (module [Ref]),
    every array is a cell of a heap, made, read and changed as the source does
    it; that the arrays of the snapshots are left alone is proved there.  The
    second computes what the first does ([differ_refines]).

    The logs that [differ] returns beside the diff follow the order of the keys
    of the [diff] object.  Module [Logged] has [differ] with its logs, on
    values, with [diff] as an object that keeps its keys in order; its entries
    are those of the dictionary.

    The source compares objects by reference in three places
    ([Array.prototype.includes], [Array.prototype.indexOf] and the keys of the
    [Map] of moved files).  The embedding compares by value.  For issues the two
    agree on every input: each array searched is a filter of the array the
    searched object comes from, by a predicate on the object's fields, and the
    object looked up with [indexOf] is always the first one with its fields.
    For files the two agree on snapshots that hold each absolute path at most
    once, which is the invariant of a snapshot.  The source assigns no property
    of a snapshot, of a file or of an issue: they are values throughout. *)

From stdpp Require Import gmap strings list fin_maps sorting pretty.
From Stdlib Require Import ZArith Lia.

Local Open Scope Z_scope.

(** ** Exceptions *)

(** [AssertionError] is what [assert(best)] throws; [TypeError] is what reading
    a property of [undefined] throws. *)
Inductive exn : Type :=
  | AssertionError
  | TypeError.

Inductive res (A : Type) : Type :=
  | Ok (a : A)
  | Throw (e : exn).
Arguments Ok {A} a.
Arguments Throw {A} e.

#[global] Instance res_ret : MRet res := λ A a, Ok a.

#[global] Instance res_bind : MBind res := λ A B k m,
  match m with
  | Ok a => k a
  | Throw e => Throw e
  end.

(** ** Data model ([./types]) *)

Module Issue.
Record BettererFileIssue : Type := mk {
  line : Z;
  column : Z;
  length : Z;
  message : string;
  hash : string
}.
End Issue.
Abbreviation BettererFileIssue := Issue.BettererFileIssue.

Module File.
Record BettererFileBase : Type := mk {
  absolutePath : string;
  hash : string;
  issues : list BettererFileIssue
}.
End File.
Abbreviation BettererFileBase := File.BettererFileBase.

#[global] Instance BettererFileIssue_eq_dec : EqDecision BettererFileIssue.
Proof. solve_decision. Defined.

#[global] Instance BettererFileBase_eq_dec : EqDecision BettererFileBase.
Proof. solve_decision. Defined.

(** [[line, column, length, message, hash]] *)
Definition BettererFileIssueSerialised : Type := Z * Z * Z * string * string.

(** An entry of the diff; each of the three properties may be absent. *)
Record BettererFileDiff : Type := {
  existing : option (list BettererFileIssueSerialised);
  fixed : option (list BettererFileIssueSerialised);
  new : option (list BettererFileIssueSerialised)
}.

Abbreviation BettererFilesDiff := (gmap string BettererFileDiff).

(** The snapshot [BettererFileTestResultΩ]: only its [files] are read here. *)
Record BettererFileTestResult : Type := {
  files : list BettererFileBase
}.

(** ** JavaScript array operations used by [differ] *)

Section Arrays.
Context {A : Type}.

(** [arr.find(p)]: the first element satisfying [p], else [undefined]. *)
Definition find (P : A → Prop) `{!∀ x, Decision (P x)} (arr : list A) : option A :=
  snd <$> list_find P arr.

(** [arr.shift()]: removes and returns the first element, [undefined] on an
    empty array. *)
Definition shift (arr : list A) : option A * list A :=
  match arr with
  | [] => (None, [])
  | x :: rest => (Some x, rest)
  end.

(** [arr.splice(start, 1)]: a negative [start] counts from the end, and a
    [start] at or beyond the length removes nothing. *)
Definition splice1 (start : Z) (arr : list A) : list A :=
  let len := Z.of_nat (List.length arr) in
  let actualStart :=
    if start <? 0 then Z.max (len + start) 0 else Z.min start len in
  delete (Z.to_nat actualStart) arr.

(** [arr[i]] *)
Definition at_index (arr : list A) (i : Z) : option A :=
  if i <? 0 then None else arr !! Z.to_nat i.

(** [assert(x)] for an [x] that is an object or [undefined]. *)
Definition assert (x : option A) : res A :=
  match x with
  | Some a => Ok a
  | None => Throw AssertionError
  end.

Context `{!EqDecision A}.

(** [arr.indexOf(x)]: the first index holding [x], else [-1]. *)
Definition indexOf (x : A) (arr : list A) : Z :=
  match list_find (λ y, y = x) arr with
  | Some (i, _) => Z.of_nat i
  | None => -1
  end.

(** [arr.includes(x)] *)
Definition includes (x : A) (arr : list A) : Prop := x ∈ arr.
End Arrays.

Section ForEach.
Context {S A : Type}.

(** [arr.forEach(callbackfn)] for an array that the callback itself changes:
    the length is read once, before the first call, and index [k] is visited
    only if the array still has it when its turn comes.  [O] reads the array
    out of the state the callback works on. *)
Fixpoint forEachFrom (O : S → list A) (callbackfn : A → nat → S → S)
    (steps k : nat) (s : S) : S :=
  match steps with
  | O => s
  | Datatypes.S steps' =>
      let s' := match O s !! k with
                | Some kValue => callbackfn kValue k s
                | None => s
                end in
      forEachFrom O callbackfn steps' (Datatypes.S k) s'
  end.

Definition forEach (O : S → list A) (callbackfn : A → nat → S → S) (s : S) : S :=
  forEachFrom O callbackfn (List.length (O s)) 0%nat s.
End ForEach.

Section Effects.
Context {M : Type → Type} `{!MBind M, !MRet M}.

(** [arr.forEach(callbackfn)] for an array that is not changed during the
    iteration and a callback with effects: it may throw. *)
Fixpoint forEachM {S A} (callbackfn : A → S → M S) (arr : list A) (s : S) : M S :=
  match arr with
  | [] => mret s
  | x :: rest => s' ← callbackfn x s; forEachM callbackfn rest s'
  end.

(** [arr.map(f)] for an [f] with effects. *)
Fixpoint mapThrow {A B} (f : A → M B) (arr : list A) : M (list B) :=
  match arr with
  | [] => mret []
  | x :: rest => y ← f x; ys ← mapThrow f rest; mret (y :: ys)
  end.
End Effects.

(** ** [Map]: a map that keeps the keys in the order of their insertion *)

Module Map.
Definition t (K V : Type) : Type := list (K * V).

Section Operations.
Context {K V : Type} `{!EqDecision K}.

Definition get (key : K) (m : t K V) : option V :=
  snd <$> find (λ kv, kv.1 = key) m.

Fixpoint set (key : K) (value : V) (m : t K V) : t K V :=
  match m with
  | [] => [(key, value)]
  | (k, v) :: rest =>
      if decide (k = key) then (k, value) :: rest else (k, v) :: set key value rest
  end.

Definition keys (m : t K V) : list K := m.*1.
End Operations.
End Map.

(** ** [getFile] and [serialiseIssue] *)

(** Modelled from the spec: [BettererFileTestResultΩ.getFile], of
    [./file-test-result], is not among the sources.  The spec calls it the
    lookup-by-path operation of a snapshot whose paths are unique: it gives the
    file stored under the path, here [None] for JavaScript's missing file. *)
Definition getFile (snapshot : BettererFileTestResult) (absolutePath : string)
  : option BettererFileBase :=
  find (λ f, File.absolutePath f = absolutePath) (files snapshot).

Definition serialiseIssue (issue : BettererFileIssue) : BettererFileIssueSerialised :=
  (Issue.line issue, Issue.column issue, Issue.length issue,
   Issue.message issue, Issue.hash issue).

(** ** [differ]: the files *)

Section Files.
Variables expected result : BettererFileTestResult.

Definition unchangedResultFiles : list BettererFileBase :=
  filter (λ r, is_Some (find (λ e,
      File.absolutePath e = File.absolutePath r ∧ File.hash e = File.hash r)
    (files expected))) (files result).

Definition changedResultFiles : list BettererFileBase :=
  filter (λ r, is_Some (find (λ e,
      File.absolutePath e = File.absolutePath r ∧ File.hash e ≠ File.hash r)
    (files expected))) (files result).

Definition newOrMovedFiles : list BettererFileBase :=
  filter (λ r, ¬ is_Some (find (λ e,
      File.absolutePath e = File.absolutePath r) (files expected))) (files result).

Definition fixedOrMovedFiles : list BettererFileBase :=
  filter (λ e, ¬ is_Some (find (λ r,
      File.absolutePath r = File.absolutePath e) (files result))) (files expected).
End Files.

(** The three objects that the callback of [fixedOrMovedFiles.forEach] changes. *)
Record FileMoves : Type := {
  fixedOrMoved : list BettererFileBase;
  newOrMoved : list BettererFileBase;
  movedFiles : Map.t BettererFileBase BettererFileBase
}.

(** The callback of [fixedOrMovedFiles.forEach], lines 37 to 53. *)
Definition moveFile (fixedOrMovedFile : BettererFileBase) (index : nat)
    (s : FileMoves) : FileMoves :=
  let possibilities :=
    filter (λ newOrMovedFile, File.hash newOrMovedFile = File.hash fixedOrMovedFile)
           (newOrMoved s) in
  match possibilities with
  | [] => s
  | moved :: _ =>
      {| movedFiles := Map.set moved fixedOrMovedFile (movedFiles s);
         fixedOrMoved := splice1 (Z.of_nat index) (fixedOrMoved s);
         newOrMoved := splice1 (indexOf moved (newOrMoved s)) (newOrMoved s) |}
  end.

Definition detectMoves (expected result : BettererFileTestResult) : FileMoves :=
  forEach fixedOrMoved moveFile
    {| fixedOrMoved := fixedOrMovedFiles expected result;
       newOrMoved := newOrMovedFiles expected result;
       movedFiles := [] |}.

Definition fixedFiles (expected result : BettererFileTestResult) : list BettererFileBase :=
  fixedOrMoved (detectMoves expected result).

Definition newFiles (expected result : BettererFileTestResult) : list BettererFileBase :=
  newOrMoved (detectMoves expected result).

Definition existingFiles (expected result : BettererFileTestResult) : list BettererFileBase :=
  unchangedResultFiles expected result ++ changedResultFiles expected result
    ++ Map.keys (movedFiles (detectMoves expected result)).

(** ** [differ]: the issues of an existing file *)

Definition sameIssue (e r : BettererFileIssue) : Prop :=
  Issue.line e = Issue.line r ∧ Issue.column e = Issue.column r
  ∧ Issue.length e = Issue.length r ∧ Issue.hash e = Issue.hash r.

#[global] Instance sameIssue_dec e r : Decision (sameIssue e r).
Proof. unfold sameIssue. apply _. Defined.

Section Issues.
Variables expectedIssues resultIssues : list BettererFileIssue.

Definition unchangedExpectedIssues : list BettererFileIssue :=
  filter (λ r, is_Some (find (λ e, sameIssue e r) resultIssues)) expectedIssues.

Definition unchangedResultIssues : list BettererFileIssue :=
  filter (λ r, is_Some (find (λ e, sameIssue e r) expectedIssues)) resultIssues.

Definition newOrMovedIssues : list BettererFileIssue :=
  filter (λ r, ¬ includes r unchangedResultIssues) resultIssues.

Definition fixedOrMovedIssues : list BettererFileIssue :=
  filter (λ e, ¬ includes e unchangedExpectedIssues) expectedIssues.
End Issues.

(** The callback of [possibilities.forEach], lines 112 to 126; [best] is the
    variable it assigns. *)
Definition closer (line column : Z) (possibility : BettererFileIssue)
    (best : option BettererFileIssue) : res (option BettererFileIssue) :=
  best ← assert best;
  if bool_decide (Z.abs (line - Issue.line possibility) >= Z.abs (line - Issue.line best))
  then Ok (Some best)
  else
    let best :=
      if bool_decide (Z.abs (line - Issue.line possibility) < Z.abs (line - Issue.line best))
      then possibility else best in
    if bool_decide (Z.abs (column - Issue.column possibility)
                    >= Z.abs (column - Issue.column best))
    then Ok (Some best)
    else
      let best :=
        if bool_decide (Z.abs (column - Issue.column possibility)
                        < Z.abs (column - Issue.column best))
        then possibility else best in
      Ok (Some best).

(** The three arrays that the callback of [fixedOrMovedIssues.forEach] changes. *)
Record IssueMoves : Type := {
  newOrMovedI : list BettererFileIssue;
  movedIssues : list BettererFileIssue;
  fixedIssues : list BettererFileIssue
}.

(** The callback of [fixedOrMovedIssues.forEach], lines 99 to 134. *)
Definition moveIssue (fixedOrMovedIssue : BettererFileIssue) (s : IssueMoves)
  : res IssueMoves :=
  let hash := Issue.hash fixedOrMovedIssue in
  let line := Issue.line fixedOrMovedIssue in
  let column := Issue.column fixedOrMovedIssue in
  let possibilities :=
    filter (λ newOrMovedIssue, Issue.hash newOrMovedIssue = hash) (newOrMovedI s) in
  if bool_decide (List.length possibilities = 0%nat) then
    Ok {| newOrMovedI := newOrMovedI s;
          movedIssues := movedIssues s;
          fixedIssues := fixedIssues s ++ [fixedOrMovedIssue] |}
  else
    let '(best, possibilities) := shift possibilities in
    best ← forEachM (closer line column) possibilities best;
    best ← assert best;
    Ok {| newOrMovedI := splice1 (indexOf best (newOrMovedI s)) (newOrMovedI s);
          movedIssues := movedIssues s ++ [best];
          fixedIssues := fixedIssues s |}.

Definition detectIssueMoves (expectedIssues resultIssues : list BettererFileIssue)
  : res IssueMoves :=
  forEachM moveIssue (fixedOrMovedIssues expectedIssues resultIssues)
    {| newOrMovedI := newOrMovedIssues expectedIssues resultIssues;
       movedIssues := [];
       fixedIssues := [] |}.

(** [resultFile.issues[resultIssues.indexOf(newIssue)]], whose serialisation
    throws if the index is out of range. *)
Definition rawIssue (resultFile : BettererFileBase) (resultIssues : list BettererFileIssue)
    (newIssue : BettererFileIssue) : res BettererFileIssue :=
  match at_index (File.issues resultFile) (indexOf newIssue resultIssues) with
  | Some issue => Ok issue
  | None => Throw TypeError
  end.

(** [movedFiles.get(resultFile) || expectedΩ.getFile(resultFile.absolutePath)],
    whose [issues] are read next, which throws if there is no such file. *)
Definition expectedFileOf (expected : BettererFileTestResult)
    (moved : Map.t BettererFileBase BettererFileBase)
    (resultFile : BettererFileBase) : option BettererFileBase :=
  match Map.get resultFile moved with
  | Some f => Some f
  | None => getFile expected (File.absolutePath resultFile)
  end.

(** The callback of [existingFiles.forEach], lines 72 to 150. *)
Definition diffExisting (expected : BettererFileTestResult)
    (moved : Map.t BettererFileBase BettererFileBase)
    (resultFile : BettererFileBase) (diff : BettererFilesDiff) : res BettererFilesDiff :=
  expectedFile ←
    match expectedFileOf expected moved resultFile with
    | Some f => Ok f
    | None => Throw TypeError
    end;
  let resultIssues := File.issues resultFile in
  let expectedIssues := File.issues expectedFile in
  s ← detectIssueMoves expectedIssues resultIssues;
  newIssues ← mapThrow (rawIssue resultFile resultIssues) (newOrMovedI s);
  if bool_decide (List.length newIssues = 0%nat)
     && bool_decide (List.length (fixedIssues s) = 0%nat)
  then Ok diff
  else
    Ok (<[File.absolutePath resultFile :=
           {| existing := Some (serialiseIssue <$>
                (unchangedExpectedIssues expectedIssues resultIssues ++ movedIssues s));
              fixed := Some (serialiseIssue <$> fixedIssues s);
              new := Some (serialiseIssue <$> newIssues) |}]> diff).

(** ** [differ]

    The value is the [diff] property of the returned object.  The [logs] are
    computed from [diff] after it is complete and are left out. *)
Definition differ (expected result : BettererFileTestResult) : res BettererFilesDiff :=
  let diff : BettererFilesDiff := ∅ in
  let diff :=
    foldl (λ diff file,
      <[File.absolutePath file :=
         {| existing := None;
            fixed := Some (serialiseIssue <$> File.issues file);
            new := None |}]> diff)
      diff (fixedFiles expected result) in
  let diff :=
    foldl (λ diff file,
      <[File.absolutePath file :=
         {| existing := None;
            fixed := None;
            new := Some (serialiseIssue <$> File.issues file) |}]> diff)
      diff (newFiles expected result) in
  forEachM (diffExisting expected (movedFiles (detectMoves expected result)))
    (existingFiles expected result) diff.

(** * [differ] with its logs

    What [differ] returns is the object [{ diff, logs }].  The logs are made
    from the keys of [diff], in the order in which [Object.keys] lists them, so
    here [diff] is an object that keeps its keys in order.  Its entries are
    those of the dictionary above ([Logged.differ_diff]). *)

(** ** The [diff] object *)

Module Obj.

(** An object used as a dictionary: its own properties, in the order of their
    creation.  [o[key] = value] is [Map.set], which leaves an existing key at
    its place, and [o[key]] is [Map.get].  The keys written are absolute paths;
    the accessor [__proto__] of [Object.prototype], which no absolute path
    names, is left out. *)
Definition t (V : Type) : Type := Map.t string V.

Definition digit (c : Ascii.ascii) : option N :=
  let n := Ascii.N_of_ascii c in
  if decide (48 ≤ n ≤ 57)%N then Some (n - 48)%N else None.

Fixpoint numeral (s : string) (acc : N) : option N :=
  match s with
  | EmptyString => Some acc
  | String c s => d ← digit c; numeral s (10 * acc + d)%N
  end.

(** The array index that a key is, if it is one: the key is the decimal
    numeral, without a leading zero, of an integer below [2^32 - 1]. *)
Definition arrayIndex (key : string) : option N :=
  n ← numeral key 0;
  if decide (pretty n = key ∧ (n < 2 ^ 32 - 1)%N) then Some n else None.

(** [Object.keys(o)]: the keys that are array indices, in ascending order,
    then the other keys in the order of their creation. *)
Definition keys {V} (o : t V) : list string :=
  (pretty <$> merge_sort N.le (omap arrayIndex (Map.keys o)))
  ++ filter (λ key, arrayIndex key = None) (Map.keys o).
End Obj.

(** ** The logs ([@betterer/logger]) and the files of the result *)

Module Log.
(** The object literal of line 176. *)
Record BettererLoggerCodeInfo : Type := mk {
  message : string;
  filePath : string;
  fileText : string;
  line : Z;
  column : Z;
  length : Z
}.

(** The four object literals pushed to [logs]: [{ success }], [{ warn }],
    [{ error }] and [{ code }]. *)
Inductive BettererLog : Type :=
  | success (message : string)
  | warn (message : string)
  | error (message : string)
  | code (info : BettererLoggerCodeInfo).
End Log.
Abbreviation BettererLog := Log.BettererLog.
Abbreviation BettererLogs := (list Log.BettererLog).

(** Modelled from the spec: [BettererFileΩ], of [./file], is not among the
    sources.  It is a [BettererFileBase] that also holds the text of the file,
    which the spec calls the source text context of an issue. *)
Record BettererFileΩ : Type := {
  base : BettererFileBase;
  fileText : string
}.

(** The snapshot [BettererFileTestResultΩ] of the result, whose files are
    [BettererFileΩ] objects, and the same seen as a [BettererFileTestResult]. *)
Record BettererFileTestResultΩ : Type := {
  filesΩ : list BettererFileΩ
}.

Definition asResult (resultΩ : BettererFileTestResultΩ) : BettererFileTestResult :=
  {| files := base <$> filesΩ resultΩ |}.

(** Modelled from the spec: [getFile] again, on the files of the result as
    [BettererFileΩ] objects. *)
Definition getFileΩ (snapshot : BettererFileTestResultΩ) (absolutePath : string)
  : option BettererFileΩ :=
  find (λ f, File.absolutePath (base f) = absolutePath) (filesΩ snapshot).

Module Logged.

Record BettererFileTestDiff : Type := {
  diff : Obj.t BettererFileDiff;
  logs : BettererLogs
}.

(** The double quote that the messages put around a path. *)
Definition quote : string := String (Ascii.ascii_of_nat 34) EmptyString.

(** [getIssues], lines 186 to 188. *)
Definition getIssues (count : Z) : string :=
  if decide (count = 1) then "issue" else "issues".

(** The callback of [existingFiles.forEach], lines 72 to 150, writing to the
    object. *)
Definition diffExisting (expected : BettererFileTestResult)
    (moved : Map.t BettererFileBase BettererFileBase)
    (resultFile : BettererFileBase) (diff : Obj.t BettererFileDiff)
  : res (Obj.t BettererFileDiff) :=
  expectedFile ←
    match expectedFileOf expected moved resultFile with
    | Some f => Ok f
    | None => Throw TypeError
    end;
  let resultIssues := File.issues resultFile in
  let expectedIssues := File.issues expectedFile in
  s ← detectIssueMoves expectedIssues resultIssues;
  newIssues ← mapThrow (rawIssue resultFile resultIssues) (newOrMovedI s);
  if bool_decide (List.length newIssues = 0%nat)
     && bool_decide (List.length (fixedIssues s) = 0%nat)
  then Ok diff
  else
    Ok (Map.set (File.absolutePath resultFile)
          {| existing := Some (serialiseIssue <$>
               (unchangedExpectedIssues expectedIssues resultIssues ++ movedIssues s));
             fixed := Some (serialiseIssue <$> fixedIssues s);
             new := Some (serialiseIssue <$> newIssues) |} diff).

Section Logs.
(** [FORMATTER.format], of [Intl.NumberFormat()]: how the host writes a number
    in its locale. *)
Variable FORMATTER_format : Z → string.

(** The callback of [filePaths.forEach], lines 155 to 178.  A template literal
    writes a number in decimal. *)
Definition logFile (resultΩ : BettererFileTestResultΩ) (diff : Obj.t BettererFileDiff)
    (filePath : string) (logs : BettererLogs) : res BettererLogs :=
  entry ←
    match Map.get filePath diff with
    | Some entry => Ok entry
    | None => Throw TypeError
    end;
  let existing := default [] (existing entry) in
  let fixed := default [] (fixed entry) in
  let logs :=
    if decide (Z.of_nat (List.length fixed) ≠ 0)
    then logs ++ [Log.success
           (pretty (Z.of_nat (List.length fixed)) +:+ " fixed "
            +:+ getIssues (Z.of_nat (List.length fixed))
            +:+ " in " +:+ quote +:+ filePath +:+ quote +:+ ".")]
    else logs in
  let logs :=
    if decide (Z.of_nat (List.length existing) ≠ 0)
    then logs ++ [Log.warn
           (pretty (Z.of_nat (List.length existing)) +:+ " existing "
            +:+ getIssues (Z.of_nat (List.length existing))
            +:+ " in " +:+ quote +:+ filePath +:+ quote +:+ ".")]
    else logs in
  let newIssues := default [] (new entry) in
  let nIssues := Z.of_nat (List.length newIssues) in
  if decide (nIssues ≠ 0) then
    let logs :=
      logs ++ [Log.error ("New " +:+ getIssues nIssues
                          +:+ " in " +:+ quote +:+ filePath +:+ quote +:+ "!")] in
    let logs :=
      if decide (nIssues > 1)
      then logs ++ [Log.error ("Showing first of " +:+ FORMATTER_format nIssues
                               +:+ " new issues:")]
      else logs in
    let firstIssue := head newIssues in
    fileΩ ←
      match getFileΩ resultΩ filePath with
      | Some fileΩ => Ok fileΩ
      | None => Throw TypeError
      end;
    let fileText := fileText fileΩ in
    '(line, column, length, message, _) ←
      match firstIssue with
      | Some firstIssue => Ok firstIssue
      | None => Throw TypeError
      end;
    Ok (logs ++ [Log.code {| Log.message := message; Log.filePath := filePath;
                             Log.fileText := fileText; Log.line := line;
                             Log.column := column; Log.length := length |}])
  else Ok logs.

(** [differ], lines 17 to 184. *)
Definition differ (expected : BettererFileTestResult) (resultΩ : BettererFileTestResultΩ)
  : res BettererFileTestDiff :=
  let result := asResult resultΩ in
  let diff : Obj.t BettererFileDiff := [] in
  let diff :=
    foldl (λ diff file,
      Map.set (File.absolutePath file)
        {| existing := None;
           fixed := Some (serialiseIssue <$> File.issues file);
           new := None |} diff)
      diff (fixedFiles expected result) in
  let diff :=
    foldl (λ diff file,
      Map.set (File.absolutePath file)
        {| existing := None;
           fixed := None;
           new := Some (serialiseIssue <$> File.issues file) |} diff)
      diff (newFiles expected result) in
  diff ← forEachM (diffExisting expected (movedFiles (detectMoves expected result)))
           (existingFiles expected result) diff;
  let filePaths := Obj.keys diff in
  logs ← forEachM (logFile resultΩ diff) filePaths [];
  Ok {| diff := diff; logs := logs |}.
End Logs.

End Logged.

(** * [differ] on references

    The arrays of [differ] are objects: [filter] and [[...arr]] make a new
    array, [splice], [shift] and [push] change the array they are called on,
    and [const expectedIssues = expectedFile.issues] is a second name for the
    array of the snapshot.  Here every array lives in a heap and is reached by
    its reference; a file holds the reference of its array of issues and a
    snapshot the reference of its array of files. *)

Module Ref.

Definition ref : Type := nat.

Record BettererFileBase : Type := mkFile {
  absolutePath : string;
  hash : string;
  issues : ref
}.

#[global] Instance BettererFileBase_eq_dec : EqDecision BettererFileBase.
Proof. solve_decision. Defined.

Record BettererFileTestResult : Type := {
  files : ref
}.

Inductive Array : Type :=
  | Issues (arr : list BettererFileIssue)
  | Files (arr : list BettererFileBase).

Abbreviation Heap := (list Array).

(** A computation reads and changes the heap, and returns or throws. *)
Definition M (A : Type) : Type := Heap → res A * Heap.

#[global] Instance M_ret : MRet M := λ A a h, (Ok a, h).

#[global] Instance M_bind : MBind M := λ A B k m h,
  match m h with
  | (Ok a, h') => k a h'
  | (Throw e, h') => (Throw e, h')
  end.

Definition throw {A} (e : exn) : M A := λ h, (Throw e, h).

Definition lift {A} (r : res A) : M A := λ h, (r, h).

(** A new array. *)
Definition alloc (arr : Array) : M ref := λ h, (Ok (List.length h), h ++ [arr]).

(** The elements of an array of issues, of an array of files. *)
Definition readIssues (r : ref) : M (list BettererFileIssue) := λ h,
  match h !! r with
  | Some (Issues arr) => (Ok arr, h)
  | _ => (Throw TypeError, h)
  end.

Definition readFiles (r : ref) : M (list BettererFileBase) := λ h,
  match h !! r with
  | Some (Files arr) => (Ok arr, h)
  | _ => (Throw TypeError, h)
  end.

(** The array at [r] gets new elements. *)
Definition write (r : ref) (arr : Array) : M unit := λ h, (Ok tt, <[r := arr]> h).

(** [arr.splice(start, 1)], [arr.push(x)], [arr.shift()], [[...arr]] *)
Definition spliceFiles (r : ref) (start : Z) : M unit :=
  arr ← readFiles r; write r (Files (splice1 start arr)).

Definition spliceIssues (r : ref) (start : Z) : M unit :=
  arr ← readIssues r; write r (Issues (splice1 start arr)).

Definition pushIssue (r : ref) (x : BettererFileIssue) : M unit :=
  arr ← readIssues r; write r (Issues (arr ++ [x])).

Definition shiftIssues (r : ref) : M (option BettererFileIssue) :=
  arr ← readIssues r;
  let '(x, rest) := shift arr in
  _ ← write r (Issues rest); mret x.

Definition spreadIssues (r : ref) : M ref :=
  arr ← readIssues r; alloc (Issues arr).

(** [forEach] over an array of files that the callback changes; [s] is what
    the callback changes besides the heap. *)
Fixpoint forEachFrom {S} (O : ref) (callbackfn : BettererFileBase → nat → S → M S)
    (steps k : nat) (s : S) : M S :=
  match steps with
  | O => mret s
  | Datatypes.S steps' =>
      arr ← readFiles O;
      s' ← match arr !! k with
           | Some kValue => callbackfn kValue k s
           | None => mret s
           end;
      forEachFrom O callbackfn steps' (Datatypes.S k) s'
  end.

Definition forEach {S} (O : ref) (callbackfn : BettererFileBase → nat → S → M S)
    (s : S) : M S :=
  arr ← readFiles O; forEachFrom O callbackfn (List.length arr) 0%nat s.

(** Modelled from the spec: [BettererFileTestResultΩ.getFile], the lookup by
    path, which is not among the sources; it reads the files of the snapshot. *)
Definition getFile (snapshot : BettererFileTestResult) (path : string)
  : M (option BettererFileBase) :=
  arr ← readFiles (files snapshot);
  mret (find (λ f, absolutePath f = path) arr).

(** Lines 22 to 34. *)
Definition unchangedResultFiles (expected result : BettererFileTestResult) : M ref :=
  rs ← readFiles (files result);
  es ← readFiles (files expected);
  alloc (Files (filter (λ r, is_Some (find (λ e,
    absolutePath e = absolutePath r ∧ hash e = hash r) es)) rs)).

Definition changedResultFiles (expected result : BettererFileTestResult) : M ref :=
  rs ← readFiles (files result);
  es ← readFiles (files expected);
  alloc (Files (filter (λ r, is_Some (find (λ e,
    absolutePath e = absolutePath r ∧ hash e ≠ hash r) es)) rs)).

Definition newOrMovedFiles (expected result : BettererFileTestResult) : M ref :=
  rs ← readFiles (files result);
  es ← readFiles (files expected);
  alloc (Files (filter (λ r, ¬ is_Some (find (λ e,
    absolutePath e = absolutePath r) es)) rs)).

Definition fixedOrMovedFiles (expected result : BettererFileTestResult) : M ref :=
  es ← readFiles (files expected);
  rs ← readFiles (files result);
  alloc (Files (filter (λ e, ¬ is_Some (find (λ r,
    absolutePath r = absolutePath e) rs)) es)).

(** The callback of [fixedOrMovedFiles.forEach], lines 37 to 53. *)
Definition moveFile (fixedOrMovedFiles newOrMovedFiles : ref)
    (fixedOrMovedFile : BettererFileBase) (index : nat)
    (movedFiles : Map.t BettererFileBase BettererFileBase)
  : M (Map.t BettererFileBase BettererFileBase) :=
  pool ← readFiles newOrMovedFiles;
  possibilities ← alloc (Files (filter (λ newOrMovedFile,
                     hash newOrMovedFile = hash fixedOrMovedFile) pool));
  possible ← readFiles possibilities;
  match possible with
  | [] => mret movedFiles
  | moved :: _ =>
      let movedFiles := Map.set moved fixedOrMovedFile movedFiles in
      _ ← spliceFiles fixedOrMovedFiles (Z.of_nat index);
      pool ← readFiles newOrMovedFiles;
      _ ← spliceFiles newOrMovedFiles (indexOf moved pool);
      mret movedFiles
  end.

(** The callback of [fixedOrMovedIssues.forEach], lines 99 to 134. *)
Definition moveIssue (newOrMovedIssues movedIssues fixedIssues : ref)
    (fixedOrMovedIssue : BettererFileIssue) (_ : unit) : M unit :=
  let hash := Issue.hash fixedOrMovedIssue in
  let line := Issue.line fixedOrMovedIssue in
  let column := Issue.column fixedOrMovedIssue in
  pool ← readIssues newOrMovedIssues;
  possibilities ← alloc (Issues (filter (λ newOrMovedIssue,
                     Issue.hash newOrMovedIssue = hash) pool));
  possible ← readIssues possibilities;
  if bool_decide (List.length possible = 0%nat) then
    pushIssue fixedIssues fixedOrMovedIssue
  else
    best ← shiftIssues possibilities;
    possible ← readIssues possibilities;
    best ← lift (forEachM (closer line column) possible best);
    best ← lift (assert best);
    pool ← readIssues newOrMovedIssues;
    _ ← spliceIssues newOrMovedIssues (indexOf best pool);
    pushIssue movedIssues best.

(** The callback of [existingFiles.forEach], lines 72 to 150. *)
Definition diffExisting (expected : BettererFileTestResult)
    (movedFiles : Map.t BettererFileBase BettererFileBase)
    (resultFile : BettererFileBase) (diff : BettererFilesDiff) : M BettererFilesDiff :=
  expectedFile ←
    match Map.get resultFile movedFiles with
    | Some f => mret f
    | None =>
        f ← getFile expected (absolutePath resultFile);
        match f with
        | Some f => mret f
        | None => throw TypeError
        end
    end;
  resultIssues ← spreadIssues (issues resultFile);
  let expectedIssues := issues expectedFile in
  unchangedExpectedIssues ←
    (es ← readIssues expectedIssues;
     rs ← readIssues resultIssues;
     alloc (Issues (filter (λ r, is_Some (find (λ e, sameIssue e r) rs)) es)));
  unchangedResultIssues ←
    (rs ← readIssues resultIssues;
     es ← readIssues expectedIssues;
     alloc (Issues (filter (λ r, is_Some (find (λ e, sameIssue e r) es)) rs)));
  newOrMovedIssues ←
    (rs ← readIssues resultIssues;
     unchanged ← readIssues unchangedResultIssues;
     alloc (Issues (filter (λ r, ¬ includes r unchanged) rs)));
  fixedOrMovedIssues ←
    (es ← readIssues expectedIssues;
     unchanged ← readIssues unchangedExpectedIssues;
     alloc (Issues (filter (λ e, ¬ includes e unchanged) es)));
  movedIssues ← alloc (Issues []);
  fixedIssues ← alloc (Issues []);
  fixedOrMoved ← readIssues fixedOrMovedIssues;
  _ ← forEachM (moveIssue newOrMovedIssues movedIssues fixedIssues) fixedOrMoved tt;
  newOrMoved ← readIssues newOrMovedIssues;
  raw ← mapThrow (λ newIssue,
           rs ← readIssues resultIssues;
           raw ← readIssues (issues resultFile);
           match at_index raw (indexOf newIssue rs) with
           | Some issue => mret issue
           | None => throw TypeError
           end) newOrMoved;
  newIssues ← alloc (Issues raw);
  new ← readIssues newIssues;
  fixed ← readIssues fixedIssues;
  if bool_decide (List.length new = 0%nat) && bool_decide (List.length fixed = 0%nat)
  then mret diff
  else
    unchanged ← readIssues unchangedExpectedIssues;
    moved ← readIssues movedIssues;
    mret (<[absolutePath resultFile :=
             {| existing := Some (serialiseIssue <$> (unchanged ++ moved));
                fixed := Some (serialiseIssue <$> fixed);
                new := Some (serialiseIssue <$> new) |}]> diff).

(** The callbacks of [fixedFiles.forEach] and [newFiles.forEach], lines 59
    to 69. *)
Definition diffFixed (file : BettererFileBase) (diff : BettererFilesDiff)
  : M BettererFilesDiff :=
  arr ← readIssues (issues file);
  mret (<[absolutePath file :=
           {| existing := None; fixed := Some (serialiseIssue <$> arr); new := None |}]> diff).

Definition diffNew (file : BettererFileBase) (diff : BettererFilesDiff)
  : M BettererFilesDiff :=
  arr ← readIssues (issues file);
  mret (<[absolutePath file :=
           {| existing := None; fixed := None; new := Some (serialiseIssue <$> arr) |}]> diff).

Definition differ (expected result : BettererFileTestResult) : M BettererFilesDiff :=
  unchangedResultFiles ← unchangedResultFiles expected result;
  changedResultFiles ← changedResultFiles expected result;
  newOrMovedFiles ← newOrMovedFiles expected result;
  fixedOrMovedFiles ← fixedOrMovedFiles expected result;
  movedFiles ← forEach fixedOrMovedFiles (moveFile fixedOrMovedFiles newOrMovedFiles) [];
  let fixedFiles := fixedOrMovedFiles in
  let newFiles := newOrMovedFiles in
  fixed ← readFiles fixedFiles;
  diff ← forEachM diffFixed fixed ∅;
  new ← readFiles newFiles;
  diff ← forEachM diffNew new diff;
  unchanged ← readFiles unchangedResultFiles;
  changed ← readFiles changedResultFiles;
  existingFiles ← alloc (Files (unchanged ++ changed ++ Map.keys movedFiles));
  existing ← readFiles existingFiles;
  forEachM (diffExisting expected movedFiles) existing diff.

End Ref.

(** * The [merge] command of the CLI *)

Module Cli.

(** How an awaited call ends. *)
Inductive completion (E A : Type) : Type :=
  | Resolved (a : A)
  | Rejected (e : E).
Arguments Resolved {E A} a.
Arguments Rejected {E A} e.

Record BettererCLIMergeConfig : Type := {
  results : string
}.

Record BettererOptionsMerge : Type := {
  contents : list string;
  cwd : string;
  resultsPath : string
}.

Section Merge.
(** What the collaborators may change besides [process.exitCode], and what
    they may throw. *)
Context {World Failure : Type}.

Record Process : Type := {
  exitCode : option Z;
  world : World
}.

(** [setEnv], of [./options], and [betterer.merge], of [@betterer/betterer],
    are not among the sources: any two functions on the process. *)
Variable setEnv : BettererCLIMergeConfig → Process → Process * completion Failure unit.
Variable betterer_merge : BettererOptionsMerge → Process → Process * completion Failure unit.

(** The handler that [merge(cwd)] gives to [command.action]; [args] are
    [command.args]. *)
Definition merge (cwd : string) (config : BettererCLIMergeConfig) (args : list string)
    (process : Process) : Process * completion Failure unit :=
  match setEnv config process with
  | (process, Rejected e) => (process, Rejected e)
  | (process, Resolved _) =>
      let options := {| contents := args; cwd := cwd; resultsPath := results config |} in
      match betterer_merge options process with
      | (process, Resolved _) => (process, Resolved tt)
      | (process, Rejected _) =>
          ({| exitCode := Some 1; world := world process |}, Resolved tt)
      end
  end.

End Merge.

Arguments Process : clear implicits.

End Cli.

(** * Notions used in the statements *)

(** ** Snapshots *)

Definition paths (snapshot : BettererFileTestResult) : list string :=
  File.absolutePath <$> files snapshot.

(** The expected files whose path is in the result, split as the result files
    are: by the hash of the file at the same path. *)
Definition unchangedExpectedFiles (expected result : BettererFileTestResult)
  : list BettererFileBase :=
  unchangedResultFiles result expected.

Definition changedExpectedFiles (expected result : BettererFileTestResult)
  : list BettererFileBase :=
  changedResultFiles result expected.

(** ** The loop over [fixedOrMovedFiles]

    [F0] and [N0] are the two pools as the loop finds them. *)

(** Holds whatever the snapshots: pairs join files of equal hash, taken from
    the two pools, and the pools only shrink. *)
Definition movesSound (F0 N0 : list BettererFileBase) (s : FileMoves) : Prop :=
  (∀ kv, kv ∈ movedFiles s → kv.1 ∈ N0 ∧ kv.2 ∈ F0 ∧ File.hash kv.1 = File.hash kv.2)
  ∧ fixedOrMoved s `sublist_of` F0
  ∧ newOrMoved s `sublist_of` N0.

(** Holds when the pool of result files has no file twice: the pools and the
    pairs split the files the loop started from. *)
Definition movesSplit (F0 N0 : list BettererFileBase) (s : FileMoves) : Prop :=
  NoDup ((movedFiles s).*1 ++ newOrMoved s)
  ∧ F0 ≡ₚ (movedFiles s).*2 ++ fixedOrMoved s
  ∧ N0 ≡ₚ (movedFiles s).*1 ++ newOrMoved s.

(** ** The exact-match pass *)

(** Some issue of the other file has the line, column, length and hash of [i]. *)
Definition matchedIn (others : list BettererFileIssue) (i : BettererFileIssue) : Prop :=
  is_Some (find (λ j, sameIssue j i) others).

#[global] Instance matchedIn_dec others i : Decision (matchedIn others i).
Proof. unfold matchedIn. apply _. Defined.

(** ** The search for the closest issue *)


(** What the scan of [possibilities] computes: the candidate is taken when its
    line is strictly closer than the line of the best so far. *)
Definition pick (line : Z) (best possibility : BettererFileIssue) : BettererFileIssue :=
  if decide (Z.abs (line - Issue.line possibility) < Z.abs (line - Issue.line best))
  then possibility else best.

Definition nearest (line : Z) (first : BettererFileIssue)
    (rest : list BettererFileIssue) : BettererFileIssue :=
  foldl (pick line) first rest.

(** The issue that [moveIssue] takes out of the pool, if any. *)
Definition chosen (fixedOrMovedIssue : BettererFileIssue)
    (pool : list BettererFileIssue) : option BettererFileIssue :=
  match filter (λ n, Issue.hash n = Issue.hash fixedOrMovedIssue) pool with
  | [] => None
  | first :: rest => Some (nearest (Issue.line fixedOrMovedIssue) first rest)
  end.

Definition sameHash (e r : BettererFileIssue) : Prop := Issue.hash e = Issue.hash r.

(** ** The entries of the diff *)

(** The entry that [diffExisting] writes for the issues of a pair of files,
    [None] when the pair has neither a new nor a fixed issue. *)
Definition entryOf (expectedIssues resultIssues : list BettererFileIssue)
  : option BettererFileDiff :=
  match detectIssueMoves expectedIssues resultIssues with
  | Ok s =>
      if bool_decide (newOrMovedI s = [] ∧ fixedIssues s = []) then None
      else Some
        {| existing := Some (serialiseIssue <$>
             (unchangedExpectedIssues expectedIssues resultIssues ++ movedIssues s));
           fixed := Some (serialiseIssue <$> fixedIssues s);
           new := Some (serialiseIssue <$> newOrMovedI s) |}
  | Throw _ => None
  end.

(** The entry that the loop over [existingFiles] writes for a result file. *)
Definition existingEntry (expected : BettererFileTestResult)
    (moved : Map.t BettererFileBase BettererFileBase)
    (resultFile : BettererFileBase) : option BettererFileDiff :=
  expectedFile ← expectedFileOf expected moved resultFile;
  entryOf (File.issues expectedFile) (File.issues resultFile).

(** A loop of writes [diff[key(x)] = entry(x)], skipped where there is no entry. *)
Definition write {A} (key : A → string) (entry : A → option BettererFileDiff)
    (diff : BettererFilesDiff) (x : A) : BettererFilesDiff :=
  match entry x with
  | Some e => <[key x := e]> diff
  | None => diff
  end.

Definition fixedEntry (file : BettererFileBase) : option BettererFileDiff :=
  Some {| existing := None;
          fixed := Some (serialiseIssue <$> File.issues file);
          new := None |}.

Definition newEntry (file : BettererFileBase) : option BettererFileDiff :=
  Some {| existing := None;
          fixed := None;
          new := Some (serialiseIssue <$> File.issues file) |}.

(** ** The heap *)

(** The first [n] arrays of [h] are those of [h0]. *)
Definition unchanged_below (n : nat) (h0 h : Ref.Heap) : Prop :=
  (n ≤ List.length h)%nat ∧ ∀ r, (r < n)%nat → h !! r = h0 !! r.

(** [m] leaves the first [n] arrays as they are, whether it returns or throws,
    and what it returns satisfies [φ]. *)
Definition safe {A} (n : nat) (m : Ref.M A) (φ : A → Prop) : Prop :=
  ∀ h0 h, unchanged_below n h0 h →
    unchanged_below n h0 (m h).2 ∧ ∀ a, (m h).1 = Ok a → φ a.

Definition fresh (n : nat) (r : Ref.ref) : Prop := (n ≤ r)%nat.

(** [h'] has the arrays of [h], changed at most at the references in [D]. *)
Definition changed_at (D : list Ref.ref) (h h' : Ref.Heap) : Prop :=
  (List.length h ≤ List.length h')%nat
  ∧ ∀ r, (r < List.length h)%nat → r ∉ D → h' !! r = h !! r.

(** The cells of the three arrays that the loop over the issues changes. *)
Definition issueCells (h : Ref.Heap) (nm mi fi : Ref.ref) (s : IssueMoves) : Prop :=
  h !! nm = Some (Ref.Issues (newOrMovedI s))
  ∧ h !! mi = Some (Ref.Issues (movedIssues s))
  ∧ h !! fi = Some (Ref.Issues (fixedIssues s)).

(** The issues that a reference holds, and the file that a file of references
    stands for, in a heap. *)
Definition issuesAt (h : Ref.Heap) (r : Ref.ref) : list BettererFileIssue :=
  match h !! r with
  | Some (Ref.Issues arr) => arr
  | _ => []
  end.

Definition fileAt (h : Ref.Heap) (f : Ref.BettererFileBase) : BettererFileBase :=
  File.mk (Ref.absolutePath f) (Ref.hash f) (issuesAt h (Ref.issues f)).

Definition movedAt (h : Ref.Heap) (m : Map.t Ref.BettererFileBase Ref.BettererFileBase)
  : Map.t BettererFileBase BettererFileBase :=
  prod_map (fileAt h) (fileAt h) <$> m.

(** The snapshot that an array of files of references stands for. *)
Definition snapshotAt (h : Ref.Heap) (arr : list Ref.BettererFileBase)
  : BettererFileTestResult :=
  {| files := fileAt h <$> arr |}.

(** [fileAt h] tells apart the files of [l]. *)
Definition distinct (h : Ref.Heap) (l : list Ref.BettererFileBase) : Prop :=
  ∀ x y, x ∈ l → y ∈ l → fileAt h x = fileAt h y → x = y.

(** The files whose issues are in the heap [h] as they are in [h0]. *)
Definition readable (h0 h : Ref.Heap) (l : list Ref.BettererFileBase) : Prop :=
  ∀ f, f ∈ l → ∃ arr, h0 !! Ref.issues f = Some (Ref.Issues arr)
                       ∧ h !! Ref.issues f = Some (Ref.Issues arr).

(** The expected file of a result file, on references. *)
Definition expectedRefOf (Es : list Ref.BettererFileBase)
    (moved : Map.t Ref.BettererFileBase Ref.BettererFileBase)
    (resultFile : Ref.BettererFileBase) : option Ref.BettererFileBase :=
  match Map.get resultFile moved with
  | Some f => Some f
  | None => find (λ f, Ref.absolutePath f = Ref.absolutePath resultFile) Es
  end.

(** The entry of a result file, on references. *)
Definition refEntry (h0 : Ref.Heap) (Es : list Ref.BettererFileBase)
    (M : Map.t Ref.BettererFileBase Ref.BettererFileBase)
    (rf : Ref.BettererFileBase) : option BettererFileDiff :=
  ef ← expectedRefOf Es M rf;
  entryOf (issuesAt h0 (Ref.issues ef)) (issuesAt h0 (Ref.issues rf)).

(** A snapshot of the value model, stored in the heap. *)
Definition loadFile (file : BettererFileBase) : Ref.M Ref.BettererFileBase :=
  r ← Ref.alloc (Ref.Issues (File.issues file));
  mret (Ref.mkFile (File.absolutePath file) (File.hash file) r).

Definition load (snapshot : BettererFileTestResult) : Ref.M Ref.BettererFileTestResult :=
  fs ← mapThrow loadFile (files snapshot);
  r ← Ref.alloc (Ref.Files fs);
  mret {| Ref.files := r |}.

(** [differ] on the two snapshots, stored first. *)
Definition differ_loaded (expected result : BettererFileTestResult)
  : Ref.M BettererFilesDiff :=
  e ← load expected; r ← load result; Ref.differ e r.

(** ** The loop over [fixedOrMovedFiles] as a scan *)

(** The list without its first element that satisfies [P]. *)
Fixpoint removeFirst {A} (P : A → Prop) `{!∀ x, Decision (P x)} (l : list A) : list A :=
  match l with
  | [] => []
  | x :: l => if decide (P x) then l else x :: removeFirst P l
  end.

(** The loop over [fixedOrMovedFiles] as a scan of the files in their order,
    from a pool of result files and the moves found so far: a file with no
    result file of its hash in the pool stays; a file with one is paired
    with the first of them, which leaves the pool, and the file that comes
    next is passed over and stays. *)
Fixpoint scanMoves (l pool : list BettererFileBase)
    (moved : Map.t BettererFileBase BettererFileBase) : FileMoves :=
  match l with
  | [] => {| fixedOrMoved := []; newOrMoved := pool; movedFiles := moved |}
  | file :: rest =>
      match filter (λ candidate, File.hash candidate = File.hash file) pool with
      | [] =>
          let s := scanMoves rest pool moved in
          {| fixedOrMoved := file :: fixedOrMoved s;
             newOrMoved := newOrMoved s;
             movedFiles := movedFiles s |}
      | candidate :: _ =>
          let pool := removeFirst (λ candidate, File.hash candidate = File.hash file) pool in
          let moved := Map.set candidate file moved in
          match rest with
          | [] => {| fixedOrMoved := []; newOrMoved := pool; movedFiles := moved |}
          | next :: rest =>
              let s := scanMoves rest pool moved in
              {| fixedOrMoved := next :: fixedOrMoved s;
                 newOrMoved := newOrMoved s;
                 movedFiles := movedFiles s |}
          end
      end
  end.

(** ** The object [diff] and the logs *)

(** The dictionary that an object is. *)
Definition dictionary {V} (o : Obj.t V) : gmap string V := list_to_map o.

(** A loop of writes [diff[key(x)] = entry(x)] to the object. *)
Definition assign {A} (key : A → string) (entry : A → option BettererFileDiff)
    (diff : Obj.t BettererFileDiff) (x : A) : Obj.t BettererFileDiff :=
  match entry x with
  | Some e => Map.set (key x) e diff
  | None => diff
  end.

(** The object that [differ] builds. *)
Definition diffObject (expected result : BettererFileTestResult) : Obj.t BettererFileDiff :=
  foldl (assign File.absolutePath
           (existingEntry expected (movedFiles (detectMoves expected result))))
    (foldl (assign File.absolutePath newEntry)
       (foldl (assign File.absolutePath fixedEntry) [] (fixedFiles expected result))
       (newFiles expected result))
    (existingFiles expected result).

(** The log of the fixed issues of a file, and of its existing issues. *)
Definition fixedLogs (filePath : string) (fixed : list BettererFileIssueSerialised)
  : BettererLogs :=
  if decide (fixed = []) then []
  else [Log.success (pretty (Z.of_nat (List.length fixed)) +:+ " fixed "
                     +:+ Logged.getIssues (Z.of_nat (List.length fixed))
                     +:+ " in " +:+ Logged.quote +:+ filePath +:+ Logged.quote +:+ ".")].

Definition existingLogs (filePath : string) (existing : list BettererFileIssueSerialised)
  : BettererLogs :=
  if decide (existing = []) then []
  else [Log.warn (pretty (Z.of_nat (List.length existing)) +:+ " existing "
                  +:+ Logged.getIssues (Z.of_nat (List.length existing))
                  +:+ " in " +:+ Logged.quote +:+ filePath +:+ Logged.quote +:+ ".")].

(** The logs of the new issues of a file, the first of which is
    [firstIssue], [rest] being the others. *)
Definition newLogs (format : Z → string) (filePath fileText : string)
    (firstIssue : BettererFileIssueSerialised)
    (rest : list BettererFileIssueSerialised) : BettererLogs :=
  let nIssues := Z.of_nat (List.length (firstIssue :: rest)) in
  let '(line, column, length, message, _) := firstIssue in
  [Log.error ("New " +:+ Logged.getIssues nIssues +:+ " in " +:+ Logged.quote
              +:+ filePath +:+ Logged.quote +:+ "!")]
  ++ (if decide (rest = []) then []
      else [Log.error ("Showing first of " +:+ format nIssues +:+ " new issues:")])
  ++ [Log.code {| Log.message := message; Log.filePath := filePath;
                  Log.fileText := fileText; Log.line := line;
                  Log.column := column; Log.length := length |}].

(** The logs of one key of the diff. *)
Definition entryLogs (format : Z → string) (resultΩ : BettererFileTestResultΩ)
    (diff : Obj.t BettererFileDiff) (filePath : string) : BettererLogs :=
  match Map.get filePath diff with
  | Some entry =>
      fixedLogs filePath (default [] (fixed entry))
      ++ existingLogs filePath (default [] (existing entry))
      ++ match default [] (new entry), getFileΩ resultΩ filePath with
         | firstIssue :: rest, Some fileΩ =>
             newLogs format filePath (fileText fileΩ) firstIssue rest
         | _, _ => []
         end
  | None => []
  end.

(** The paths of the code frames among the logs, in their order. *)
Definition codePaths (logs : BettererLogs) : list string :=
  omap (λ log, match log with
               | Log.code info => Some (Log.filePath info)
               | _ => None
               end) logs.

(** The diff lists a new issue under the path. *)
Definition hasNewIssue (diff : Obj.t BettererFileDiff) (path : string) : Prop :=
  match Map.get path diff with
  | Some entry => default [] (new entry) ≠ []
  | None => False
  end.

#[global] Instance hasNewIssue_dec diff path : Decision (hasNewIssue diff path).
Proof. unfold hasNewIssue. destruct (Map.get path diff); apply _. Defined.

(** ** The snapshots of the examples *)

Definition issueX (l c : Z) : BettererFileIssue := Issue.mk l c 5 "m" "X".

Definition fileA (h : string) (l : list BettererFileIssue) : BettererFileTestResult :=
  {| files := [File.mk "/fileA" h l] |}.

Definition expectedAB : BettererFileTestResult :=
  {| files := [File.mk "/a" "h1" [issueX 1 1]; File.mk "/b" "h2" [issueX 2 1]] |}.

Definition resultCD : BettererFileTestResult :=
  {| files := [File.mk "/c" "h1" [issueX 1 1]; File.mk "/d" "h2" [issueX 2 1]] |}.

(** The two, in a heap: the files of the first at 2, of the second at 5. *)
Definition heapABCD : Ref.Heap :=
  [Ref.Issues [issueX 1 1];
   Ref.Issues [issueX 2 1];
   Ref.Files [Ref.mkFile "/a" "h1" 0%nat; Ref.mkFile "/b" "h2" 1%nat];
   Ref.Issues [issueX 1 1];
   Ref.Issues [issueX 2 1];
   Ref.Files [Ref.mkFile "/c" "h1" 3%nat; Ref.mkFile "/d" "h2" 4%nat]].

(** Two snapshots for the order of the report. *)
Definition expectedReport : BettererFileTestResult :=
  {| files := [File.mk "/a" "h1" [issueX 1 1; issueX 9 9];
               File.mk "/b" "h2" [issueX 2 1]] |}.

Definition resultReport : BettererFileTestResultΩ :=
  {| filesΩ := [{| base := File.mk "/a" "h3" [issueX 1 1; Issue.mk 3 3 3 "n" "N";
                                              Issue.mk 4 3 3 "n" "N"];
                   fileText := "text of a" |};
                {| base := File.mk "/d" "h5" [issueX 2 1]; fileText := "text of d" |}] |}.

(** * Properties *)

(** ** The scenarios of the specification *)

Example differ_only_moved :
  differ (fileA "H1" [issueX 1 1]) (fileA "H2" [issueX 5 1]) = Ok ∅.
Proof. vm_compute. reflexivity. Qed.

Example differ_one_new :
  differ (fileA "H1" [Issue.mk 1 1 5 "m1" "X"])
         (fileA "H2" [Issue.mk 1 1 5 "m1" "X"; Issue.mk 2 2 5 "m2" "Y"])
  = Ok {[ "/fileA" := {| existing := Some [(1, 1, 5, "m1", "X")];
                         fixed := Some [];
                         new := Some [(2, 2, 5, "m2", "Y")] |} ]}.
Proof. vm_compute. reflexivity. Qed.

Example differ_closer_line :
  differ (fileA "H1" [issueX 10 5]) (fileA "H2" [issueX 12 5; issueX 11 5])
  = Ok {[ "/fileA" := {| existing := Some [(11, 5, 5, "m", "X")];
                         fixed := Some [];
                         new := Some [(12, 5, 5, "m", "X")] |} ]}.
Proof. vm_compute. reflexivity. Qed.

Example differ_moved_file :
  differ {| files := [File.mk "/a" "H" [issueX 1 1]] |}
         {| files := [File.mk "/b" "H" [issueX 1 1]] |} = Ok ∅.
Proof. vm_compute. reflexivity. Qed.

Example differ_fixed_and_new_file :
  differ {| files := [File.mk "/a" "H1" [issueX 1 1]] |}
         {| files := [File.mk "/b" "H2" [issueX 1 1]] |}
  = Ok {[ "/a" := {| existing := None; fixed := Some [(1, 1, 5, "m", "X")]; new := None |};
          "/b" := {| existing := None; fixed := None; new := Some [(1, 1, 5, "m", "X")] |} ]}.
Proof. vm_compute. reflexivity. Qed.

(** ** The array operations *)

Section ArrayFacts.
Context {A : Type}.
Implicit Types (l : list A) (x : A).

Lemma find_is_Some (P : A → Prop) `{!∀ x, Decision (P x)} l :
  is_Some (find P l) ↔ ∃ x, x ∈ l ∧ P x.
Proof.
  unfold find. rewrite fmap_is_Some. split.
  - intros [[i x] Hf]. apply list_find_Some in Hf as (Hi & HP & _).
    exists x. split; [by eapply list_elem_of_lookup_2 | done].
  - intros (x & Hx & HP). by eapply list_find_elem_of.
Qed.

Lemma find_Some_inv (P : A → Prop) `{!∀ x, Decision (P x)} l x :
  find P l = Some x → x ∈ l ∧ P x.
Proof.
  unfold find. destruct (list_find P l) as [[i y]|] eqn:Hf; [|done].
  intros [= <-]. apply list_find_Some in Hf as (Hi & HP & _).
  split; [by eapply list_elem_of_lookup_2 | done].
Qed.

Lemma delete_beyond (i : nat) l : (List.length l ≤ i)%nat → delete i l = l.
Proof.
  intros Hi. rewrite delete_take_drop, take_ge, drop_ge by lia.
  by rewrite app_nil_r.
Qed.

Lemma splice1_nat (i : nat) l : splice1 (Z.of_nat i) l = delete i l.
Proof.
  unfold splice1. destruct (Z.ltb_spec (Z.of_nat i) 0); [lia|].
  destruct (decide (i < List.length l)%nat).
  - by replace (Z.to_nat (Z.of_nat i `min` Z.of_nat (List.length l))) with i by lia.
  - replace (Z.to_nat (Z.of_nat i `min` Z.of_nat (List.length l)))
      with (List.length l) by lia.
    rewrite !delete_beyond by lia. done.
Qed.

Context `{!EqDecision A}.

Lemma indexOf_elem_of x l :
  x ∈ l → ∃ i : nat, indexOf x l = Z.of_nat i ∧ l !! i = Some x
                      ∧ ∀ j y, l !! j = Some y → (j < i)%nat → y ≠ x.
Proof.
  intros Hx. unfold indexOf.
  destruct (list_find (λ y, y = x) l) as [[i y]|] eqn:Hf.
  - apply list_find_Some in Hf as (Hi & -> & Hlt). by exists i.
  - apply list_find_None in Hf. rewrite Forall_forall in Hf. by destruct (Hf x Hx).
Qed.

Lemma at_index_indexOf x l : x ∈ l → at_index l (indexOf x l) = Some x.
Proof.
  intros (i & -> & Hi & _)%indexOf_elem_of. unfold at_index.
  destruct (Z.ltb_spec (Z.of_nat i) 0); [lia|]. by rewrite Nat2Z.id.
Qed.

(** Removing an element that is present, through [indexOf] and [splice]. *)
Lemma splice1_indexOf_Permutation x l :
  x ∈ l → l ≡ₚ x :: splice1 (indexOf x l) l.
Proof.
  intros (i & -> & Hi & _)%indexOf_elem_of. rewrite splice1_nat.
  by apply delete_Permutation.
Qed.

Lemma splice1_sublist (start : Z) l : splice1 start l `sublist_of` l.
Proof. unfold splice1. apply sublist_delete. Qed.
End ArrayFacts.

(** ** The search for the closest issue *)

Lemma closer_defined line column possibility best :
  closer line column possibility (Some best) = Ok (Some (pick line best possibility)).
Proof.
  unfold closer, pick. simpl.
  repeat (case_bool_decide || case_decide); try done; lia.
Qed.

Lemma forEachM_closer line column rest first :
  forEachM (closer line column) rest (Some first) = Ok (Some (nearest line first rest)).
Proof.
  revert first. induction rest as [|p rest IH]; intros first; [done|].
  simpl. rewrite closer_defined. simpl. apply IH.
Qed.

Lemma moveIssue_fixed i s :
  chosen i (newOrMovedI s) = None →
  moveIssue i s = Ok {| newOrMovedI := newOrMovedI s;
                        movedIssues := movedIssues s;
                        fixedIssues := fixedIssues s ++ [i] |}.
Proof.
  unfold chosen, moveIssue. intros H.
  destruct (filter _ (newOrMovedI s)); [done | discriminate].
Qed.

Lemma moveIssue_moved i s best :
  chosen i (newOrMovedI s) = Some best →
  moveIssue i s = Ok {| newOrMovedI := splice1 (indexOf best (newOrMovedI s)) (newOrMovedI s);
                        movedIssues := movedIssues s ++ [best];
                        fixedIssues := fixedIssues s |}.
Proof.
  unfold chosen, moveIssue. intros H.
  destruct (filter _ (newOrMovedI s)) as [|first rest]; [discriminate|].
  injection H as <-. rewrite bool_decide_eq_false_2 by done.
  simpl. by rewrite forEachM_closer.
Qed.

Lemma nearest_elem_of line first rest : nearest line first rest ∈ first :: rest.
Proof.
  revert first. induction rest as [|p rest IH]; intros first; [set_solver|].
  unfold nearest. simpl. fold (nearest line (pick line first p) rest).
  specialize (IH (pick line first p)). apply elem_of_cons in IH as [->|IH].
  - unfold pick. case_decide; [right; left | left].
  - by do 2 right.
Qed.

Lemma chosen_Some i pool best :
  chosen i pool = Some best → best ∈ pool ∧ Issue.hash best = Issue.hash i.
Proof.
  unfold chosen. destruct (filter _ pool) as [|first rest] eqn:Hf; [done|].
  intros [= <-]. pose proof (nearest_elem_of (Issue.line i) first rest) as Hin.
  rewrite <- Hf in Hin. by apply list_elem_of_filter in Hin as [? ?].
Qed.

Lemma chosen_None i pool :
  chosen i pool = None ↔ ∀ n, n ∈ pool → Issue.hash n ≠ Issue.hash i.
Proof.
  unfold chosen. split.
  - destruct (filter _ pool) as [|first rest] eqn:Hf; [|done].
    intros _ n Hn Hh. assert (n ∈ filter (λ n, Issue.hash n = Issue.hash i) pool) as Hin
      by by apply list_elem_of_filter.
    rewrite Hf in Hin. by apply elem_of_nil in Hin.
  - intros H. destruct (filter _ pool) as [|first rest] eqn:Hf; [done|].
    assert (first ∈ filter (λ n, Issue.hash n = Issue.hash i) pool) as Hin
      by (rewrite Hf; left).
    apply list_elem_of_filter in Hin as [? ?]. by destruct (H first).
Qed.

(** [moveIssue] never throws: the assertions on [best] hold. *)
Lemma moveIssue_Ok i s : ∃ s', moveIssue i s = Ok s'.
Proof.
  destruct (chosen i (newOrMovedI s)) as [best|] eqn:H.
  - eexists. by apply moveIssue_moved.
  - eexists. by apply moveIssue_fixed.
Qed.

(** ** The loop over [fixedOrMovedIssues] *)

(** The loop returns, and splits both the issues it goes through and the pool
    it takes from: [movedFrom] are the expected issues for which a result issue
    was taken out of the pool, in the order of [moved']. *)
Lemma forEachM_moveIssue l s :
  ∃ s' moved' fixed' movedFrom,
    forEachM moveIssue l s = Ok s'
    ∧ movedIssues s' = movedIssues s ++ moved'
    ∧ fixedIssues s' = fixedIssues s ++ fixed'
    ∧ newOrMovedI s ≡ₚ moved' ++ newOrMovedI s'
    ∧ newOrMovedI s' `sublist_of` newOrMovedI s
    ∧ l ≡ₚ fixed' ++ movedFrom
    ∧ Forall2 sameHash movedFrom moved'
    ∧ ∀ i, i ∈ l → chosen i (newOrMovedI s) = None → i ∈ fixed'.
Proof.
  revert s. induction l as [|i l IH]; intros s.
  { exists s, [], [], []. simpl. rewrite !app_nil_r. repeat split; try done;
      intros i Hi; by apply elem_of_nil in Hi. }
  simpl. destruct (chosen i (newOrMovedI s)) as [best|] eqn:Hc.
  - rewrite (moveIssue_moved _ _ _ Hc). simpl.
    destruct (IH {| newOrMovedI := splice1 (indexOf best (newOrMovedI s)) (newOrMovedI s);
                    movedIssues := movedIssues s ++ [best];
                    fixedIssues := fixedIssues s |})
      as (s' & moved' & fixed' & movedFrom & -> & Hm & Hf & Hp & Hs & Hl & H2 & Hfix).
    simpl in *. apply chosen_Some in Hc as Hbest. destruct Hbest as [Hin Hh].
    exists s', (best :: moved'), fixed', (i :: movedFrom).
    repeat split; try done.
    + by rewrite Hm, <- app_assoc.
    + rewrite (splice1_indexOf_Permutation best (newOrMovedI s) Hin). simpl.
      by rewrite Hp.
    + etrans; [exact Hs | apply splice1_sublist].
    + rewrite Hl. by rewrite Permutation_middle.
    + by constructor.
    + intros j Hj Hnone. apply elem_of_cons in Hj as [->|Hj]; [congruence|].
      apply Hfix; [done|]. apply chosen_None. intros n Hn.
      apply (proj1 (chosen_None _ _) Hnone).
      eapply list_elem_of_delete_inv. exact Hn.
  - rewrite (moveIssue_fixed _ _ Hc). simpl.
    destruct (IH {| newOrMovedI := newOrMovedI s;
                    movedIssues := movedIssues s;
                    fixedIssues := fixedIssues s ++ [i] |})
      as (s' & moved' & fixed' & movedFrom & -> & Hm & Hf & Hp & Hs & Hl & H2 & Hfix).
    simpl in *. exists s', moved', (i :: fixed'), movedFrom.
    repeat split; try done.
    + by rewrite Hf, <- app_assoc.
    + simpl. by rewrite Hl.
    + intros j Hj Hnone. apply elem_of_cons in Hj as [->|Hj]; [left|].
      right. by apply Hfix.
Qed.

Lemma detectIssueMoves_Ok expectedIssues resultIssues :
  ∃ s, detectIssueMoves expectedIssues resultIssues = Ok s.
Proof.
  unfold detectIssueMoves.
  destruct (forEachM_moveIssue (fixedOrMovedIssues expectedIssues resultIssues)
    {| newOrMovedI := newOrMovedIssues expectedIssues resultIssues;
       movedIssues := []; fixedIssues := [] |}) as (s & _ & _ & _ & H & _).
  by exists s.
Qed.

(** The split of the issues of a pair of files, as the loop leaves it. *)
Lemma detectIssueMoves_split expectedIssues resultIssues s :
  detectIssueMoves expectedIssues resultIssues = Ok s →
  ∃ movedFrom,
    newOrMovedIssues expectedIssues resultIssues ≡ₚ movedIssues s ++ newOrMovedI s
    ∧ newOrMovedI s `sublist_of` newOrMovedIssues expectedIssues resultIssues
    ∧ fixedOrMovedIssues expectedIssues resultIssues ≡ₚ fixedIssues s ++ movedFrom
    ∧ Forall2 sameHash movedFrom (movedIssues s)
    ∧ ∀ i, i ∈ fixedOrMovedIssues expectedIssues resultIssues →
           chosen i (newOrMovedIssues expectedIssues resultIssues) = None →
           i ∈ fixedIssues s.
Proof.
  unfold detectIssueMoves. intros H.
  destruct (forEachM_moveIssue (fixedOrMovedIssues expectedIssues resultIssues)
    {| newOrMovedI := newOrMovedIssues expectedIssues resultIssues;
       movedIssues := []; fixedIssues := [] |})
    as (s' & moved' & fixed' & movedFrom & H' & Hm & Hf & Hp & Hs & Hl & H2 & Hfix).
  rewrite H in H'. injection H' as <-. simpl in *. subst.
  by exists movedFrom.
Qed.

(** ** The exact-match pass *)

Lemma list_filter_ext_in {A} (P Q : A → Prop) `{!∀ x, Decision (P x)}
    `{!∀ x, Decision (Q x)} (l : list A) :
  (∀ x, x ∈ l → P x ↔ Q x) → filter P l = filter Q l.
Proof.
  induction l as [|x l IH]; intros Hl; [done|].
  rewrite !filter_cons. rewrite IH by (intros y Hy; apply Hl; by right).
  destruct (decide (P x)) as [HP|HP], (decide (Q x)) as [HQ|HQ]; try done.
  - destruct HQ. apply Hl; [left | done].
  - destruct HP. apply Hl; [left | done].
Qed.

Lemma matchedIn_iff others i :
  matchedIn others i ↔ ∃ j, j ∈ others ∧ sameIssue j i.
Proof. apply find_is_Some. Qed.

Section ExactMatch.
Variables expectedIssues resultIssues : list BettererFileIssue.

Lemma elem_of_unchangedExpectedIssues i :
  i ∈ unchangedExpectedIssues expectedIssues resultIssues
  ↔ i ∈ expectedIssues ∧ matchedIn resultIssues i.
Proof.
  unfold unchangedExpectedIssues, matchedIn. rewrite list_elem_of_filter. tauto.
Qed.

Lemma elem_of_unchangedResultIssues i :
  i ∈ unchangedResultIssues expectedIssues resultIssues
  ↔ i ∈ resultIssues ∧ matchedIn expectedIssues i.
Proof.
  unfold unchangedResultIssues, matchedIn. rewrite list_elem_of_filter. tauto.
Qed.

Lemma unchangedExpectedIssues_filter :
  unchangedExpectedIssues expectedIssues resultIssues
  = filter (matchedIn resultIssues) expectedIssues.
Proof. done. Qed.

Lemma unchangedResultIssues_filter :
  unchangedResultIssues expectedIssues resultIssues
  = filter (matchedIn expectedIssues) resultIssues.
Proof. done. Qed.

Lemma fixedOrMovedIssues_filter :
  fixedOrMovedIssues expectedIssues resultIssues
  = filter (λ i, ¬ matchedIn resultIssues i) expectedIssues.
Proof.
  unfold fixedOrMovedIssues, includes. apply list_filter_ext_in.
  intros i Hi. rewrite elem_of_unchangedExpectedIssues. tauto.
Qed.

Lemma newOrMovedIssues_filter :
  newOrMovedIssues expectedIssues resultIssues
  = filter (λ i, ¬ matchedIn expectedIssues i) resultIssues.
Proof.
  unfold newOrMovedIssues, includes. apply list_filter_ext_in.
  intros i Hi. rewrite elem_of_unchangedResultIssues. tauto.
Qed.

Lemma expectedIssues_split :
  expectedIssues ≡ₚ unchangedExpectedIssues expectedIssues resultIssues
                    ++ fixedOrMovedIssues expectedIssues resultIssues.
Proof.
  rewrite unchangedExpectedIssues_filter, fixedOrMovedIssues_filter.
  symmetry. apply filter_app_complement.
Qed.

Lemma resultIssues_split :
  resultIssues ≡ₚ unchangedResultIssues expectedIssues resultIssues
                  ++ newOrMovedIssues expectedIssues resultIssues.
Proof.
  rewrite unchangedResultIssues_filter, newOrMovedIssues_filter.
  symmetry. apply filter_app_complement.
Qed.
End ExactMatch.

(** ** The map of moved files *)

Section MapFacts.
Context {K V : Type} `{!EqDecision K}.
Implicit Types (m : Map.t K V) (key : K) (value : V).

Lemma Map_get_is_Some key m : is_Some (Map.get key m) ↔ key ∈ Map.keys m.
Proof.
  unfold Map.get, Map.keys. rewrite fmap_is_Some, find_is_Some, list_elem_of_fmap. split.
  - intros ([k v] & Hin & Hk). simpl in Hk. subst. by exists (key, v).
  - intros ([k v] & -> & Hin). by exists (k, v).
Qed.

Lemma Map_set_fresh key value m :
  key ∉ Map.keys m → Map.set key value m = m ++ [(key, value)].
Proof.
  unfold Map.keys. induction m as [|[k v] m IH]; intros Hk; [done|].
  rewrite fmap_cons, not_elem_of_cons in Hk. destruct Hk as [Hne Hk]. simpl in *.
  rewrite decide_False by done. by rewrite IH.
Qed.

Lemma Map_set_keys key value m :
  Map.keys (Map.set key value m)
  = if decide (key ∈ Map.keys m) then Map.keys m else Map.keys m ++ [key].
Proof.
  unfold Map.keys. induction m as [|[k v] m IH]; [done|].
  cbn [Map.set]. rewrite fmap_cons. cbn [fst].
  destruct (decide (k = key)) as [->|Hne].
  - rewrite decide_True by left. by rewrite fmap_cons.
  - rewrite fmap_cons, IH. cbn [fst]. destruct (decide (key ∈ m.*1)) as [Hin|Hin].
    + rewrite decide_True by by right. done.
    + rewrite decide_False; [done|]. rewrite not_elem_of_cons. by split.
Qed.

Lemma Map_set_elem_of key value m kv :
  kv ∈ Map.set key value m → kv = (key, value) ∨ kv ∈ m.
Proof.
  induction m as [|[k v] m IH]; simpl.
  - rewrite list_elem_of_singleton. by left.
  - destruct (decide (k = key)) as [->|Hne]; rewrite !elem_of_cons; [tauto|].
    intros [->|Hin]; [by right; left|]. destruct (IH Hin); [by left | by right; right].
Qed.

Lemma Map_get_elem_of key m value :
  Map.get key m = Some value → (key, value) ∈ m.
Proof.
  unfold Map.get. destruct (find _ m) as [[k v]|] eqn:Hf; [|done].
  intros [= <-]. apply find_Some_inv in Hf as [Hin Hk]. simpl in Hk. by subst.
Qed.

Lemma NoDup_keys_functional (m : list (K * V)) k v1 v2 :
  NoDup m.*1 → (k, v1) ∈ m → (k, v2) ∈ m → v1 = v2.
Proof.
  induction m as [|[k' v'] m IH]; [by intros _ ?%elem_of_nil|].
  rewrite fmap_cons, NoDup_cons, !elem_of_cons. cbn [fst].
  intros [Hk Hnd] [H1|H1] [H2|H2]; try congruence; [| |by apply IH].
  - injection H1 as -> ->. destruct Hk. apply list_elem_of_fmap. by exists (k', v2).
  - injection H2 as -> ->. destruct Hk. apply list_elem_of_fmap. by exists (k', v1).
Qed.

Lemma Map_get_NoDup key value m :
  NoDup (Map.keys m) → (key, value) ∈ m → Map.get key m = Some value.
Proof.
  unfold Map.keys. intros Hnd Hin.
  destruct (proj2 (Map_get_is_Some key m)) as [v Hv].
  { apply list_elem_of_fmap. by exists (key, value). }
  rewrite Hv. f_equal. apply Map_get_elem_of in Hv.
  by eapply NoDup_keys_functional.
Qed.
End MapFacts.

(** ** The loop over [fixedOrMovedFiles] *)

Lemma forEachFrom_ind {S A} (O : S → list A) (callbackfn : A → nat → S → S)
    (I : S → Prop) :
  (∀ x k s, O s !! k = Some x → I s → I (callbackfn x k s)) →
  ∀ steps k s, I s → I (forEachFrom O callbackfn steps k s).
Proof.
  intros Hcb steps. induction steps as [|steps IH]; intros k s Hs; [done|].
  simpl. apply IH. destruct (O s !! k) eqn:Hk; [by eapply Hcb | done].
Qed.

Lemma forEach_ind {S A} (O : S → list A) (callbackfn : A → nat → S → S)
    (I : S → Prop) :
  (∀ x k s, O s !! k = Some x → I s → I (callbackfn x k s)) →
  ∀ s, I s → I (forEach O callbackfn s).
Proof. intros Hcb s. by apply forEachFrom_ind. Qed.

(** What one call of the callback does, when it finds a candidate. *)
Lemma moveFile_cases f k s :
  moveFile f k s = s
  ∨ ∃ moved, moved ∈ newOrMoved s ∧ File.hash moved = File.hash f
      ∧ moveFile f k s =
          {| movedFiles := Map.set moved f (movedFiles s);
             fixedOrMoved := delete k (fixedOrMoved s);
             newOrMoved := splice1 (indexOf moved (newOrMoved s)) (newOrMoved s) |}.
Proof.
  unfold moveFile.
  destruct (filter _ (newOrMoved s)) as [|moved rest] eqn:Hf; [by left|].
  right. exists moved. rewrite splice1_nat.
  assert (moved ∈ filter (λ n, File.hash n = File.hash f) (newOrMoved s)) as Hin
    by (rewrite Hf; left).
  apply list_elem_of_filter in Hin as [? ?]. done.
Qed.

Section FileMoves.
Variables F0 N0 : list BettererFileBase.

Lemma moveFile_sound f k s :
  fixedOrMoved s !! k = Some f →
  movesSound F0 N0 s → movesSound F0 N0 (moveFile f k s).
Proof.
  intros Hk (Hkv & Hf & Hn).
  destruct (moveFile_cases f k s) as [->|(moved & Hin & Hh & ->)]; [done|].
  split; [|split]; simpl.
  - intros kv [->|Hkv']%Map_set_elem_of; [|by apply Hkv]. simpl.
    split; [|split; [|done]].
    + eapply elem_of_sublist; [exact Hin | done].
    + eapply elem_of_sublist; [by eapply list_elem_of_lookup_2 | done].
  - etrans; [apply sublist_delete | done].
  - etrans; [apply splice1_sublist | done].
Qed.

Lemma moveFile_split f k s :
  fixedOrMoved s !! k = Some f →
  movesSplit F0 N0 s → movesSplit F0 N0 (moveFile f k s).
Proof.
  intros Hk (Hnd & Hf & Hn).
  destruct (moveFile_cases f k s) as [->|(moved & Hin & Hh & ->)]; [done|].
  assert (moved ∉ Map.keys (movedFiles s)) as Hfresh.
  { apply NoDup_app in Hnd as (_ & Hdisj & _). intros Hm. by apply (Hdisj moved). }
  pose proof (splice1_indexOf_Permutation moved (newOrMoved s) Hin) as Hp.
  pose proof (delete_Permutation _ _ _ Hk) as Hd.
  split; [|split]; simpl; rewrite (Map_set_fresh _ _ _ Hfresh), ?fmap_app; simpl.
  - rewrite <- app_assoc. simpl. by rewrite <- Hp.
  - rewrite <- app_assoc. simpl. by rewrite <- Hd.
  - rewrite <- app_assoc. simpl. by rewrite <- Hp.
Qed.
End FileMoves.

Lemma detectMoves_sound expected result :
  movesSound (fixedOrMovedFiles expected result) (newOrMovedFiles expected result)
    (detectMoves expected result).
Proof.
  unfold detectMoves. apply forEach_ind; [apply moveFile_sound|].
  split; [|split]; simpl; [|done..]. intros kv Hkv. by apply elem_of_nil in Hkv.
Qed.

Lemma detectMoves_split expected result :
  NoDup (newOrMovedFiles expected result) →
  movesSplit (fixedOrMovedFiles expected result) (newOrMovedFiles expected result)
    (detectMoves expected result).
Proof.
  intros Hnd. unfold detectMoves. apply forEach_ind; [apply moveFile_split|].
  split; [|split]; simpl; done.
Qed.

(** ** The entry of an existing file *)

Lemma rawIssue_Ok resultFile i :
  i ∈ File.issues resultFile → rawIssue resultFile (File.issues resultFile) i = Ok i.
Proof. intros Hi. unfold rawIssue. by rewrite at_index_indexOf. Qed.

Lemma map_rawIssue resultFile (l : list BettererFileIssue) :
  l ⊆ File.issues resultFile →
  mapThrow (rawIssue resultFile (File.issues resultFile)) l = Ok l.
Proof.
  induction l as [|i l IH]; intros Hl; [done|].
  cbn [mapThrow]. rewrite rawIssue_Ok by (apply Hl; left).
  cbn. rewrite IH; [done|]. intros x Hx. apply Hl. by right.
Qed.

Lemma newOrMovedI_subseteq expectedIssues resultIssues s :
  detectIssueMoves expectedIssues resultIssues = Ok s → newOrMovedI s ⊆ resultIssues.
Proof.
  intros (_ & _ & Hs & _)%detectIssueMoves_split. intros x Hx.
  eapply elem_of_sublist in Hs; [|exact Hx].
  unfold newOrMovedIssues in Hs. by apply list_elem_of_filter in Hs as [_ ?].
Qed.

Lemma diffExisting_Ok expected moved resultFile diff :
  is_Some (expectedFileOf expected moved resultFile) →
  diffExisting expected moved resultFile diff
  = Ok (write File.absolutePath (existingEntry expected moved) diff resultFile).
Proof.
  intros [expectedFile He]. unfold diffExisting, write, existingEntry, entryOf.
  rewrite He. simpl.
  destruct (detectIssueMoves_Ok (File.issues expectedFile) (File.issues resultFile))
    as [s Hs].
  rewrite Hs. simpl.
  rewrite map_rawIssue by by eapply newOrMovedI_subseteq. simpl.
  destruct (newOrMovedI s) as [|n ns], (fixedIssues s) as [|f fs]; simpl; try done.
  all: rewrite bool_decide_eq_false_2; [done | by intros [? ?]].
Qed.

Lemma forEachM_diffExisting expected moved l diff :
  Forall (λ resultFile, is_Some (expectedFileOf expected moved resultFile)) l →
  forEachM (diffExisting expected moved) l diff
  = Ok (foldl (write File.absolutePath (existingEntry expected moved)) diff l).
Proof.
  revert diff. induction l as [|rf l IH]; intros diff Hl; [done|].
  apply Forall_cons in Hl as [Hrf Hl]. simpl.
  rewrite diffExisting_Ok by done. simpl. by apply IH.
Qed.

(** Every existing file has its expected file. *)
Lemma getFile_is_Some snapshot path :
  is_Some (getFile snapshot path)
  ↔ ∃ f, f ∈ files snapshot ∧ File.absolutePath f = path.
Proof. unfold getFile. apply (find_is_Some (λ f, File.absolutePath f = path)). Qed.

Lemma expectedFileOf_existing expected result resultFile :
  resultFile ∈ existingFiles expected result →
  is_Some (expectedFileOf expected (movedFiles (detectMoves expected result)) resultFile).
Proof.
  unfold existingFiles, expectedFileOf. rewrite !elem_of_app. intros Hin.
  destruct (Map.get resultFile _) eqn:Hget; [done|].
  apply getFile_is_Some.
  destruct Hin as [Hin|[Hin|Hin]].
  - apply list_elem_of_filter in Hin as [(e & He & Hp & _)%find_is_Some _]. by exists e.
  - apply list_elem_of_filter in Hin as [(e & He & Hp & _)%find_is_Some _]. by exists e.
  - apply Map_get_is_Some in Hin. rewrite Hget in Hin. by destruct Hin.
Qed.

(** [differ] returns, and its value is built by three loops of writes. *)
Lemma differ_Ok expected result :
  differ expected result
  = Ok (foldl (write File.absolutePath
                 (existingEntry expected (movedFiles (detectMoves expected result))))
          (foldl (write File.absolutePath newEntry)
             (foldl (write File.absolutePath fixedEntry) ∅ (fixedFiles expected result))
             (newFiles expected result))
          (existingFiles expected result)).
Proof.
  unfold differ. rewrite forEachM_diffExisting; [done|].
  apply Forall_forall. intros rf. apply expectedFileOf_existing.
Qed.

Section Writes.
Context {A : Type} (key : A → string) (entry : A → option BettererFileDiff).

Lemma foldl_write_is_Some l (diff : BettererFilesDiff) path :
  is_Some (foldl (write key entry) diff l !! path)
  ↔ is_Some (diff !! path) ∨ ∃ x, x ∈ l ∧ key x = path ∧ is_Some (entry x).
Proof.
  revert diff. induction l as [|a l IH]; intros diff; simpl.
  - split; [by left|]. intros [?|(x & []%elem_of_nil & _)]. done.
  - rewrite IH. unfold write. split.
    + intros [Hd|(x & Hx & Hk & He)].
      * destruct (entry a) as [e|] eqn:Ha; [|by left].
        destruct (decide (key a = path)) as [Heq|Hne].
        -- right. exists a. rewrite Ha. split; [left | done].
        -- rewrite lookup_insert_ne in Hd by done. by left.
      * right. exists x. split; [by right | done].
    + intros [Hd|(x & [->|Hx]%elem_of_cons & Hk & He)].
      * left. destruct (entry a); [|done].
        destruct (decide (key a = path)) as [<-|Hne].
        -- by rewrite lookup_insert_eq.
        -- by rewrite lookup_insert_ne.
      * left. destruct He as [e ->]. subst. by rewrite lookup_insert_eq.
      * right. by exists x.
Qed.

Lemma foldl_write_untouched l (diff : BettererFilesDiff) path :
  (∀ x, x ∈ l → key x = path → entry x = None) →
  foldl (write key entry) diff l !! path = diff !! path.
Proof.
  revert diff. induction l as [|a l IH]; intros diff Hl; [done|].
  simpl. rewrite IH by (intros x Hx; apply Hl; by right).
  unfold write. destruct (entry a) eqn:Ha; [|done].
  apply lookup_insert_ne. intros Hk. rewrite (Hl a) in Ha; [done | left | done].
Qed.

(** When the elements writing under the key of [x] all write the same. *)
Lemma foldl_write_lookup l (diff : BettererFilesDiff) x :
  x ∈ l → (∀ y, y ∈ l → key y = key x → entry y = entry x) →
  foldl (write key entry) diff l !! key x
  = match entry x with Some e => Some e | None => diff !! key x end.
Proof.
  destruct (entry x) as [e|] eqn:Hx.
  - revert x e Hx. induction l as [|a l IH] using rev_ind; intros x e Hx Hin Hl.
    { by apply elem_of_nil in Hin. }
    rewrite foldl_app. simpl. unfold write at 1.
    destruct (decide (key a = key x)) as [Hk|Hk].
    + rewrite (Hl a) by (done || (apply elem_of_app; right; left)).
      rewrite Hk. by rewrite lookup_insert_eq.
    + assert (x ∈ l) as Hin'.
      { apply elem_of_app in Hin as [?|Hin]; [done|].
        apply list_elem_of_singleton in Hin. by subst. }
      assert (foldl (write key entry) diff l !! key x = Some e) as IH'.
      { apply IH; [done..|]. intros y Hy. apply Hl, elem_of_app. by left. }
      destruct (entry a); [by rewrite lookup_insert_ne | done].
  - intros _ Hl. apply foldl_write_untouched. done.
Qed.
End Writes.

(** ** Snapshots with unique paths *)

Lemma filter_none {A} (P : A → Prop) `{!∀ x, Decision (P x)} (l : list A) :
  (∀ x, x ∈ l → ¬ P x) → filter P l = [].
Proof.
  induction l as [|x l IH]; intros Hl; [done|].
  rewrite filter_cons, decide_False by (apply Hl; left).
  apply IH. intros y Hy. apply Hl. by right.
Qed.

Lemma filter_all {A} (P : A → Prop) `{!∀ x, Decision (P x)} (l : list A) :
  (∀ x, x ∈ l → P x) → filter P l = l.
Proof.
  induction l as [|x l IH]; intros Hl; [done|].
  rewrite filter_cons, decide_True by (apply Hl; left).
  f_equal. apply IH. intros y Hy. apply Hl. by right.
Qed.

Lemma NoDup_fmap_inj_on {A B} (f : A → B) (l : list A) x y :
  NoDup (f <$> l) → x ∈ l → y ∈ l → f x = f y → x = y.
Proof.
  induction l as [|a l IH]; [by intros _ ?%elem_of_nil|].
  rewrite fmap_cons, NoDup_cons, !elem_of_cons.
  intros [Ha Hnd] [->|Hx] [->|Hy] Hf; [done| | |by apply IH].
  - destruct Ha. rewrite Hf. by apply list_elem_of_fmap_2.
  - destruct Ha. rewrite <- Hf. by apply list_elem_of_fmap_2.
Qed.

Lemma same_path_same_file snapshot f g :
  NoDup (paths snapshot) → f ∈ files snapshot → g ∈ files snapshot →
  File.absolutePath f = File.absolutePath g → f = g.
Proof. apply NoDup_fmap_inj_on. Qed.

Lemma getFile_unique snapshot f :
  NoDup (paths snapshot) → f ∈ files snapshot →
  getFile snapshot (File.absolutePath f) = Some f.
Proof.
  intros Hnd Hf. destruct (proj2 (getFile_is_Some snapshot (File.absolutePath f)))
    as [g Hg]; [by exists f|].
  rewrite Hg. f_equal. unfold getFile in Hg.
  apply (find_Some_inv (λ x, File.absolutePath x = File.absolutePath f)) in Hg
    as [Hin Hp].
  by eapply same_path_same_file.
Qed.

Lemma existingFiles_subseteq expected result :
  existingFiles expected result ⊆ files result.
Proof.
  unfold existingFiles. intros rf. rewrite !elem_of_app. intros [Hin|[Hin|Hin]].
  - by apply list_elem_of_filter in Hin as [_ ?].
  - by apply list_elem_of_filter in Hin as [_ ?].
  - destruct (detectMoves_sound expected result) as (Hkv & _ & _).
    apply list_elem_of_fmap in Hin as ([k v] & -> & Hin).
    apply Hkv in Hin as (Hk & _). simpl in Hk.
    by apply list_elem_of_filter in Hk as [_ ?].
Qed.

(** With unique paths in the result, the entry under the path of an existing
    file is the one of that file, or none if the file passes the gate. *)
Lemma differ_lookup_existing expected result resultFile :
  NoDup (paths result) →
  resultFile ∈ existingFiles expected result →
  ∃ diff, differ expected result = Ok diff
    ∧ (is_Some (existingEntry expected (movedFiles (detectMoves expected result)) resultFile) →
       diff !! File.absolutePath resultFile
       = existingEntry expected (movedFiles (detectMoves expected result)) resultFile).
Proof.
  intros Hnd Hin. eexists. split; [apply differ_Ok|]. intros [entry He].
  rewrite (foldl_write_lookup File.absolutePath _ _ _ resultFile Hin).
  - by rewrite He.
  - intros y Hy Hp. f_equal.
    eapply same_path_same_file;
      [done | eapply existingFiles_subseteq, Hy | eapply existingFiles_subseteq, Hin | done].
Qed.


(** ** What the search returns *)


(** ** The closest issue, the exact-match pass, the moves of files and the
    assertions *)

(** C1 (the code departs from the claim).  The claim: among the candidates of
    equal hash the moved issue is the one with the least line distance and,
    among those tied on the line, the least column distance.  On an expected
    issue at line 10, column 5 and the candidates at (11, 9) and (11, 5), tied
    on the line, [differ] takes the first, at column 9, and reports the one at
    column 5 as new. *)
Theorem C1_column_tie_break_not_applied :
  moveIssue (issueX 10 5)
    {| newOrMovedI := [issueX 11 9; issueX 11 5]; movedIssues := []; fixedIssues := [] |}
  = Ok {| newOrMovedI := [issueX 11 5]; movedIssues := [issueX 11 9]; fixedIssues := [] |}
  ∧ differ (fileA "H1" [issueX 10 5]) (fileA "H2" [issueX 11 9; issueX 11 5])
    = Ok {[ "/fileA" := {| existing := Some [(11, 9, 5, "m", "X")];
                           fixed := Some [];
                           new := Some [(11, 5, 5, "m", "X")] |} ]}.
Proof. split; vm_compute; reflexivity. Qed.

(** C2, counterexample.  One expected issue and two result issues, all three
    with the same line, column, length and hash: both result issues are
    unchanged, none is left in the pool of new or moved issues, and the diff
    has no entry for the file. *)
Lemma C2_counterexample :
  unchangedExpectedIssues [issueX 1 1] [issueX 1 1; Issue.mk 1 1 5 "again" "X"]
  = [issueX 1 1]
  ∧ unchangedResultIssues [issueX 1 1] [issueX 1 1; Issue.mk 1 1 5 "again" "X"]
    = [issueX 1 1; Issue.mk 1 1 5 "again" "X"]
  ∧ newOrMovedIssues [issueX 1 1] [issueX 1 1; Issue.mk 1 1 5 "again" "X"] = []
  ∧ differ (fileA "H1" [issueX 1 1])
           (fileA "H2" [issueX 1 1; Issue.mk 1 1 5 "again" "X"]) = Ok ∅.
Proof. repeat split; vm_compute; reflexivity. Qed.

(** C2, as amended.  The exact-match pass is by membership: an expected issue
    is unchanged exactly when some result issue has its line, column, length
    and hash, and a result issue exactly when some expected issue has; the
    pools of fixed-or-moved and of new-or-moved issues are the issues with no
    such partner, and each side is split in two by the pass. *)
Theorem C2_exact_match_by_membership (expectedIssues resultIssues : list BettererFileIssue) :
  (∀ e, e ∈ unchangedExpectedIssues expectedIssues resultIssues
        ↔ e ∈ expectedIssues ∧ ∃ r, r ∈ resultIssues ∧ sameIssue r e)
  ∧ (∀ r, r ∈ unchangedResultIssues expectedIssues resultIssues
          ↔ r ∈ resultIssues ∧ ∃ e, e ∈ expectedIssues ∧ sameIssue e r)
  ∧ (∀ e, e ∈ fixedOrMovedIssues expectedIssues resultIssues
          ↔ e ∈ expectedIssues ∧ ¬ ∃ r, r ∈ resultIssues ∧ sameIssue r e)
  ∧ (∀ r, r ∈ newOrMovedIssues expectedIssues resultIssues
          ↔ r ∈ resultIssues ∧ ¬ ∃ e, e ∈ expectedIssues ∧ sameIssue e r)
  ∧ expectedIssues ≡ₚ unchangedExpectedIssues expectedIssues resultIssues
                      ++ fixedOrMovedIssues expectedIssues resultIssues
  ∧ resultIssues ≡ₚ unchangedResultIssues expectedIssues resultIssues
                    ++ newOrMovedIssues expectedIssues resultIssues.
Proof.
  split; [|split; [|split; [|split; [|split]]]].
  - intros e. by rewrite elem_of_unchangedExpectedIssues, matchedIn_iff.
  - intros r. by rewrite elem_of_unchangedResultIssues, matchedIn_iff.
  - intros e. rewrite fixedOrMovedIssues_filter, list_elem_of_filter, matchedIn_iff.
    tauto.
  - intros r. rewrite newOrMovedIssues_filter, list_elem_of_filter, matchedIn_iff.
    tauto.
  - apply expectedIssues_split.
  - apply resultIssues_split.
Qed.

(** C3 (the code departs from the claim).  The claim: every file of
    [fixedOrMovedFiles] is looked at, and is paired with the first result file
    of equal hash if there is one.  With the expected files /a and /b and the
    result files /c and /d, /a and /c of one hash and /b and /d of another,
    removing /a from the array during the iteration makes [forEach] pass over
    /b: it stays a fixed file and /d a new file. *)
Theorem C3_file_after_a_move_is_skipped :
  detectMoves expectedAB resultCD
  = {| fixedOrMoved := [File.mk "/b" "h2" [issueX 2 1]];
       newOrMoved := [File.mk "/d" "h2" [issueX 2 1]];
       movedFiles := [(File.mk "/c" "h1" [issueX 1 1], File.mk "/a" "h1" [issueX 1 1])] |}
  ∧ differ expectedAB resultCD
    = Ok {[ "/b" := {| existing := None; fixed := Some [(2, 1, 5, "m", "X")]; new := None |};
            "/d" := {| existing := None; fixed := None; new := Some [(2, 1, 5, "m", "X")] |} ]}.
Proof. split; vm_compute; reflexivity. Qed.

(** C10.  The assertions on [best] never fail: a non-empty array of
    possibilities gives a first element to [shift], the scan of the rest keeps
    [best] defined, the callback that holds both assertions returns, and so
    does [differ], on all snapshots. *)
Theorem C10_assert_best_never_fires :
  (∀ possibilities : list BettererFileIssue,
     List.length possibilities = 0%nat
     ∨ ∃ first rest, shift possibilities = (Some first, rest))
  ∧ (∀ line column rest first,
       ∃ best, forEachM (closer line column) rest (Some first) = Ok (Some best))
  ∧ (∀ fixedOrMovedIssue s, ∃ s', moveIssue fixedOrMovedIssue s = Ok s')
  ∧ (∀ expected result, ∃ diff, differ expected result = Ok diff).
Proof.
  split; [|split; [|split]].
  - intros [|first rest]; [by left | right; by exists first, rest].
  - intros. eexists. apply forEachM_closer.
  - apply moveIssue_Ok.
  - intros. eexists. apply differ_Ok.
Qed.

(** C7.  In a pair of matched files, an expected issue that the exact-match
    pass left over and whose hash no left-over result issue has is reported
    as fixed: the diff has an entry under the path of the result file, and
    the entry lists the issue among the fixed ones.  The paths of the result
    snapshot are unique. *)
Theorem C7_fixed_detection expected result resultFile expectedFile i :
  NoDup (paths result) →
  resultFile ∈ existingFiles expected result →
  expectedFileOf expected (movedFiles (detectMoves expected result)) resultFile
    = Some expectedFile →
  i ∈ fixedOrMovedIssues (File.issues expectedFile) (File.issues resultFile) →
  (∀ n, n ∈ newOrMovedIssues (File.issues expectedFile) (File.issues resultFile) →
        Issue.hash n ≠ Issue.hash i) →
  ∃ diff entry fixedIssues,
    differ expected result = Ok diff
    ∧ diff !! File.absolutePath resultFile = Some entry
    ∧ fixed entry = Some fixedIssues
    ∧ serialiseIssue i ∈ fixedIssues.
Proof.
  intros Hnd Hin He Hi Hhash.
  destruct (detectIssueMoves_Ok (File.issues expectedFile) (File.issues resultFile))
    as [s Hs].
  destruct (detectIssueMoves_split _ _ _ Hs) as (movedFrom & _ & _ & _ & _ & Hfix).
  assert (i ∈ fixedIssues s) as Hfixed by (apply Hfix; [done | by apply chosen_None]).
  assert (existingEntry expected (movedFiles (detectMoves expected result)) resultFile
          = Some {| existing := Some (serialiseIssue <$>
                      (unchangedExpectedIssues (File.issues expectedFile)
                         (File.issues resultFile) ++ movedIssues s));
                    fixed := Some (serialiseIssue <$> fixedIssues s);
                    new := Some (serialiseIssue <$> newOrMovedI s) |}) as Hentry.
  { unfold existingEntry. rewrite He. simpl. unfold entryOf. rewrite Hs.
    rewrite bool_decide_eq_false_2; [done|].
    intros [_ Hnil]. rewrite Hnil in Hfixed. by apply elem_of_nil in Hfixed. }
  destruct (differ_lookup_existing expected result resultFile Hnd Hin) as (diff & Hd & Hl).
  exists diff. eexists. eexists. split; [done|].
  rewrite Hl, Hentry by by rewrite Hentry.
  split; [done|]. split; [done|]. by apply list_elem_of_fmap_2.
Qed.

Lemma C7_fixed_detection_witness :
  ∃ diff entry fixedIssues,
    differ (fileA "H1" [issueX 1 1; Issue.mk 3 1 5 "n" "Y"]) (fileA "H2" [issueX 1 1])
      = Ok diff
    ∧ diff !! "/fileA" = Some entry
    ∧ fixed entry = Some fixedIssues
    ∧ (3, 1, 5, "n", "Y") ∈ fixedIssues.
Proof.
  apply (C7_fixed_detection
           (fileA "H1" [issueX 1 1; Issue.mk 3 1 5 "n" "Y"]) (fileA "H2" [issueX 1 1])
           (File.mk "/fileA" "H2" [issueX 1 1])
           (File.mk "/fileA" "H1" [issueX 1 1; Issue.mk 3 1 5 "n" "Y"])
           (Issue.mk 3 1 5 "n" "Y")).
  - vm_compute. apply NoDup_singleton.
  - vm_compute. apply list_elem_of_here.
  - vm_compute. reflexivity.
  - vm_compute. apply list_elem_of_here.
  - vm_compute. intros n Hn. by apply elem_of_nil in Hn.
Defined.

(** ** A snapshot against itself *)

Lemma sameIssue_refl i : sameIssue i i.
Proof. by repeat split. Qed.

Lemma detectIssueMoves_same issues :
  detectIssueMoves issues issues
  = Ok {| newOrMovedI := []; movedIssues := []; fixedIssues := [] |}.
Proof.
  unfold detectIssueMoves.
  rewrite fixedOrMovedIssues_filter, newOrMovedIssues_filter.
  rewrite !filter_none; [done|]. intros i Hi Hn. apply Hn, matchedIn_iff. exists i.
  split; [done | apply sameIssue_refl].
Qed.

Lemma entryOf_same issues : entryOf issues issues = None.
Proof. unfold entryOf. by rewrite detectIssueMoves_same. Qed.

Lemma detectMoves_same snapshot :
  detectMoves snapshot snapshot
  = {| fixedOrMoved := []; newOrMoved := []; movedFiles := [] |}.
Proof.
  unfold detectMoves, fixedOrMovedFiles, newOrMovedFiles.
  rewrite !filter_none; [done|]. intros f Hf Hn. apply Hn, find_is_Some. by exists f.
Qed.

Lemma existingFiles_same snapshot :
  NoDup (paths snapshot) → existingFiles snapshot snapshot = files snapshot.
Proof.
  intros Hnd. unfold existingFiles, unchangedResultFiles, changedResultFiles.
  rewrite detectMoves_same. simpl.
  rewrite filter_all, filter_none, !app_nil_r; [done| |].
  - intros r Hr (e & He & Hp & Hh)%find_is_Some. apply Hh. f_equal.
    by eapply same_path_same_file.
  - intros r Hr. apply find_is_Some. by exists r.
Qed.

(** C6.  Diffing a snapshot with unique paths against itself gives a diff
    with no entry. *)
Theorem C6_idempotence snapshot :
  NoDup (paths snapshot) → differ snapshot snapshot = Ok ∅.
Proof.
  intros Hnd. rewrite differ_Ok. f_equal.
  unfold fixedFiles, newFiles. rewrite existingFiles_same, detectMoves_same by done.
  simpl. apply map_eq. intros path. apply foldl_write_untouched.
  intros rf Hrf _. unfold existingEntry, expectedFileOf. simpl.
  rewrite getFile_unique by done. simpl. apply entryOf_same.
Qed.

Lemma C6_idempotence_witness : differ expectedAB expectedAB = Ok ∅.
Proof.
  apply (C6_idempotence expectedAB).
  vm_compute. apply NoDup_cons. split.
  - intros [Hab|Hn]%elem_of_cons; [discriminate Hab | by apply elem_of_nil in Hn].
  - apply NoDup_singleton.
Defined.


(** An existing file is neither a new file nor, by its path, a fixed file. *)
Lemma fixedFiles_path expected result file :
  file ∈ fixedFiles expected result →
  file ∈ files expected ∧ File.absolutePath file ∉ paths result.
Proof.
  intros Hin. destruct (detectMoves_sound expected result) as (_ & Hf & _).
  eapply elem_of_sublist in Hf; [|exact Hin].
  apply list_elem_of_filter in Hf as [Hnone Hf]. split; [done|].
  intros (r & Hp & Hr)%list_elem_of_fmap. apply Hnone, find_is_Some. by exists r.
Qed.

Lemma newFiles_path expected result file :
  file ∈ newFiles expected result →
  file ∈ files result ∧ File.absolutePath file ∉ paths expected.
Proof.
  intros Hin. destruct (detectMoves_sound expected result) as (_ & _ & Hn).
  eapply elem_of_sublist in Hn; [|exact Hin].
  apply list_elem_of_filter in Hn as [Hnone Hn]. split; [done|].
  intros (e & Hp & He)%list_elem_of_fmap. apply Hnone, find_is_Some. by exists e.
Qed.

Lemma NoDup_newOrMovedFiles expected result :
  NoDup (paths result) → NoDup (newOrMovedFiles expected result).
Proof. intros Hnd. apply NoDup_filter. by eapply NoDup_fmap_1. Qed.

Lemma existingFiles_not_new expected result file :
  NoDup (paths result) →
  file ∈ existingFiles expected result → file ∉ newFiles expected result.
Proof.
  intros Hnd Hex Hnew. apply newFiles_path in Hnew as Hpath. destruct Hpath as [_ Hpath].
  unfold existingFiles in Hex. rewrite !elem_of_app in Hex.
  destruct Hex as [Hin|[Hin|Hin]].
  - apply list_elem_of_filter in Hin as [(e & He & Hp & _)%find_is_Some _].
    apply Hpath, list_elem_of_fmap. by exists e.
  - apply list_elem_of_filter in Hin as [(e & He & Hp & _)%find_is_Some _].
    apply Hpath, list_elem_of_fmap. by exists e.
  - destruct (detectMoves_split expected result) as (Hnd' & _ & _).
    { by apply NoDup_newOrMovedFiles. }
    apply NoDup_app in Hnd' as (_ & Hdisj & _). by apply (Hdisj file).
Qed.




(** ** The partition of the files *)

Lemma files_split (others these : BettererFileTestResult) :
  NoDup (paths others) →
  files these ≡ₚ unchangedResultFiles others these ++ changedResultFiles others these
                 ++ newOrMovedFiles others these.
Proof.
  intros Hnd. unfold unchangedResultFiles, changedResultFiles, newOrMovedFiles.
  induction (files these) as [|r l IH]; [done|].
  rewrite !filter_cons.
  destruct (decide (is_Some (find (λ e, File.absolutePath e = File.absolutePath r)
                               (files others)))) as [HM|HM].
  - rewrite (decide_False (P := ¬ _)) by tauto.
    apply find_is_Some in HM as (e & He & Hp).
    destruct (decide (File.hash e = File.hash r)) as [Hh|Hh].
    + rewrite decide_True by (apply find_is_Some; by exists e).
      rewrite decide_False; [simpl; by rewrite <- IH|].
      intros (e' & He' & Hp' & Hh')%find_is_Some. apply Hh'.
      replace e' with e; [done|]. eapply same_path_same_file; [done..|congruence].
    + rewrite decide_False.
      2:{ intros (e' & He' & Hp' & Hh')%find_is_Some. apply Hh.
          replace e with e'; [done|]. eapply same_path_same_file; [done..|congruence]. }
      rewrite decide_True by (apply find_is_Some; by exists e).
      rewrite <- app_comm_cons, <- Permutation_middle. by rewrite <- IH.
  - rewrite (decide_True (P := ¬ _)) by done.
    rewrite !decide_False.
    + rewrite <- !Permutation_middle. by rewrite <- IH.
    + intros (e & He & Hp & _)%find_is_Some. apply HM, find_is_Some. by exists e.
    + intros (e & He & Hp & _)%find_is_Some. apply HM, find_is_Some. by exists e.
Qed.

Lemma movedFiles_get expected result key value :
  NoDup (paths result) →
  (key, value) ∈ movedFiles (detectMoves expected result) →
  Map.get key (movedFiles (detectMoves expected result)) = Some value.
Proof.
  intros Hnd Hin. apply Map_get_NoDup; [|done].
  destruct (detectMoves_split expected result) as (Hnd' & _ & _).
  { by apply NoDup_newOrMovedFiles. }
  by apply NoDup_app in Hnd' as (? & _ & _).
Qed.

(** With unique paths, the entry of a fixed file lists all its issues as fixed
    and the entry of a new file all its issues as new. *)
Lemma differ_lookup_fixed expected result file diff :
  NoDup (paths expected) →
  file ∈ fixedFiles expected result →
  differ expected result = Ok diff →
  diff !! File.absolutePath file = fixedEntry file.
Proof.
  intros Hnd Hin. rewrite differ_Ok. intros [= <-].
  apply fixedFiles_path in Hin as Hfile. destruct Hfile as [Hfile Hpath].
  rewrite foldl_write_untouched.
  2:{ intros y Hy Hp. destruct Hpath. rewrite <- Hp. apply list_elem_of_fmap_2.
      by eapply existingFiles_subseteq. }
  rewrite foldl_write_untouched.
  2:{ intros y Hy Hp. destruct Hpath. rewrite <- Hp. apply list_elem_of_fmap_2.
      by apply newFiles_path in Hy as [? _]. }
  rewrite (foldl_write_lookup File.absolutePath fixedEntry _ _ file Hin); [done|].
  intros y Hy Hp. f_equal. apply fixedFiles_path in Hy as [Hy _].
  by eapply same_path_same_file.
Qed.

Lemma differ_lookup_new expected result file diff :
  NoDup (paths result) →
  file ∈ newFiles expected result →
  differ expected result = Ok diff →
  diff !! File.absolutePath file = newEntry file.
Proof.
  intros Hnd Hin. rewrite differ_Ok. intros [= <-].
  apply newFiles_path in Hin as Hfile. destruct Hfile as [Hfile Hpath].
  rewrite foldl_write_untouched.
  2:{ intros y Hy Hp. exfalso.
      apply (existingFiles_not_new expected result y Hnd Hy).
      replace y with file; [done|].
      eapply same_path_same_file; [done..| |done]. by eapply existingFiles_subseteq. }
  rewrite (foldl_write_lookup File.absolutePath newEntry _ _ file Hin); [done|].
  intros y Hy Hp. f_equal. apply newFiles_path in Hy as [Hy _].
  by eapply same_path_same_file.
Qed.

(** C5.  With unique paths in both snapshots: the result files are split into
    the unchanged, the changed, the moved and the new ones; the expected files
    into the unchanged, the changed, the moved and the fixed ones; a moved
    result file is paired with one moved expected file, of the same hash; in
    every existing file the result issues are split into the unchanged, the
    moved and the new ones, the expected issues into the unchanged, the moved
    and the fixed ones, an expected issue that moved being paired with a
    result issue of the same hash; and the diff lists every issue of a fixed
    file as fixed and every issue of a new file as new. *)
Theorem C5_partition expected result :
  NoDup (paths expected) → NoDup (paths result) →
  let moved := movedFiles (detectMoves expected result) in
  files result ≡ₚ unchangedResultFiles expected result ++ changedResultFiles expected result
                  ++ Map.keys moved ++ newFiles expected result
  ∧ files expected ≡ₚ unchangedExpectedFiles expected result
                      ++ changedExpectedFiles expected result
                      ++ moved.*2 ++ fixedFiles expected result
  ∧ (∀ resultFile expectedFile, (resultFile, expectedFile) ∈ moved →
       File.hash resultFile = File.hash expectedFile
       ∧ expectedFileOf expected moved resultFile = Some expectedFile)
  ∧ (∀ resultFile, resultFile ∈ existingFiles expected result →
       ∃ expectedFile s movedFrom,
         expectedFileOf expected moved resultFile = Some expectedFile
         ∧ detectIssueMoves (File.issues expectedFile) (File.issues resultFile) = Ok s
         ∧ File.issues resultFile
           ≡ₚ unchangedResultIssues (File.issues expectedFile) (File.issues resultFile)
              ++ movedIssues s ++ newOrMovedI s
         ∧ File.issues expectedFile
           ≡ₚ unchangedExpectedIssues (File.issues expectedFile) (File.issues resultFile)
              ++ movedFrom ++ fixedIssues s
         ∧ Forall2 sameHash movedFrom (movedIssues s))
  ∧ (∃ diff, differ expected result = Ok diff
       ∧ (∀ file, file ∈ fixedFiles expected result →
            diff !! File.absolutePath file
            = Some {| existing := None;
                      fixed := Some (serialiseIssue <$> File.issues file);
                      new := None |})
       ∧ (∀ file, file ∈ newFiles expected result →
            diff !! File.absolutePath file
            = Some {| existing := None;
                      fixed := None;
                      new := Some (serialiseIssue <$> File.issues file) |})).
Proof.
  intros Hexp Hres moved.
  destruct (detectMoves_split expected result) as (Hnd & HF & HN).
  { by apply NoDup_newOrMovedFiles. }
  fold moved in Hnd, HF, HN.
  split; [|split; [|split; [|split]]]; cycle 4.
  { eexists. split; [apply differ_Ok|]. split; intros file Hfile.
    - apply (differ_lookup_fixed expected result); [done..|apply differ_Ok].
    - apply (differ_lookup_new expected result); [done..|apply differ_Ok]. }
  - rewrite (files_split expected result Hexp) at 1. by rewrite HN.
  - rewrite (files_split result expected Hres) at 1.
    unfold unchangedExpectedFiles, changedExpectedFiles.
    change (newOrMovedFiles result expected) with (fixedOrMovedFiles expected result).
    by rewrite HF.
  - intros rf ef Hin. split.
    + destruct (detectMoves_sound expected result) as (Hkv & _ & _).
      by apply Hkv in Hin as (_ & _ & ?).
    + unfold expectedFileOf, moved. by rewrite (movedFiles_get expected result rf ef).
  - intros rf Hrf.
    destruct (expectedFileOf_existing expected result rf Hrf) as [ef Hef].
    destruct (detectIssueMoves_Ok (File.issues ef) (File.issues rf)) as [s Hs].
    destruct (detectIssueMoves_split _ _ _ Hs) as (movedFrom & Hn & _ & Hf & H2 & _).
    exists ef, s, movedFrom. repeat split; try done.
    + rewrite (resultIssues_split (File.issues ef) (File.issues rf)) at 1. by rewrite Hn.
    + rewrite (expectedIssues_split (File.issues ef) (File.issues rf)) at 1.
      rewrite Hf. f_equiv. apply Permutation_app_comm.
Qed.

Lemma NoDup_paths_expectedAB : NoDup (paths expectedAB).
Proof.
  vm_compute. apply NoDup_cons. split; [|apply NoDup_singleton].
  intros [Hab|Hn]%elem_of_cons; [discriminate Hab | by apply elem_of_nil in Hn].
Defined.

Lemma NoDup_paths_resultCD : NoDup (paths resultCD).
Proof.
  vm_compute. apply NoDup_cons. split; [|apply NoDup_singleton].
  intros [Hcd|Hn]%elem_of_cons; [discriminate Hcd | by apply elem_of_nil in Hn].
Defined.

Lemma C5_partition_witness :
  files resultCD
  ≡ₚ unchangedResultFiles expectedAB resultCD ++ changedResultFiles expectedAB resultCD
     ++ Map.keys (movedFiles (detectMoves expectedAB resultCD))
     ++ newFiles expectedAB resultCD
  ∧ files expectedAB
    ≡ₚ unchangedExpectedFiles expectedAB resultCD ++ changedExpectedFiles expectedAB resultCD
       ++ (movedFiles (detectMoves expectedAB resultCD)).*2
       ++ fixedFiles expectedAB resultCD.
Proof.
  destruct (C5_partition expectedAB resultCD NoDup_paths_expectedAB NoDup_paths_resultCD)
    as (Hresult & Hexpected & _).
  split; [exact Hresult | exact Hexpected].
Defined.

(** ** The arrays that exist before the call are left as they are *)

Lemma safe_ret {A} n (a : A) (φ : A → Prop) : φ a → safe n (mret a) φ.
Proof. intros Ha h0 h Hh. split; [done|]. by intros a' [= <-]. Qed.

Lemma safe_throw {A} n e (φ : A → Prop) : safe n (Ref.throw e) φ.
Proof. intros h0 h Hh. split; [done|]. by intros a' [=]. Qed.

Lemma safe_lift {A} n (r : res A) : safe n (Ref.lift r) (λ _, True).
Proof. intros h0 h Hh. by split. Qed.

Lemma safe_bind {A B} n (m : Ref.M A) (k : A → Ref.M B) (φ : A → Prop) (ψ : B → Prop) :
  safe n m φ → (∀ a, φ a → safe n (k a) ψ) → safe n (m ≫= k) ψ.
Proof.
  intros Hm Hk h0 h Hh. destruct (Hm h0 h Hh) as [Hh' Ha].
  unfold mbind, Ref.M_bind. destruct (m h) as [[a|e] h']; simpl in *.
  - apply (Hk a); [by apply Ha | done].
  - split; [done|]. by intros a' [=].
Qed.

Lemma safe_alloc n arr : safe n (Ref.alloc arr) (fresh n).
Proof.
  intros h0 h [Hlen Hsame]. unfold Ref.alloc. simpl. split.
  - split; [rewrite length_app; lia|]. intros r Hr.
    rewrite lookup_app_l by lia. by apply Hsame.
  - intros a [= <-]. done.
Qed.

Lemma safe_readIssues n r : safe n (Ref.readIssues r) (λ _, True).
Proof.
  intros h0 h Hh. unfold Ref.readIssues.
  destruct (h !! r) as [[arr|arr]|]; by split.
Qed.

Lemma safe_readFiles n r : safe n (Ref.readFiles r) (λ _, True).
Proof.
  intros h0 h Hh. unfold Ref.readFiles.
  destruct (h !! r) as [[arr|arr]|]; by split.
Qed.

(** Only a write to an array made during the call is safe. *)
Lemma safe_write n r arr : fresh n r → safe n (Ref.write r arr) (λ _, True).
Proof.
  intros Hr h0 h [Hlen Hsame]. unfold Ref.write. simpl. split; [|done].
  split; [by rewrite length_insert|]. intros r' Hr'.
  rewrite list_lookup_insert_ne by (unfold fresh in Hr; lia). by apply Hsame.
Qed.

Ltac safe_step :=
  first
    [ apply safe_alloc
    | apply safe_readIssues
    | apply safe_readFiles
    | apply safe_lift
    | apply safe_throw
    | apply safe_write; assumption
    | apply safe_ret; done
    | eapply safe_bind; [safe_step | intros ? ?] ].

Lemma safe_spliceFiles n r start : fresh n r → safe n (Ref.spliceFiles r start) (λ _, True).
Proof. intros Hr. unfold Ref.spliceFiles. repeat safe_step. Qed.

Lemma safe_spliceIssues n r start : fresh n r → safe n (Ref.spliceIssues r start) (λ _, True).
Proof. intros Hr. unfold Ref.spliceIssues. repeat safe_step. Qed.

Lemma safe_pushIssue n r x : fresh n r → safe n (Ref.pushIssue r x) (λ _, True).
Proof. intros Hr. unfold Ref.pushIssue. repeat safe_step. Qed.

Lemma safe_shiftIssues n r : fresh n r → safe n (Ref.shiftIssues r) (λ _, True).
Proof.
  intros Hr. unfold Ref.shiftIssues. safe_step. destruct (shift a). repeat safe_step.
Qed.

Lemma safe_spreadIssues n r : safe n (Ref.spreadIssues r) (fresh n).
Proof. unfold Ref.spreadIssues. repeat safe_step. Qed.

Lemma safe_forEachM {S A} n (callbackfn : A → S → Ref.M S) arr s :
  (∀ x s, safe n (callbackfn x s) (λ _, True)) →
  safe n (forEachM callbackfn arr s) (λ _, True).
Proof.
  intros Hcb. revert s. induction arr as [|x arr IH]; intros s; simpl.
  - by apply safe_ret.
  - eapply safe_bind; [apply Hcb | intros s' _; apply IH].
Qed.

Lemma safe_mapThrow {A B} n (f : A → Ref.M B) arr :
  (∀ x, safe n (f x) (λ _, True)) → safe n (mapThrow f arr) (λ _, True).
Proof.
  intros Hf. induction arr as [|x arr IH]; simpl.
  - by apply safe_ret.
  - eapply safe_bind; [apply Hf | intros y _].
    eapply safe_bind; [apply IH | intros ys _]. by apply safe_ret.
Qed.

Lemma safe_forEachFrom {S} n O (callbackfn : Ref.BettererFileBase → nat → S → Ref.M S)
    steps k s :
  (∀ x k s, safe n (callbackfn x k s) (λ _, True)) →
  safe n (Ref.forEachFrom O callbackfn steps k s) (λ _, True).
Proof.
  intros Hcb. revert k s. induction steps as [|steps IH]; intros k s; simpl.
  - by apply safe_ret.
  - safe_step. eapply safe_bind; [|intros s' _; apply IH].
    destruct (a !! k); [apply Hcb | by apply safe_ret].
Qed.

Lemma safe_forEach {S} n O (callbackfn : Ref.BettererFileBase → nat → S → Ref.M S) s :
  (∀ x k s, safe n (callbackfn x k s) (λ _, True)) →
  safe n (Ref.forEach O callbackfn s) (λ _, True).
Proof. intros Hcb. unfold Ref.forEach. safe_step. by apply safe_forEachFrom. Qed.

Lemma safe_moveFile n fixedOrMovedFiles newOrMovedFiles file index moved :
  fresh n fixedOrMovedFiles → fresh n newOrMovedFiles →
  safe n (Ref.moveFile fixedOrMovedFiles newOrMovedFiles file index moved) (λ _, True).
Proof.
  intros Hf Hn. unfold Ref.moveFile. do 3 safe_step.
  destruct a1 as [|movedFile rest]; [by apply safe_ret|].
  eapply safe_bind; [by apply safe_spliceFiles | intros _ _].
  safe_step.
  eapply safe_bind; [by apply safe_spliceFiles | intros _ _].
  by apply safe_ret.
Qed.

Lemma safe_moveIssue n newOrMovedIssues movedIssues fixedIssues issue u :
  fresh n newOrMovedIssues → fresh n movedIssues → fresh n fixedIssues →
  safe n (Ref.moveIssue newOrMovedIssues movedIssues fixedIssues issue u) (λ _, True).
Proof.
  intros Hn Hm Hf. unfold Ref.moveIssue. do 3 safe_step.
  case_bool_decide; [by apply safe_pushIssue|].
  eapply safe_bind; [by apply safe_shiftIssues | intros best _].
  do 4 safe_step.
  eapply safe_bind; [by apply safe_spliceIssues | intros _ _].
  by apply safe_pushIssue.
Qed.

Lemma safe_getFile n snapshot path : safe n (Ref.getFile snapshot path) (λ _, True).
Proof. unfold Ref.getFile. repeat safe_step. Qed.

Lemma safe_diffExisting n expected moved resultFile diff :
  safe n (Ref.diffExisting expected moved resultFile diff) (λ _, True).
Proof.
  unfold Ref.diffExisting.
  eapply safe_bind with (φ := λ _, True).
  { destruct (Map.get resultFile moved); [by apply safe_ret|].
    eapply safe_bind; [apply safe_getFile | intros [f|] _];
      [by apply safe_ret | apply safe_throw]. }
  intros expectedFile _.
  eapply safe_bind; [apply safe_spreadIssues | intros resultIssues Hr].
  eapply safe_bind with (φ := fresh n); [repeat safe_step | intros unchangedExpected Hue].
  eapply safe_bind with (φ := fresh n); [repeat safe_step | intros unchangedResult Hur].
  eapply safe_bind with (φ := fresh n); [repeat safe_step | intros newOrMoved Hnm].
  eapply safe_bind with (φ := fresh n); [repeat safe_step | intros fixedOrMoved Hfm].
  eapply safe_bind; [apply safe_alloc | intros movedIssues Hmi].
  eapply safe_bind; [apply safe_alloc | intros fixedIssues Hfi].
  safe_step.
  eapply safe_bind.
  { apply safe_forEachM. intros x u. by apply safe_moveIssue. }
  intros _ _. safe_step.
  eapply safe_bind.
  { apply safe_mapThrow. intros x. do 2 safe_step.
    destruct (at_index _ _); [by apply safe_ret | apply safe_throw]. }
  intros raw _. do 3 safe_step.
  destruct (_ && _); [by apply safe_ret|]. repeat safe_step.
Qed.

Lemma safe_differ n expected result : safe n (Ref.differ expected result) (λ _, True).
Proof.
  unfold Ref.differ.
  eapply safe_bind with (φ := fresh n);
    [unfold Ref.unchangedResultFiles; repeat safe_step | intros unchanged Hu].
  eapply safe_bind with (φ := fresh n);
    [unfold Ref.changedResultFiles; repeat safe_step | intros changed Hc].
  eapply safe_bind with (φ := fresh n);
    [unfold Ref.newOrMovedFiles; repeat safe_step | intros newOrMoved Hn].
  eapply safe_bind with (φ := fresh n);
    [unfold Ref.fixedOrMovedFiles; repeat safe_step | intros fixedOrMoved Hf].
  eapply safe_bind.
  { apply safe_forEach. intros x k s. by apply safe_moveFile. }
  intros moved _. safe_step.
  eapply safe_bind.
  { apply safe_forEachM. intros x s. unfold Ref.diffFixed. repeat safe_step. }
  intros diff _. safe_step.
  eapply safe_bind.
  { apply safe_forEachM. intros x s. unfold Ref.diffNew. repeat safe_step. }
  intros diff' _. do 4 safe_step.
  apply safe_forEachM. intros x s. apply safe_diffExisting.
Qed.

(** C9.  [differ] changes no array that exists when it is called: on every
    heap and for every two snapshots in it, the heap after the call begins
    with the heap before it, array by array, be it the files of a snapshot,
    the issues of a file or any other, whether [differ] returns or throws.
    The arrays that [differ] splices, shifts and pushes to are made during the
    call and come after.  Snapshots, files and issues are values, as the
    source assigns none of their properties. *)
Theorem C9_inputs_unchanged (expected result : Ref.BettererFileTestResult) (h : Ref.Heap) :
  take (List.length h) (Ref.differ expected result h).2 = h.
Proof.
  destruct (safe_differ (List.length h) expected result h h) as [[Hlen Hsame] _].
  { split; [lia | done]. }
  apply list_eq. intros r. destruct (decide (r < List.length h)%nat) as [Hr|Hr].
  - rewrite lookup_take_lt by done. by apply Hsame.
  - rewrite lookup_take_ge by lia. symmetry. apply lookup_ge_None. lia.
Qed.

Example differ_loaded_moved_and_skipped :
  (differ_loaded expectedAB resultCD []).1 = differ expectedAB resultCD.
Proof. vm_compute. reflexivity. Qed.

Example differ_loaded_closest :
  (differ_loaded (fileA "H1" [issueX 10 5; issueX 3 1])
                 (fileA "H2" [issueX 12 5; issueX 11 5; Issue.mk 2 2 5 "m2" "Y"]) []).1
  = differ (fileA "H1" [issueX 10 5; issueX 3 1])
           (fileA "H2" [issueX 12 5; issueX 11 5; Issue.mk 2 2 5 "m2" "Y"]).
Proof. vm_compute. reflexivity. Qed.

(** ** [differ] on references computes what [differ] on values does *)

Lemma run_bind {A B} (m : Ref.M A) (k : A → Ref.M B) h a h' :
  m h = (Ok a, h') → (m ≫= k) h = k a h'.
Proof. intros Hm. unfold mbind, Ref.M_bind. by rewrite Hm. Qed.

Lemma run_readIssues h r arr :
  h !! r = Some (Ref.Issues arr) → Ref.readIssues r h = (Ok arr, h).
Proof. intros Hr. unfold Ref.readIssues. by rewrite Hr. Qed.

Lemma run_readFiles h r arr :
  h !! r = Some (Ref.Files arr) → Ref.readFiles r h = (Ok arr, h).
Proof. intros Hr. unfold Ref.readFiles. by rewrite Hr. Qed.

Lemma run_alloc h arr : Ref.alloc arr h = (Ok (List.length h), h ++ [arr]).
Proof. done. Qed.

Lemma run_pushIssue h r arr x :
  h !! r = Some (Ref.Issues arr) →
  Ref.pushIssue r x h = (Ok tt, <[r := Ref.Issues (arr ++ [x])]> h).
Proof. intros Hr. unfold Ref.pushIssue. by rewrite (run_bind _ _ _ _ _ (run_readIssues _ _ _ Hr)). Qed.

Lemma run_spliceIssues h r arr start :
  h !! r = Some (Ref.Issues arr) →
  Ref.spliceIssues r start h = (Ok tt, <[r := Ref.Issues (splice1 start arr)]> h).
Proof. intros Hr. unfold Ref.spliceIssues. by rewrite (run_bind _ _ _ _ _ (run_readIssues _ _ _ Hr)). Qed.

Lemma run_spliceFiles h r arr start :
  h !! r = Some (Ref.Files arr) →
  Ref.spliceFiles r start h = (Ok tt, <[r := Ref.Files (splice1 start arr)]> h).
Proof. intros Hr. unfold Ref.spliceFiles. by rewrite (run_bind _ _ _ _ _ (run_readFiles _ _ _ Hr)). Qed.

Lemma run_shiftIssues h r arr :
  h !! r = Some (Ref.Issues arr) →
  Ref.shiftIssues r h = (Ok (shift arr).1, <[r := Ref.Issues (shift arr).2]> h).
Proof.
  intros Hr. unfold Ref.shiftIssues.
  rewrite (run_bind _ _ _ _ _ (run_readIssues _ _ _ Hr)). by destruct (shift arr).
Qed.

Lemma run_spreadIssues h r arr :
  h !! r = Some (Ref.Issues arr) →
  Ref.spreadIssues r h = (Ok (List.length h), h ++ [Ref.Issues arr]).
Proof. intros Hr. unfold Ref.spreadIssues. by rewrite (run_bind _ _ _ _ _ (run_readIssues _ _ _ Hr)). Qed.

Lemma run_lift {A} (x : A) h : Ref.lift (Ok x) h = (Ok x, h).
Proof. done. Qed.

Lemma changed_at_refl D h : changed_at D h h.
Proof. by split. Qed.

Lemma changed_at_trans D h1 h2 h3 :
  changed_at D h1 h2 → changed_at D h2 h3 → changed_at D h1 h3.
Proof.
  intros [Hl1 H1] [Hl2 H2]. split; [lia|]. intros r Hr HD.
  rewrite H2 by (done || lia). by apply H1.
Qed.

Ltac solve_lookup :=
  repeat first
    [ rewrite list_lookup_insert_ne by (rewrite ?length_insert, ?length_app; simpl; lia)
    | rewrite list_lookup_insert_eq by (rewrite ?length_insert, ?length_app; simpl; lia)
    | rewrite lookup_app_l by (rewrite ?length_insert, ?length_app; simpl; lia)
    | rewrite length_insert
    | rewrite length_app ];
  try done.

(** One call of the callback on references does to the three cells what the
    callback on values does to its state. *)
Lemma run_moveIssue h nm mi fi i s s' :
  (nm < List.length h)%nat → (mi < List.length h)%nat → (fi < List.length h)%nat →
  nm ≠ mi → nm ≠ fi → mi ≠ fi →
  issueCells h nm mi fi s →
  moveIssue i s = Ok s' →
  ∃ h', Ref.moveIssue nm mi fi i tt h = (Ok tt, h')
        ∧ issueCells h' nm mi fi s'
        ∧ changed_at [nm; mi; fi] h h'.
Proof.
  intros Hnm Hmi Hfi Hne1 Hne2 Hne3 (Hn & Hm & Hf) Hs.
  unfold Ref.moveIssue.
  rewrite (run_bind _ _ _ _ _ (run_readIssues _ _ _ Hn)).
  rewrite (run_bind _ _ _ _ _ (run_alloc _ _)).
  erewrite run_bind; [|apply run_readIssues, list_lookup_middle; done].
  revert Hs. unfold moveIssue.
  destruct (filter _ (newOrMovedI s)) as [|first rest] eqn:Hposs.
  - simpl. intros [= <-].
    erewrite run_pushIssue by solve_lookup.
    eexists. split; [reflexivity|]. unfold issueCells, changed_at. simpl.
    split; [split; [|split]; solve_lookup|].
    split; [solve_lookup; simpl; lia|].
    intros r Hr HD. rewrite !not_elem_of_cons in HD. solve_lookup.
  - rewrite bool_decide_eq_false_2 by done. simpl.
    rewrite forEachM_closer. simpl. intros [= <-].
    erewrite run_bind; [|apply run_shiftIssues, list_lookup_middle; done].
    simpl.
    erewrite run_bind; [|apply run_readIssues; solve_lookup].
    rewrite forEachM_closer.
    rewrite (run_bind _ _ _ _ _ (run_lift _ _)). simpl assert.
    rewrite (run_bind _ _ _ _ _ (run_lift _ _)).
    erewrite run_bind; [|apply run_readIssues; solve_lookup].
    erewrite run_bind; [|apply run_spliceIssues; solve_lookup].
    erewrite run_pushIssue by solve_lookup.
    eexists. split; [reflexivity|]. unfold issueCells, changed_at. simpl.
    split; [split; [|split]; solve_lookup|].
    split; [solve_lookup; simpl; lia|].
    intros r Hr HD. rewrite !not_elem_of_cons in HD. solve_lookup.
Qed.

Lemma run_forEachM_moveIssue nm mi fi l : ∀ h s s',
  (nm < List.length h)%nat → (mi < List.length h)%nat → (fi < List.length h)%nat →
  nm ≠ mi → nm ≠ fi → mi ≠ fi →
  issueCells h nm mi fi s →
  forEachM moveIssue l s = Ok s' →
  ∃ h', forEachM (Ref.moveIssue nm mi fi) l tt h = (Ok tt, h')
        ∧ issueCells h' nm mi fi s'
        ∧ changed_at [nm; mi; fi] h h'.
Proof.
  induction l as [|i l IH]; intros h s s' Hnm Hmi Hfi Hne1 Hne2 Hne3 Hcells Hs.
  { injection Hs as <-. exists h. split; [done|]. split; [done | apply changed_at_refl]. }
  simpl in Hs. destruct (moveIssue_Ok i s) as [s1 Hs1]. rewrite Hs1 in Hs. simpl in Hs.
  destruct (run_moveIssue h nm mi fi i s s1) as (h1 & Hrun1 & Hcells1 & Hch1); try done.
  destruct (IH h1 s1 s') as (h' & Hrun & Hcells' & Hch'); try done;
    try (destruct Hch1 as [Hlen _]; lia).
  exists h'. split; [|split; [done | by eapply changed_at_trans]].
  simpl. by rewrite (run_bind _ _ _ _ _ Hrun1).
Qed.

Lemma run_rawIssues h copy original (R l : list BettererFileIssue) :
  h !! copy = Some (Ref.Issues R) → h !! original = Some (Ref.Issues R) →
  l ⊆ R →
  mapThrow (λ newIssue,
      rs ← Ref.readIssues copy;
      raw ← Ref.readIssues original;
      match at_index raw (indexOf newIssue rs) with
      | Some issue => mret issue
      | None => Ref.throw TypeError
      end) l h = (Ok l, h).
Proof.
  intros Hc Ho. induction l as [|x l IH]; intros Hl; [done|].
  cbn [mapThrow].
  erewrite run_bind.
  2:{ rewrite (run_bind _ _ _ _ _ (run_readIssues _ _ _ Hc)).
      rewrite (run_bind _ _ _ _ _ (run_readIssues _ _ _ Ho)).
      rewrite at_index_indexOf by (apply Hl; left). reflexivity. }
  rewrite (run_bind _ _ _ _ _ (IH ltac:(intros y Hy; apply Hl; by right))).
  done.
Qed.

Lemma changed_at_lookup D h h' r x :
  changed_at D h h' → r ∉ D → h !! r = Some x → h' !! r = Some x.
Proof.
  intros [_ Hsame] HD Hr. rewrite Hsame; [done| |done]. by eapply lookup_lt_Some.
Qed.

Lemma run_forEach {S} h O (callbackfn : Ref.BettererFileBase → nat → S → Ref.M S) s arr :
  h !! O = Some (Ref.Files arr) →
  Ref.forEach O callbackfn s h = Ref.forEachFrom O callbackfn (List.length arr) 0 s h.
Proof.
  intros Hr. unfold Ref.forEach. by rewrite (run_bind _ _ _ _ _ (run_readFiles _ _ _ Hr)).
Qed.

Lemma run_getFile h snapshot path arr :
  h !! Ref.files snapshot = Some (Ref.Files arr) →
  Ref.getFile snapshot path h = (Ok (find (λ f, Ref.absolutePath f = path) arr), h).
Proof.
  intros Hr. unfold Ref.getFile. by rewrite (run_bind _ _ _ _ _ (run_readFiles _ _ _ Hr)).
Qed.

(** The callback of the loop over the existing files writes the entry of the
    issues of the two files. *)
Lemma run_diffExisting h expected moved rf diff Es ef E R :
  h !! Ref.files expected = Some (Ref.Files Es) →
  expectedRefOf Es moved rf = Some ef →
  h !! Ref.issues ef = Some (Ref.Issues E) →
  h !! Ref.issues rf = Some (Ref.Issues R) →
  (Ref.diffExisting expected moved rf diff h).1
  = Ok (match entryOf E R with
        | Some entry => <[Ref.absolutePath rf := entry]> diff
        | None => diff
        end).
Proof.
  intros HEs Hef HE HR. unfold Ref.diffExisting.
  pose proof (lookup_lt_Some _ _ _ HE) as HltE.
  pose proof (lookup_lt_Some _ _ _ HR) as HltR.
  erewrite run_bind.
  2:{ revert Hef. unfold expectedRefOf. destruct (Map.get rf moved) as [f|].
      - intros [= ->]. reflexivity.
      - intros Hfind. rewrite (run_bind _ _ _ _ _ (run_getFile _ _ _ _ HEs)).
        rewrite Hfind. reflexivity. }
  rewrite (run_bind _ _ _ _ _ (run_spreadIssues _ _ _ HR)).
  set (p0 := List.length h).
  erewrite run_bind.
  2:{ erewrite run_bind; [|apply run_readIssues; solve_lookup].
      erewrite run_bind; [|apply run_readIssues, list_lookup_middle; done].
      apply run_alloc. }
  erewrite run_bind.
  2:{ erewrite run_bind; [|apply run_readIssues; solve_lookup; apply list_lookup_middle; done].
      erewrite run_bind; [|apply run_readIssues; solve_lookup].
      apply run_alloc. }
  fold (unchangedExpectedIssues E R). fold (unchangedResultIssues E R).
  erewrite run_bind.
  2:{ erewrite run_bind;
        [|apply run_readIssues; solve_lookup; apply list_lookup_middle; done].
      erewrite run_bind; [|apply run_readIssues, list_lookup_middle; done].
      apply run_alloc. }
  erewrite run_bind.
  2:{ erewrite run_bind; [|apply run_readIssues; solve_lookup].
      erewrite run_bind;
        [|apply run_readIssues; solve_lookup; apply list_lookup_middle; solve_lookup].
      apply run_alloc. }
  fold (newOrMovedIssues E R). fold (fixedOrMovedIssues E R).
  rewrite (run_bind _ _ _ _ _ (run_alloc _ _)).
  rewrite (run_bind _ _ _ _ _ (run_alloc _ _)).
  rewrite !length_app. simpl List.length. rewrite <- !app_assoc. simpl app.
  set (h1 := h ++ _).
  assert (∀ k x, [Ref.Issues R; Ref.Issues (unchangedExpectedIssues E R);
                  Ref.Issues (unchangedResultIssues E R);
                  Ref.Issues (newOrMovedIssues E R);
                  Ref.Issues (fixedOrMovedIssues E R);
                  Ref.Issues []; Ref.Issues []] !! k = Some x →
                 h1 !! (List.length h + k)%nat = Some x) as Hlocal.
  { intros k x Hk. subst h1. rewrite lookup_app_r by lia.
    by replace (List.length h + k - List.length h)%nat with k by lia. }
  assert (List.length h1 = List.length h + 7)%nat as Hlen1.
  { subst h1. by rewrite length_app. }
  pose proof (Hlocal 0%nat _ eq_refl) as H0. rewrite Nat.add_0_r in H0.
  pose proof (Hlocal 1%nat _ eq_refl) as H1.
  pose proof (Hlocal 3%nat _ eq_refl) as H3.
  pose proof (Hlocal 4%nat _ eq_refl) as H4.
  pose proof (Hlocal 5%nat _ eq_refl) as H5.
  pose proof (Hlocal 6%nat _ eq_refl) as H6.
  replace (List.length h + 1 + 1 + 1 + 1 + 1 + 1)%nat with (List.length h + 6)%nat by lia.
  replace (List.length h + 1 + 1 + 1 + 1 + 1)%nat with (List.length h + 5)%nat by lia.
  replace (List.length h + 1 + 1 + 1 + 1)%nat with (List.length h + 4)%nat by lia.
  replace (List.length h + 1 + 1 + 1)%nat with (List.length h + 3)%nat by lia.
  assert (h1 !! Ref.issues rf = Some (Ref.Issues R)) as HR1.
  { subst h1. by rewrite lookup_app_l. }
  clearbody h1. clear Hlocal.
  rewrite (run_bind _ _ _ _ _ (run_readIssues _ _ _ H4)).
  destruct (detectIssueMoves_Ok E R) as [s Hs].
  destruct (run_forEachM_moveIssue (List.length h + 3) (List.length h + 5)
              (List.length h + 6) (fixedOrMovedIssues E R) h1
              {| newOrMovedI := newOrMovedIssues E R; movedIssues := []; fixedIssues := [] |}
              s) as (h2 & Hrun & (Hn & Hm & Hf) & Hch); try lia; try done.
  rewrite (run_bind _ _ _ _ _ Hrun).
  rewrite (run_bind _ _ _ _ _ (run_readIssues _ _ _ Hn)).
  assert (∀ r x, r ∉ [(List.length h + 3)%nat; (List.length h + 5)%nat;
                      (List.length h + 6)%nat] →
                 h1 !! r = Some x → h2 !! r = Some x) as Hkeep.
  { intros r x HD Hr. by eapply changed_at_lookup. }
  assert (∀ k, (k < 3)%nat → (List.length h + k)%nat
               ∉ [(List.length h + 3)%nat; (List.length h + 5)%nat;
                  (List.length h + 6)%nat]) as Hnot.
  { intros k Hk. rewrite !not_elem_of_cons. repeat split; try lia. apply not_elem_of_nil. }
  assert (h2 !! Ref.issues rf = Some (Ref.Issues R)) as HR2.
  { apply Hkeep.
    - rewrite !not_elem_of_cons. repeat split; try lia. apply not_elem_of_nil.
    - done. }
  erewrite run_bind.
  2:{ apply (run_rawIssues _ p0 (Ref.issues rf) R).
      - apply Hkeep; [|done]. replace p0 with (p0 + 0)%nat by lia. apply Hnot. lia.
      - done.
      - by eapply newOrMovedI_subseteq. }
  rewrite (run_bind _ _ _ _ _ (run_alloc _ _)).
  erewrite run_bind; [|apply run_readIssues, list_lookup_middle; done].
  erewrite run_bind; [|apply run_readIssues; rewrite lookup_app_l by (by eapply lookup_lt_Some); done].
  unfold entryOf. rewrite Hs.
  destruct (newOrMovedI s) as [|n ns] eqn:Hnew, (fixedIssues s) as [|f fs] eqn:Hfixed;
    [done|..]; cbn -[mbind].
  all: match goal with
       | |- context [bool_decide ?P && bool_decide ?Q] =>
           replace (bool_decide P && bool_decide Q) with false
             by (symmetry; apply andb_false_iff;
                 first [left; by apply bool_decide_eq_false_2
                       |right; by apply bool_decide_eq_false_2])
       end.
  all: pose proof (Hkeep _ _ (Hnot 1%nat ltac:(lia)) H1) as H1'.
  all: erewrite run_bind;
    [|apply run_readIssues; rewrite lookup_app_l by (by eapply lookup_lt_Some); done].
  all: erewrite run_bind;
    [|apply run_readIssues; rewrite lookup_app_l by (by eapply lookup_lt_Some); done].
  all: done.
Qed.

(** ** The files: from references to values *)

Lemma list_find_ext_in {A} (P Q : A → Prop) `{!∀ x, Decision (P x)}
    `{!∀ x, Decision (Q x)} (l : list A) :
  (∀ x, x ∈ l → P x ↔ Q x) → list_find P l = list_find Q l.
Proof.
  induction l as [|x l IH]; intros Hl; [done|].
  cbn [list_find]. rewrite IH by (intros y Hy; apply Hl; by right).
  destruct (decide (P x)) as [HP|HP], (decide (Q x)) as [HQ|HQ]; try done.
  - destruct HQ. apply Hl; [left | done].
  - destruct HP. apply Hl; [left | done].
Qed.

Section Images.
Context {A B : Type} (f : A → B).

Lemma filter_fmap_ext (P : B → Prop) (Q : A → Prop) `{!∀ y, Decision (P y)}
    `{!∀ x, Decision (Q x)} (l : list A) :
  (∀ x, x ∈ l → Q x ↔ P (f x)) → f <$> filter Q l = filter P (f <$> l).
Proof.
  induction l as [|x l IH]; intros Hl; [done|].
  rewrite fmap_cons, !filter_cons.
  specialize (IH ltac:(intros y Hy; apply Hl; by right)).
  destruct (decide (Q x)) as [HQ|HQ], (decide (P (f x))) as [HP|HP].
  - by rewrite fmap_cons, IH.
  - destruct HP. apply Hl; [left | done].
  - destruct HQ. apply Hl; [left | done].
  - done.
Qed.

Lemma find_fmap_ext (P : B → Prop) (Q : A → Prop) `{!∀ y, Decision (P y)}
    `{!∀ x, Decision (Q x)} (l : list A) :
  (∀ x, x ∈ l → Q x ↔ P (f x)) → f <$> find Q l = find P (f <$> l).
Proof.
  unfold find. induction l as [|x l IH]; intros Hl; [done|].
  specialize (IH ltac:(intros y Hy; apply Hl; by right)).
  rewrite fmap_cons. cbn [list_find].
  destruct (decide (Q x)) as [HQ|HQ], (decide (P (f x))) as [HP|HP].
  - done.
  - destruct HP. apply Hl; [left | done].
  - destruct HQ. apply Hl; [left | done].
  - rewrite <- !option_fmap_compose in *. simpl.
    destruct (list_find Q l) as [[i y]|], (list_find P (f <$> l)) as [[j z]|];
      simpl in *; congruence.
Qed.

Lemma splice1_fmap (start : Z) (l : list A) :
  splice1 start (f <$> l) = f <$> splice1 start l.
Proof. unfold splice1. by rewrite list_fmap_delete, length_fmap. Qed.

Context `{!EqDecision A, !EqDecision B}.

Lemma indexOf_fmap (x : A) (l : list A) :
  (∀ y, y ∈ l → f y = f x → y = x) → indexOf (f x) (f <$> l) = indexOf x l.
Proof.
  intros Hinj. unfold indexOf.
  rewrite list_find_fmap.
  rewrite (list_find_ext_in _ (λ y, y = x)).
  - by destruct (list_find (λ y, y = x) l) as [[i y]|].
  - intros y Hy. simpl. split; [by apply Hinj | by intros ->].
Qed.
End Images.

Section MapImages.
Context {K K' V V' : Type} `{!EqDecision K, !EqDecision K'} (f : K → K') (g : V → V').

Lemma Map_set_fmap (k : K) (v : V) (m : Map.t K V) :
  (∀ k', k' ∈ Map.keys m → f k' = f k → k' = k) →
  Map.set (f k) (g v) (prod_map f g <$> m) = prod_map f g <$> Map.set k v m.
Proof.
  unfold Map.keys. induction m as [|[k' v'] m IH]; intros Hinj; [done|].
  rewrite fmap_cons. cbn [Map.set prod_map fst snd].
  destruct (decide (k' = k)) as [->|Hne].
  - by rewrite decide_True.
  - rewrite decide_False.
    + rewrite fmap_cons, IH; [done|]. intros k'' Hk''. apply Hinj. rewrite fmap_cons. by right.
    + intros Heq. apply Hne, Hinj; [rewrite fmap_cons; left | done].
Qed.

Lemma Map_get_fmap (k : K) (m : Map.t K V) :
  (∀ k', k' ∈ Map.keys m → f k' = f k → k' = k) →
  Map.get (f k) (prod_map f g <$> m) = g <$> Map.get k m.
Proof.
  intros Hinj. unfold Map.get.
  rewrite <- (find_fmap_ext (prod_map f g) _ (λ kv, kv.1 = k)).
  - rewrite <- !option_fmap_compose. by destruct (find _ m) as [[]|].
  - intros [k' v'] Hin. simpl. split; [by intros ->|].
    apply Hinj. apply list_elem_of_fmap. by exists (k', v').
Qed.

Lemma Map_keys_fmap (m : Map.t K V) :
  Map.keys (prod_map f g <$> m) = f <$> Map.keys m.
Proof.
  unfold Map.keys. rewrite <- !list_fmap_compose. by apply list_fmap_ext; intros ? [].
Qed.
End MapImages.

Section FileRuns.
Variable h0 : Ref.Heap.
Local Notation "'α'" := (fileAt h0).

(** One call of the callback of the loop over the fixed or moved files, on
    references and on values. *)
Lemma run_moveFile h fm nm F N M k f :
  fm ≠ nm →
  h !! fm = Some (Ref.Files F) → h !! nm = Some (Ref.Files N) →
  distinct h0 (Map.keys M ++ N) →
  ∃ h' F' N' M',
    Ref.moveFile fm nm f k M h = (Ok M', h')
    ∧ h' !! fm = Some (Ref.Files F') ∧ h' !! nm = Some (Ref.Files N')
    ∧ changed_at [fm; nm] h h'
    ∧ Map.keys M' ++ N' ⊆ Map.keys M ++ N
    ∧ F' ⊆ F ∧ M'.*2 ⊆ f :: M.*2
    ∧ moveFile (α f) k {| fixedOrMoved := α <$> F; newOrMoved := α <$> N;
                          movedFiles := movedAt h0 M |}
      = {| fixedOrMoved := α <$> F'; newOrMoved := α <$> N'; movedFiles := movedAt h0 M' |}.
Proof.
  intros Hne HF HN Hdist.
  pose proof (lookup_lt_Some _ _ _ HF) as HltF.
  pose proof (lookup_lt_Some _ _ _ HN) as HltN.
  unfold Ref.moveFile, moveFile. simpl.
  rewrite (run_bind _ _ _ _ _ (run_readFiles _ _ _ HN)).
  rewrite (run_bind _ _ _ _ _ (run_alloc _ _)).
  erewrite run_bind; [|apply run_readFiles, list_lookup_middle; done].
  rewrite <- (filter_fmap_ext α _ (λ n, Ref.hash n = Ref.hash f)) by done.
  destruct (filter _ N) as [|moved rest] eqn:Hposs.
  - exists (h ++ [Ref.Files []]), F, N, M. simpl.
    split; [done|]. split; [solve_lookup|]. split; [solve_lookup|].
    split; [|split; [done|split; [done|split; [|done]]]].
    + split; [solve_lookup; lia|]. intros r Hr _. solve_lookup.
    + intros x Hx. by right.
  - assert (moved ∈ N) as Hmoved.
    { assert (moved ∈ filter (λ n, Ref.hash n = Ref.hash f) N) as Hin
        by (rewrite Hposs; left).
      by apply list_elem_of_filter in Hin as [_ ?]. }
    erewrite run_bind; [|apply run_spliceFiles; solve_lookup].
    erewrite run_bind; [|apply run_readFiles; solve_lookup].
    erewrite run_bind; [|apply run_spliceFiles; solve_lookup].
    eexists _, _, _, _. split; [reflexivity|].
    split; [solve_lookup|]. split; [solve_lookup|].
    split; [split; [solve_lookup; lia|]|split; [|split; [|split]]].
    + intros r Hr HD. rewrite !not_elem_of_cons in HD. solve_lookup.
    + intros x. rewrite Map_set_keys, !elem_of_app.
      destruct (decide (moved ∈ Map.keys M)).
      * intros [Hx|Hx]; [by left | right; by eapply list_elem_of_delete_inv].
      * rewrite elem_of_app, list_elem_of_singleton.
        intros [[Hx| ->]|Hx]; [by left | by right |].
        right. by eapply list_elem_of_delete_inv.
    + intros x Hx. by eapply list_elem_of_delete_inv.
    + intros x (kv & -> & [->|Hkv]%Map_set_elem_of)%list_elem_of_fmap; [left|right].
      apply list_elem_of_fmap. by exists kv.
    + rewrite fmap_cons. f_equal.
      * apply splice1_fmap.
      * rewrite (indexOf_fmap α moved N); [apply splice1_fmap|].
        intros y Hy. apply Hdist; rewrite elem_of_app; by right.
      * unfold movedAt. apply Map_set_fmap. intros k' Hk'.
        apply Hdist; rewrite elem_of_app; [by left | by right].
Qed.

Lemma distinct_subseteq l k : k ⊆ l → distinct h0 l → distinct h0 k.
Proof. intros Hkl Hl x y Hx Hy. apply Hl; by apply Hkl. Qed.

Lemma run_forEachFrom_moveFile fm nm steps : ∀ k h F N M,
  fm ≠ nm →
  h !! fm = Some (Ref.Files F) → h !! nm = Some (Ref.Files N) →
  distinct h0 (Map.keys M ++ N) →
  ∃ h' F' N' M',
    Ref.forEachFrom fm (Ref.moveFile fm nm) steps k M h = (Ok M', h')
    ∧ h' !! fm = Some (Ref.Files F') ∧ h' !! nm = Some (Ref.Files N')
    ∧ changed_at [fm; nm] h h'
    ∧ Map.keys M' ++ N' ⊆ Map.keys M ++ N
    ∧ F' ⊆ F ∧ M'.*2 ⊆ F ++ M.*2
    ∧ forEachFrom fixedOrMoved moveFile steps k
        {| fixedOrMoved := α <$> F; newOrMoved := α <$> N; movedFiles := movedAt h0 M |}
      = {| fixedOrMoved := α <$> F'; newOrMoved := α <$> N'; movedFiles := movedAt h0 M' |}.
Proof.
  induction steps as [|steps IH]; intros k h F N M Hne HF HN Hdist.
  { exists h, F, N, M. repeat split; try done.
    - intros x Hx. apply elem_of_app. by right. }
  cbn [Ref.forEachFrom forEachFrom fixedOrMoved].
  rewrite (run_bind _ _ _ _ _ (run_readFiles _ _ _ HF)).
  rewrite list_lookup_fmap. destruct (F !! k) as [f|] eqn:Hk; cbn [fmap option_fmap option_map].
  - destruct (run_moveFile h fm nm F N M k f Hne HF HN Hdist)
      as (h1 & F1 & N1 & M1 & Hrun1 & HF1 & HN1 & Hch1 & Hsub1 & HFsub1 & HMsub1 & ->).
    rewrite (run_bind _ _ _ _ _ Hrun1).
    destruct (IH (S k) h1 F1 N1 M1 Hne HF1 HN1 (distinct_subseteq _ _ Hsub1 Hdist))
      as (h' & F' & N' & M' & Hrun & HF' & HN' & Hch & Hsub & HFsub & HMsub & Hpure).
    exists h', F', N', M'. split; [done|]. split; [done|]. split; [done|].
    split; [by eapply changed_at_trans|]. split; [by etrans|]. split; [by etrans|].
    split; [|done]. intros x Hx. apply HMsub, elem_of_app in Hx as [Hx|Hx].
    + apply elem_of_app. left. by apply HFsub1.
    + apply HMsub1, elem_of_cons in Hx as [->|Hx]; apply elem_of_app; [left|by right].
      by eapply list_elem_of_lookup_2.
  - erewrite run_bind by reflexivity. by apply IH.
Qed.

Lemma fileAt_issues f arr :
  h0 !! Ref.issues f = Some (Ref.Issues arr) → File.issues (α f) = arr.
Proof. intros Hf. unfold fileAt, issuesAt. simpl. by rewrite Hf. Qed.

Lemma run_forEachM_diffFixed h l : ∀ diff,
  readable h0 h l →
  forEachM Ref.diffFixed l diff h
  = (Ok (foldl (write File.absolutePath fixedEntry) diff (α <$> l)), h).
Proof.
  induction l as [|f l IH]; intros diff Hl; [done|].
  destruct (Hl f) as (arr & H0 & Hh); [left|].
  cbn [forEachM]. erewrite run_bind.
  2:{ unfold Ref.diffFixed. rewrite (run_bind _ _ _ _ _ (run_readIssues _ _ _ Hh)).
      reflexivity. }
  rewrite IH by (intros g Hg; apply Hl; by right).
  rewrite fmap_cons. cbn [foldl]. unfold write at 3, fixedEntry.
  by rewrite (fileAt_issues f arr).
Qed.

Lemma run_forEachM_diffNew h l : ∀ diff,
  readable h0 h l →
  forEachM Ref.diffNew l diff h
  = (Ok (foldl (write File.absolutePath newEntry) diff (α <$> l)), h).
Proof.
  induction l as [|f l IH]; intros diff Hl; [done|].
  destruct (Hl f) as (arr & H0 & Hh); [left|].
  cbn [forEachM]. erewrite run_bind.
  2:{ unfold Ref.diffNew. rewrite (run_bind _ _ _ _ _ (run_readIssues _ _ _ Hh)).
      reflexivity. }
  rewrite IH by (intros g Hg; apply Hl; by right).
  rewrite fmap_cons. cbn [foldl]. unfold write at 3, newEntry.
  by rewrite (fileAt_issues f arr).
Qed.

Lemma unchanged_below_lookup h r x :
  unchanged_below (List.length h0) h0 h → h0 !! r = Some x → h !! r = Some x.
Proof. intros [_ Hsame] Hr. rewrite Hsame; [done|]. by eapply lookup_lt_Some. Qed.

Lemma run_forEachM_diffExisting expected Es M l : ∀ diff h,
  unchanged_below (List.length h0) h0 h →
  h0 !! Ref.files expected = Some (Ref.Files Es) →
  (∀ rf, rf ∈ l → ∃ ef E R,
     expectedRefOf Es M rf = Some ef
     ∧ h0 !! Ref.issues ef = Some (Ref.Issues E)
     ∧ h0 !! Ref.issues rf = Some (Ref.Issues R)) →
  (forEachM (Ref.diffExisting expected M) l diff h).1
  = Ok (foldl (write Ref.absolutePath (refEntry h0 Es M)) diff l).
Proof.
  induction l as [|rf l IH]; intros diff h Hh HEs Hl; [done|].
  destruct (Hl rf) as (ef & E & R & Hef & HE & HR); [left|].
  pose proof (run_diffExisting h expected M rf diff Es ef E R
                (unchanged_below_lookup _ _ _ Hh HEs) Hef
                (unchanged_below_lookup _ _ _ Hh HE)
                (unchanged_below_lookup _ _ _ Hh HR)) as Hval.
  destruct (safe_diffExisting (List.length h0) expected M rf diff h0 h Hh) as [Hh1 _].
  cbn [forEachM foldl].
  destruct (Ref.diffExisting expected M rf diff h) as [v h1] eqn:Hrun.
  simpl in Hval, Hh1. subst v.
  rewrite (run_bind _ _ _ _ _ Hrun).
  rewrite IH by (done || (intros g Hg; apply Hl; by right)).
  f_equal. f_equal. unfold write, refEntry. rewrite Hef. simpl.
  unfold issuesAt. by rewrite HE, HR.
Qed.
End FileRuns.

(** A heap [h0] that holds two snapshots: the arrays of their files, [Es] and
    [Rs], and the array of issues of each file; the paths of the result are
    unique. *)
Section Refinement.
Variable h0 : Ref.Heap.
Variables (expected result : Ref.BettererFileTestResult).
Variables (Es Rs : list Ref.BettererFileBase).
Hypothesis HEs : h0 !! Ref.files expected = Some (Ref.Files Es).
Hypothesis HRs : h0 !! Ref.files result = Some (Ref.Files Rs).
Hypothesis Hissues : ∀ f, f ∈ Es ++ Rs → ∃ arr, h0 !! Ref.issues f = Some (Ref.Issues arr).
Hypothesis Hpaths : NoDup (Ref.absolutePath <$> Rs).

Local Notation "'α'" := (fileAt h0).
Local Abbreviation expectedAt := (snapshotAt h0 Es).
Local Abbreviation resultAt := (snapshotAt h0 Rs).

Lemma distinct_Rs : distinct h0 Rs.
Proof.
  intros x y Hx Hy Hxy. eapply NoDup_fmap_inj_on; [exact Hpaths|done..|].
  by injection Hxy.
Qed.

Lemma is_Some_find_fmap (P : BettererFileBase → Prop) (Q : Ref.BettererFileBase → Prop)
    `{!∀ y, Decision (P y)} `{!∀ x, Decision (Q x)} (l : list Ref.BettererFileBase) :
  (∀ x, x ∈ l → Q x ↔ P (α x)) → is_Some (find Q l) ↔ is_Some (find P (α <$> l)).
Proof. intros Hl. rewrite <- (find_fmap_ext α P Q l Hl). by rewrite fmap_is_Some. Qed.

Lemma unchangedResultFiles_at :
  α <$> filter (λ r, is_Some (find (λ e,
      Ref.absolutePath e = Ref.absolutePath r ∧ Ref.hash e = Ref.hash r) Es)) Rs
  = unchangedResultFiles expectedAt resultAt.
Proof.
  unfold unchangedResultFiles. apply filter_fmap_ext. intros r _.
  by apply is_Some_find_fmap.
Qed.

Lemma changedResultFiles_at :
  α <$> filter (λ r, is_Some (find (λ e,
      Ref.absolutePath e = Ref.absolutePath r ∧ Ref.hash e ≠ Ref.hash r) Es)) Rs
  = changedResultFiles expectedAt resultAt.
Proof.
  unfold changedResultFiles. apply filter_fmap_ext. intros r _.
  by apply is_Some_find_fmap.
Qed.

Lemma newOrMovedFiles_at :
  α <$> filter (λ r, ¬ is_Some (find (λ e,
      Ref.absolutePath e = Ref.absolutePath r) Es)) Rs
  = newOrMovedFiles expectedAt resultAt.
Proof.
  unfold newOrMovedFiles. apply filter_fmap_ext. intros r _.
  by rewrite (is_Some_find_fmap (λ e, File.absolutePath e = File.absolutePath (α r))
                (λ e, Ref.absolutePath e = Ref.absolutePath r)).
Qed.

Lemma fixedOrMovedFiles_at :
  α <$> filter (λ e, ¬ is_Some (find (λ r,
      Ref.absolutePath r = Ref.absolutePath e) Rs)) Es
  = fixedOrMovedFiles expectedAt resultAt.
Proof.
  unfold fixedOrMovedFiles. apply filter_fmap_ext. intros e _.
  by rewrite (is_Some_find_fmap (λ r, File.absolutePath r = File.absolutePath (α e))
                (λ r, Ref.absolutePath r = Ref.absolutePath e)).
Qed.

Lemma expectedFileOf_at M rf :
  distinct h0 (rf :: Map.keys M) →
  expectedFileOf expectedAt (movedAt h0 M) (α rf) = α <$> expectedRefOf Es M rf.
Proof.
  intros Hdist. unfold expectedFileOf, expectedRefOf, movedAt.
  rewrite Map_get_fmap.
  2:{ intros k Hk. apply Hdist; [by right | left]. }
  destruct (Map.get rf M) as [f|]; [done|]. simpl.
  unfold getFile. symmetry.
  by apply (find_fmap_ext α (λ f, File.absolutePath f = Ref.absolutePath rf)
           (λ f, Ref.absolutePath f = Ref.absolutePath rf)).
Qed.

Lemma detectMoves_at F' N' M' :
  forEachFrom fixedOrMoved moveFile
    (List.length (filter (λ e, ¬ is_Some (find (λ r,
       Ref.absolutePath r = Ref.absolutePath e) Rs)) Es)) 0%nat
    {| fixedOrMoved := α <$> filter (λ e, ¬ is_Some (find (λ r,
         Ref.absolutePath r = Ref.absolutePath e) Rs)) Es;
       newOrMoved := α <$> filter (λ r, ¬ is_Some (find (λ e,
         Ref.absolutePath e = Ref.absolutePath r) Es)) Rs;
       movedFiles := movedAt h0 [] |}
  = {| fixedOrMoved := α <$> F'; newOrMoved := α <$> N'; movedFiles := movedAt h0 M' |} →
  detectMoves expectedAt resultAt
  = {| fixedOrMoved := α <$> F'; newOrMoved := α <$> N'; movedFiles := movedAt h0 M' |}.
Proof.
  intros <-. unfold detectMoves, forEach. cbn [fixedOrMoved].
  by rewrite <- fixedOrMovedFiles_at, <- newOrMovedFiles_at, length_fmap.
Qed.

Lemma foldl_fmap_ext {A B D} (f : D → B → D) (g : D → A → D) (a : A → B) (l : list A) :
  (∀ d x, x ∈ l → f d (a x) = g d x) → ∀ d, foldl f d (a <$> l) = foldl g d l.
Proof.
  induction l as [|x l IH]; intros Hl d; [done|].
  rewrite fmap_cons. cbn [foldl]. rewrite Hl by left.
  apply IH. intros d' y Hy. apply Hl. by right.
Qed.

(** X15.  What [differ] returns depends on the contents of the two snapshots
    only, not on where their arrays are in memory nor on arrays that files
    share: on a heap that holds two snapshots, the result with unique paths,
    [differ] on references returns, or throws, what [differ] on values does on
    the two snapshots that the heap holds. *)
Theorem differ_refines :
  (Ref.differ expected result h0).1 = differ expectedAt resultAt.
Proof.
  rewrite differ_Ok. unfold Ref.differ.
  unfold Ref.unchangedResultFiles, Ref.changedResultFiles, Ref.newOrMovedFiles,
    Ref.fixedOrMovedFiles.
  pose proof (lookup_lt_Some _ _ _ HEs) as HltE.
  pose proof (lookup_lt_Some _ _ _ HRs) as HltR.
  set (U := filter (λ r, is_Some (find (λ e,
      Ref.absolutePath e = Ref.absolutePath r ∧ Ref.hash e = Ref.hash r) Es)) Rs).
  set (C := filter (λ r, is_Some (find (λ e,
      Ref.absolutePath e = Ref.absolutePath r ∧ Ref.hash e ≠ Ref.hash r) Es)) Rs).
  set (N := filter (λ r, ¬ is_Some (find (λ e,
      Ref.absolutePath e = Ref.absolutePath r) Es)) Rs).
  set (F := filter (λ e, ¬ is_Some (find (λ r,
      Ref.absolutePath r = Ref.absolutePath e) Rs)) Es).
  erewrite run_bind.
  2:{ rewrite (run_bind _ _ _ _ _ (run_readFiles _ _ _ HRs)).
      rewrite (run_bind _ _ _ _ _ (run_readFiles _ _ _ HEs)). apply run_alloc. }
  erewrite run_bind.
  2:{ erewrite run_bind; [|apply run_readFiles; solve_lookup].
      erewrite run_bind; [|apply run_readFiles; solve_lookup]. apply run_alloc. }
  erewrite run_bind.
  2:{ erewrite run_bind; [|apply run_readFiles; solve_lookup].
      erewrite run_bind; [|apply run_readFiles; solve_lookup]. apply run_alloc. }
  erewrite run_bind.
  2:{ erewrite run_bind; [|apply run_readFiles; solve_lookup].
      erewrite run_bind; [|apply run_readFiles; solve_lookup]. apply run_alloc. }
  fold U C N F. rewrite !length_app. simpl List.length. rewrite <- !app_assoc. simpl app.
  set (h1 := h0 ++ _).
  assert (∀ k x, [Ref.Files U; Ref.Files C; Ref.Files N; Ref.Files F] !! k = Some x →
                 h1 !! (List.length h0 + k)%nat = Some x) as Hlocal.
  { intros k x Hk. subst h1. rewrite lookup_app_r by lia.
    by replace (List.length h0 + k - List.length h0)%nat with k by lia. }
  pose proof (Hlocal 0%nat _ eq_refl) as HU. rewrite Nat.add_0_r in HU.
  pose proof (Hlocal 1%nat _ eq_refl) as HC.
  pose proof (Hlocal 2%nat _ eq_refl) as HN.
  pose proof (Hlocal 3%nat _ eq_refl) as HF.
  replace (List.length h0 + 1 + 1 + 1)%nat with (List.length h0 + 3)%nat by lia.
  replace (List.length h0 + 1 + 1)%nat with (List.length h0 + 2)%nat by lia.
  assert (∀ r x, h0 !! r = Some x → h1 !! r = Some x) as Hkeep1.
  { intros r x Hr. subst h1. by apply lookup_app_l_Some. }
  assert (List.length h1 = List.length h0 + 4)%nat as Hlen1.
  { subst h1. by rewrite length_app. }
  clearbody h1. clear Hlocal.
  (* the loop over the fixed or moved files *)
  destruct (run_forEachFrom_moveFile h0 (List.length h0 + 3)%nat (List.length h0 + 2)%nat
              (List.length F) 0%nat h1 F N []) as
    (h2 & F' & N' & M' & Hrun & HF' & HN' & Hch & Hsub & HFsub & HMsub & Hpure);
    [lia | done | done | |].
  { eapply distinct_subseteq; [|apply distinct_Rs]. intros x Hx.
    by apply list_elem_of_filter in Hx as [_ ?]. }
  erewrite run_bind; [|rewrite (run_forEach _ _ _ _ _ HF); exact Hrun].
  apply detectMoves_at in Hpure.
  unfold fixedFiles, newFiles, existingFiles. rewrite Hpure. cbn [fixedOrMoved newOrMoved movedFiles].
  assert (∀ r x, h0 !! r = Some x → h2 !! r = Some x) as Hkeep2.
  { intros r x Hr. eapply changed_at_lookup; [exact Hch| |by apply Hkeep1].
    apply lookup_lt_Some in Hr. rewrite !not_elem_of_cons.
    repeat split; try lia. apply not_elem_of_nil. }
  assert (F ⊆ Es) as HFEs.
  { intros x Hx. by apply list_elem_of_filter in Hx as [_ ?]. }
  assert (N ⊆ Rs) as HNRs.
  { intros x Hx. by apply list_elem_of_filter in Hx as [_ ?]. }
  assert (∀ l, l ⊆ Es ++ Rs → readable h0 h2 l) as Hreadable.
  { intros l Hl f Hf. destruct (Hissues f (Hl f Hf)) as [arr Harr].
    exists arr. split; [done | by apply Hkeep2]. }
  (* the fixed files and the new files *)
  rewrite (run_bind _ _ _ _ _ (run_readFiles _ _ _ HF')).
  rewrite (run_bind _ _ _ _ _ (run_forEachM_diffFixed h0 h2 F' ∅
             ltac:(apply Hreadable; intros x Hx; apply elem_of_app; left; by apply HFEs, HFsub))).
  rewrite (run_bind _ _ _ _ _ (run_readFiles _ _ _ HN')).
  assert (N' ⊆ N) as HN'N.
  { intros x Hx. specialize (Hsub x). rewrite !elem_of_app in Hsub.
    destruct Hsub as [[]%elem_of_nil|?]; [by right | done]. }
  erewrite run_bind.
  2:{ apply (run_forEachM_diffNew h0).
      apply Hreadable. intros x Hx. apply elem_of_app. right. by apply HNRs, HN'N. }
  (* the existing files *)
  assert (∀ k, (k < 2)%nat → (List.length h0 + k)%nat
               ∉ [(List.length h0 + 3)%nat; (List.length h0 + 2)%nat]) as Hnot.
  { intros k Hk. rewrite !not_elem_of_cons. repeat split; try lia. apply not_elem_of_nil. }
  assert (List.length h0 ∉ [(List.length h0 + 3)%nat; (List.length h0 + 2)%nat]) as Hnot0.
  { rewrite !not_elem_of_cons. repeat split; try lia. apply not_elem_of_nil. }
  pose proof (changed_at_lookup _ _ _ _ _ Hch Hnot0 HU) as HU2.
  pose proof (changed_at_lookup _ _ _ _ _ Hch (Hnot 1%nat ltac:(lia)) HC) as HC2.
  rewrite (run_bind _ _ _ _ _ (run_readFiles _ _ _ HU2)).
  rewrite (run_bind _ _ _ _ _ (run_readFiles _ _ _ HC2)).
  rewrite (run_bind _ _ _ _ _ (run_alloc _ _)).
  erewrite run_bind; [|apply run_readFiles, list_lookup_middle; done].
  assert (Map.keys M' ⊆ Rs) as HkeysRs.
  { intros x Hx. apply HNRs. specialize (Hsub x). rewrite !elem_of_app in Hsub.
    destruct Hsub as [[]%elem_of_nil|?]; [by left | done]. }
  assert (U ++ C ++ Map.keys M' ⊆ Rs) as HexRs.
  { intros x. rewrite !elem_of_app. intros [Hx|[Hx|Hx]].
    - by apply list_elem_of_filter in Hx as [_ ?].
    - by apply list_elem_of_filter in Hx as [_ ?].
    - by apply HkeysRs. }
  assert (∀ rf, rf ∈ U ++ C ++ Map.keys M' →
            expectedFileOf expectedAt (movedAt h0 M') (α rf)
            = α <$> expectedRefOf Es M' rf) as Hexp.
  { intros rf Hrf. apply expectedFileOf_at.
    eapply distinct_subseteq; [|apply distinct_Rs].
    intros x [->|Hx]%elem_of_cons; [by apply HexRs | by apply HkeysRs]. }
  rewrite (run_forEachM_diffExisting h0 expected Es M').
  - f_equal. rewrite <- unchangedResultFiles_at, <- changedResultFiles_at.
    fold U C. unfold movedAt at 2. rewrite Map_keys_fmap, <- !fmap_app.
    symmetry. apply foldl_fmap_ext. intros d rf Hrf. unfold write, existingEntry, refEntry.
    rewrite (Hexp rf Hrf). by destruct (expectedRefOf Es M' rf).
  - split; [rewrite length_app; destruct Hch as [Hlen _]; lia|].
    intros r Hr. destruct (h0 !! r) as [x|] eqn:Hx.
    + apply lookup_app_l_Some. by apply Hkeep2.
    + apply lookup_ge_None in Hx. lia.
  - done.
  - intros rf Hrf.
    destruct (Hissues rf) as [R HR]; [apply elem_of_app; right; by apply HexRs|].
    assert (α rf ∈ existingFiles expectedAt resultAt) as Hin.
    { unfold existingFiles. rewrite Hpure. cbn [movedFiles].
      rewrite <- unchangedResultFiles_at, <- changedResultFiles_at.
      fold U C. unfold movedAt. rewrite Map_keys_fmap, <- !fmap_app.
      by apply list_elem_of_fmap_2. }
    apply expectedFileOf_existing in Hin. rewrite Hpure in Hin. cbn [movedFiles] in Hin.
    rewrite (Hexp rf Hrf), fmap_is_Some in Hin. destruct Hin as [ef Hef].
    assert (ef ∈ Es) as HefEs.
    { revert Hef. unfold expectedRefOf. destruct (Map.get rf M') as [f|] eqn:Hget.
      - intros [= ->]. apply Map_get_elem_of in Hget.
        apply HFEs. specialize (HMsub ef). rewrite app_nil_r in HMsub. apply HMsub.
        apply list_elem_of_fmap. by exists (rf, ef).
      - by intros [? _]%find_Some_inv. }
    destruct (Hissues ef) as [E HE]; [apply elem_of_app; by left|].
    by exists ef, E, R.
Qed.
End Refinement.

Lemma differ_refines_moved_and_skipped :
  (Ref.differ {| Ref.files := 2%nat |} {| Ref.files := 5%nat |} heapABCD).1
  = differ expectedAB resultCD.
Proof.
  apply (differ_refines heapABCD {| Ref.files := 2%nat |} {| Ref.files := 5%nat |}
           [Ref.mkFile "/a" "h1" 0%nat; Ref.mkFile "/b" "h2" 1%nat]
           [Ref.mkFile "/c" "h1" 3%nat; Ref.mkFile "/d" "h2" 4%nat]).
  - reflexivity.
  - reflexivity.
  - intros f Hf. repeat (apply elem_of_cons in Hf as [->|Hf]; [by eexists|]).
    by apply elem_of_nil in Hf.
  - vm_compute. apply NoDup_cons. split; [|apply NoDup_singleton].
    intros [Hcd|Hn]%elem_of_cons; [discriminate Hcd | by apply elem_of_nil in Hn].
Defined.

(** ** The [merge] command *)

(** C8.  Whatever [betterer.merge] throws, the handler returns normally and
    the exit code of the process is 1; when [betterer.merge] returns, the
    handler returns with the process as [betterer.merge] left it. *)
Theorem C8_merge_failure_caught {World Failure : Type}
    (setEnv : Cli.BettererCLIMergeConfig → Cli.Process World
              → Cli.Process World * Cli.completion Failure unit)
    (betterer_merge : Cli.BettererOptionsMerge → Cli.Process World
                      → Cli.Process World * Cli.completion Failure unit)
    cwd config args process process1 process2 outcome :
  setEnv config process = (process1, Cli.Resolved tt) →
  betterer_merge {| Cli.contents := args; Cli.cwd := cwd;
                    Cli.resultsPath := Cli.results config |} process1
    = (process2, outcome) →
  ∃ process', Cli.merge setEnv betterer_merge cwd config args process
              = (process', Cli.Resolved tt)
    ∧ match outcome with
      | Cli.Rejected _ =>
          Cli.exitCode process' = Some 1 ∧ Cli.exitCode process' ≠ Some 0
          ∧ Cli.world process' = Cli.world process2
      | Cli.Resolved _ => process' = process2
      end.
Proof.
  intros Henv Hmerge. unfold Cli.merge. rewrite Henv, Hmerge.
  destruct outcome as [[]|e]; eexists; (split; [reflexivity|]); simpl; done.
Qed.

Lemma C8_merge_failure_caught_witness :
  ∃ process' : Cli.Process unit,
    Cli.merge (Failure := string)
      (λ _ p, (p, Cli.Resolved tt)) (λ _ p, (p, Cli.Rejected "conflict"))
      "/repo" {| Cli.results := ".betterer.results" |} ["ours"; "theirs"]
      {| Cli.exitCode := None; Cli.world := tt |}
    = (process', Cli.Resolved tt)
    ∧ Cli.exitCode process' = Some 1 ∧ Cli.exitCode process' ≠ Some 0
    ∧ Cli.world process' = tt.
Proof.
  apply (C8_merge_failure_caught (Failure := string)
           (λ _ p, (p, Cli.Resolved tt)) (λ _ p, (p, Cli.Rejected "conflict"))
           "/repo" {| Cli.results := ".betterer.results" |} ["ours"; "theirs"]
           {| Cli.exitCode := None; Cli.world := tt |}
           {| Cli.exitCode := None; Cli.world := tt |}
           {| Cli.exitCode := None; Cli.world := tt |}
           (Cli.Rejected "conflict")); reflexivity.
Defined.

(** * The rest of [differ] and of [merge] *)

(** ** The closest issue, for every pool *)



(** ** The loop over [fixedOrMovedFiles] as a scan *)

(** The first element that satisfies [P] is removed by [indexOf] and [splice]. *)
Lemma splice1_indexOf_first {A} `{!EqDecision A} (P : A → Prop) `{!∀ x, Decision (P x)}
    (l : list A) x rest :
  filter P l = x :: rest → splice1 (indexOf x l) l = removeFirst P l.
Proof.
  induction l as [|y l IH]; [done|]. rewrite filter_cons. simpl.
  destruct (decide (P y)) as [Hy|Hy].
  - intros [= -> _]. unfold indexOf. simpl. rewrite decide_True by done.
    by rewrite (splice1_nat 0).
  - intros Hf. assert (y ≠ x) as Hne.
    { intros ->. assert (x ∈ filter P l) as Hin by (rewrite Hf; left).
      by apply list_elem_of_filter in Hin as [? _]. }
    assert (x ∈ l) as Hin.
    { assert (x ∈ filter P l) as Hin by (rewrite Hf; left).
      by apply list_elem_of_filter in Hin as [_ ?]. }
    destruct (indexOf_elem_of x l Hin) as (i & Hi & _).
    specialize (IH Hf). rewrite Hi, splice1_nat in IH.
    unfold indexOf in *. simpl. rewrite decide_False by done.
    destruct (list_find (λ y, y = x) l) as [[j z]|]; simpl in *; [|lia].
    assert (j = i) as -> by lia.
    rewrite (splice1_nat (S i)). simpl. by rewrite IH.
Qed.

(** From index [k] on, with enough steps left to reach the end of the array,
    [forEach] scans the files that the array holds from [k]. *)
Lemma forEachFrom_scanMoves steps : ∀ k s,
  (List.length (fixedOrMoved s) ≤ k + steps)%nat →
  forEachFrom fixedOrMoved moveFile steps k s
  = let s' := scanMoves (drop k (fixedOrMoved s)) (newOrMoved s) (movedFiles s) in
    {| fixedOrMoved := take k (fixedOrMoved s) ++ fixedOrMoved s';
       newOrMoved := newOrMoved s';
       movedFiles := movedFiles s' |}.
Proof.
  induction steps as [|steps IH]; intros k [F N M] Hlen; simpl in *.
  { rewrite drop_ge, take_ge by lia. simpl. by rewrite app_nil_r. }
  destruct (F !! k) as [f|] eqn:Hk.
  - rewrite (drop_S _ _ _ Hk). simpl. unfold moveFile. simpl.
    destruct (filter _ N) as [|c cs] eqn:Hf.
    + rewrite IH by (simpl; lia). simpl.
      rewrite (take_S_r _ _ _ Hk), <- app_assoc. done.
    + rewrite splice1_nat, (splice1_indexOf_first _ _ _ _ Hf).
      assert (List.length (take k F) = k) as Htake
        by (apply length_take_le; pose proof (lookup_lt_Some _ _ _ Hk); lia).
      rewrite IH; cycle 1.
      { simpl. pose proof (lookup_lt_Some _ _ _ Hk). rewrite length_delete by (by eexists). lia. }
      simpl. rewrite delete_take_drop.
      destruct (drop (S k) F) as [|g rest] eqn:Hdrop.
      * rewrite app_nil_r. rewrite drop_ge, take_ge by lia. simpl.
        by rewrite app_nil_r.
      * replace (take k F ++ g :: rest) with ((take k F ++ [g]) ++ rest)
          by (by rewrite <- app_assoc).
        rewrite take_app_length', drop_app_length' by (rewrite length_app; simpl; lia).
        simpl. by rewrite <- app_assoc.
  - apply lookup_ge_None in Hk.
    rewrite IH by (simpl; lia). simpl.
    rewrite !drop_ge, !take_ge by lia. simpl. by rewrite app_nil_r.
Qed.

(** X2.  The loop over [fixedOrMovedFiles], which removes from the array it
    goes through, is the scan [scanMoves] of the files in their order: a file
    with a result file of its hash is paired with the first such file of the
    pool, and the file that comes next in the array is not looked at and
    stays among the fixed files. *)
Theorem X2_detectMoves_passes_over_the_file_after_a_move expected result :
  detectMoves expected result
  = scanMoves (fixedOrMovedFiles expected result) (newOrMovedFiles expected result) [].
Proof.
  unfold detectMoves, forEach. rewrite forEachFrom_scanMoves by (simpl; lia).
  simpl. by destruct (scanMoves _ _ _).
Qed.

Lemma Map_set_not_nil {K V} `{!EqDecision K} (key : K) (value : V) (m : Map.t K V) :
  Map.set key value m ≠ [].
Proof. destruct m as [|[k v] m]; simpl; [done|]. by case_decide. Qed.

Lemma moveFile_keeps_moves f k s : movedFiles s ≠ [] → movedFiles (moveFile f k s) ≠ [].
Proof.
  intros Hs. destruct (moveFile_cases f k s) as [->|(moved & _ & _ & ->)]; [done|].
  apply Map_set_not_nil.
Qed.

(** A loop that ends without a move has changed nothing, and no file it went
    through had a candidate. *)
Lemma forEachFrom_no_move steps : ∀ k s,
  movedFiles (forEachFrom fixedOrMoved moveFile steps k s) = [] →
  forEachFrom fixedOrMoved moveFile steps k s = s
  ∧ ∀ i f r, (k ≤ i < k + steps)%nat → fixedOrMoved s !! i = Some f →
             r ∈ newOrMoved s → File.hash r ≠ File.hash f.
Proof.
  induction steps as [|steps IH]; intros k s; simpl.
  { intros _. split; [done|]. intros; lia. }
  destruct (fixedOrMoved s !! k) as [f|] eqn:Hk.
  - intros Hnil. destruct (IH _ _ Hnil) as [Heq Hrest]. rewrite Heq in *.
    unfold moveFile in *.
    destruct (filter _ (newOrMoved s)) as [|moved rest] eqn:Hf.
    + split; [done|]. intros i g r Hi Hg Hr Hh.
      destruct (decide (i = k)) as [->|Hne].
      * rewrite Hk in Hg. injection Hg as <-.
        assert (r ∈ filter (λ n, File.hash n = File.hash f) (newOrMoved s)) as Hin
          by by apply list_elem_of_filter.
        rewrite Hf in Hin. by apply elem_of_nil in Hin.
      * apply (Hrest i g r); [lia | done..].
    + simpl in Hnil. by apply Map_set_not_nil in Hnil.
  - intros Hnil. destruct (IH _ _ Hnil) as [Heq Hrest]. split; [done|].
    intros i g r Hi Hg Hr. destruct (decide (i = k)) as [->|Hne]; [congruence|].
    apply (Hrest i g r); [lia | done..].
Qed.

Lemma forEachFrom_no_candidate steps : ∀ k s,
  (∀ f r, f ∈ fixedOrMoved s → r ∈ newOrMoved s → File.hash r ≠ File.hash f) →
  forEachFrom fixedOrMoved moveFile steps k s = s.
Proof.
  induction steps as [|steps IH]; intros k s Hno; simpl; [done|].
  destruct (fixedOrMoved s !! k) as [f|] eqn:Hk; [|by apply IH].
  assert (moveFile f k s = s) as ->; [|by apply IH].
  unfold moveFile. destruct (filter _ (newOrMoved s)) as [|moved rest] eqn:Hf; [done|].
  assert (moved ∈ filter (λ n, File.hash n = File.hash f) (newOrMoved s)) as Hin
    by (rewrite Hf; left).
  apply list_elem_of_filter in Hin as [Hh Hin].
  destruct (Hno f moved); [by eapply list_elem_of_lookup_2 | done..].
Qed.

(** X3.  No move is recorded exactly when no expected file whose path is gone
    has the hash of a result file whose path is new; then the fixed files are
    all the former and the new files all the latter. *)
Theorem X3_no_move_iff_no_common_hash expected result :
  (movedFiles (detectMoves expected result) = []
   ↔ ∀ e r, e ∈ fixedOrMovedFiles expected result →
            r ∈ newOrMovedFiles expected result → File.hash r ≠ File.hash e)
  ∧ (movedFiles (detectMoves expected result) = [] →
     fixedFiles expected result = fixedOrMovedFiles expected result
     ∧ newFiles expected result = newOrMovedFiles expected result).
Proof.
  unfold fixedFiles, newFiles, detectMoves, forEach. simpl. split; [split|].
  - intros Hnil e r (i & Hi)%list_elem_of_lookup_1 Hr.
    apply forEachFrom_no_move in Hnil as [_ Hno]. simpl in Hno.
    apply (Hno i e r); [|done..]. apply lookup_lt_Some in Hi. lia.
  - intros Hno. by rewrite forEachFrom_no_candidate.
  - intros Hnil. apply forEachFrom_no_move in Hnil as [-> _]. done.
Qed.

Lemma fixedFiles_sublist expected result :
  fixedFiles expected result `sublist_of` files expected.
Proof.
  destruct (detectMoves_sound expected result) as (_ & Hf & _).
  etrans; [exact Hf | apply sublist_filter].
Qed.

Lemma newFiles_sublist expected result :
  newFiles expected result `sublist_of` files result.
Proof.
  destruct (detectMoves_sound expected result) as (_ & _ & Hn).
  etrans; [exact Hn | apply sublist_filter].
Qed.

(** X4.  Whatever the snapshots, with or without repeated paths: a move joins
    a result file whose path no expected file has and an expected file whose
    path no result file has, of the same hash; the fixed files are expected
    files in their order and the new files result files in their order; no
    fixed file has the path of a result file and no new file the path of an
    expected file. *)
Theorem X4_moves_join_a_gone_path_and_a_new_path expected result :
  (∀ resultFile expectedFile,
     (resultFile, expectedFile) ∈ movedFiles (detectMoves expected result) →
     resultFile ∈ files result ∧ (File.absolutePath resultFile ∉ paths expected)
     ∧ expectedFile ∈ files expected ∧ (File.absolutePath expectedFile ∉ paths result)
     ∧ File.hash resultFile = File.hash expectedFile)
  ∧ fixedFiles expected result `sublist_of` files expected
  ∧ newFiles expected result `sublist_of` files result
  ∧ (∀ file, file ∈ fixedFiles expected result → File.absolutePath file ∉ paths result)
  ∧ (∀ file, file ∈ newFiles expected result → File.absolutePath file ∉ paths expected).
Proof.
  split; [|split; [|split; [|split]]].
  - intros rf ef Hin. destruct (detectMoves_sound expected result) as (Hkv & _ & _).
    apply Hkv in Hin as (Hr & He & Hh). simpl in *.
    apply list_elem_of_filter in Hr as [Hrno Hr], He as [Heno He].
    repeat split; try done.
    + intros (e & Hp & Hin)%list_elem_of_fmap. apply Hrno, find_is_Some. by exists e.
    + intros (r & Hp & Hin)%list_elem_of_fmap. apply Heno, find_is_Some. by exists r.
  - apply fixedFiles_sublist.
  - apply newFiles_sublist.
  - intros file Hfile. by apply fixedFiles_path in Hfile as [_ ?].
  - intros file Hfile. by apply newFiles_path in Hfile as [_ ?].
Qed.

(** ** Where an entry of the diff comes from *)

Section WriteOrigin.
Context {A : Type} (key : A → string) (entry : A → option BettererFileDiff).

Lemma foldl_write_Some l (diff : BettererFilesDiff) path e :
  foldl (write key entry) diff l !! path = Some e →
  diff !! path = Some e ∨ ∃ x, x ∈ l ∧ key x = path ∧ entry x = Some e.
Proof.
  revert diff. induction l as [|a l IH]; intros diff; simpl; [by left|].
  intros [Hd|(x & Hx & Hk & He)]%IH.
  - unfold write in Hd. destruct (entry a) as [ea|] eqn:Ha; [|by left].
    destruct (decide (key a = path)) as [Heq|Hne].
    + rewrite <- Heq, lookup_insert_eq in Hd. injection Hd as <-.
      right. exists a. split; [left | done].
    + rewrite lookup_insert_ne in Hd by done. by left.
  - right. exists x. split; [by right | done].
Qed.
End WriteOrigin.

(** An entry is the one that a fixed file, a new file or an existing file
    wrote under its path. *)
Lemma differ_entry_origin expected result diff path entry :
  differ expected result = Ok diff → diff !! path = Some entry →
  (∃ file, file ∈ fixedFiles expected result ∧ File.absolutePath file = path
           ∧ fixedEntry file = Some entry)
  ∨ (∃ file, file ∈ newFiles expected result ∧ File.absolutePath file = path
             ∧ newEntry file = Some entry)
  ∨ (∃ resultFile, resultFile ∈ existingFiles expected result
       ∧ File.absolutePath resultFile = path
       ∧ existingEntry expected (movedFiles (detectMoves expected result)) resultFile
         = Some entry).
Proof.
  rewrite differ_Ok. intros [= <-] Hl.
  apply foldl_write_Some in Hl as [Hl|Hl]; [|by right; right].
  apply foldl_write_Some in Hl as [Hl|Hl]; [|by right; left].
  apply foldl_write_Some in Hl as [Hl|Hl]; [|by left].
  by rewrite lookup_empty in Hl.
Qed.

(** The expected file of a result file is a file of the expected snapshot,
    found by its path or, for a moved file, with the same hash. *)
Lemma expectedFileOf_origin expected result resultFile expectedFile :
  expectedFileOf expected (movedFiles (detectMoves expected result)) resultFile
    = Some expectedFile →
  expectedFile ∈ files expected
  ∧ (File.absolutePath expectedFile = File.absolutePath resultFile
     ∨ File.hash expectedFile = File.hash resultFile).
Proof.
  unfold expectedFileOf. destruct (Map.get resultFile _) as [f|] eqn:Hget.
  - intros [= ->]. apply Map_get_elem_of in Hget.
    destruct (detectMoves_sound expected result) as (Hkv & _ & _).
    apply Hkv in Hget as (_ & Hf & Hh). simpl in *.
    apply list_elem_of_filter in Hf as [_ Hf]. split; [done | by right].
  - unfold getFile. intros Hf.
    apply (find_Some_inv (λ f, File.absolutePath f = File.absolutePath resultFile))
      in Hf as [Hin Hp].
    split; [done | by left].
Qed.

Lemma entryOf_Some expectedIssues resultIssues entry :
  entryOf expectedIssues resultIssues = Some entry →
  ∃ s, detectIssueMoves expectedIssues resultIssues = Ok s
    ∧ entry = {| existing := Some (serialiseIssue <$>
                   (unchangedExpectedIssues expectedIssues resultIssues ++ movedIssues s));
                 fixed := Some (serialiseIssue <$> fixedIssues s);
                 new := Some (serialiseIssue <$> newOrMovedI s) |}
    ∧ (fixedIssues s ≠ [] ∨ newOrMovedI s ≠ []).
Proof.
  unfold entryOf.
  destruct (detectIssueMoves_Ok expectedIssues resultIssues) as [s ->].
  case_bool_decide as Hgate; [done|]. intros [= <-]. exists s. split; [done|].
  split; [done|].
  destruct (fixedIssues s), (newOrMovedI s); try (by left); try (by right).
  by destruct Hgate.
Qed.

(** The fixed issues are listed in the order of the loop. *)
Lemma forEachM_moveIssue_fixed l : ∀ s s',
  forEachM moveIssue l s = Ok s' →
  ∃ fixed', fixedIssues s' = fixedIssues s ++ fixed' ∧ fixed' `sublist_of` l.
Proof.
  induction l as [|i l IH]; intros s s'; simpl.
  { intros [= <-]. exists []. by rewrite app_nil_r. }
  destruct (chosen i (newOrMovedI s)) as [best|] eqn:Hc.
  - rewrite (moveIssue_moved _ _ _ Hc). simpl.
    intros (fixed' & Hf & Hs)%IH. simpl in Hf. exists fixed'. split; [done|].
    by apply sublist_cons.
  - rewrite (moveIssue_fixed _ _ Hc). simpl.
    intros (fixed' & Hf & Hs)%IH. simpl in Hf. exists (i :: fixed').
    rewrite Hf, <- app_assoc. split; [done|]. by apply sublist_skip.
Qed.

Lemma detectIssueMoves_order expectedIssues resultIssues s :
  detectIssueMoves expectedIssues resultIssues = Ok s →
  fixedIssues s `sublist_of` fixedOrMovedIssues expectedIssues resultIssues
  ∧ newOrMovedI s `sublist_of` newOrMovedIssues expectedIssues resultIssues.
Proof.
  intros Hs. split.
  - unfold detectIssueMoves in Hs.
    apply forEachM_moveIssue_fixed in Hs as (fixed' & Hf & Hsub). simpl in Hf.
    by rewrite Hf.
  - by apply detectIssueMoves_split in Hs as (_ & _ & Hsub & _).
Qed.

Lemma detectIssueMoves_length expectedIssues resultIssues s :
  detectIssueMoves expectedIssues resultIssues = Ok s →
  (List.length (unchangedExpectedIssues expectedIssues resultIssues ++ movedIssues s)
   + List.length (fixedIssues s) = List.length expectedIssues)%nat.
Proof.
  intros (movedFrom & _ & _ & Hf & H2 & _)%detectIssueMoves_split.
  rewrite (Permutation_length (expectedIssues_split expectedIssues resultIssues)).
  rewrite !length_app, (Permutation_length Hf), length_app.
  apply Forall2_length in H2. lia.
Qed.

(** What an entry with [existing] is made of. *)
Lemma existing_entry_origin expected result diff path entry existingIssues :
  differ expected result = Ok diff → diff !! path = Some entry →
  existing entry = Some existingIssues →
  ∃ resultFile expectedFile s,
    resultFile ∈ existingFiles expected result
    ∧ File.absolutePath resultFile = path
    ∧ expectedFileOf expected (movedFiles (detectMoves expected result)) resultFile
      = Some expectedFile
    ∧ detectIssueMoves (File.issues expectedFile) (File.issues resultFile) = Ok s
    ∧ entry = {| existing := Some (serialiseIssue <$>
                   (unchangedExpectedIssues (File.issues expectedFile)
                      (File.issues resultFile) ++ movedIssues s));
                 fixed := Some (serialiseIssue <$> fixedIssues s);
                 new := Some (serialiseIssue <$> newOrMovedI s) |}
    ∧ (fixedIssues s ≠ [] ∨ newOrMovedI s ≠ []).
Proof.
  intros Hd Hl Hex.
  destruct (differ_entry_origin _ _ _ _ _ Hd Hl)
    as [(f & _ & _ & [= <-])|[(f & _ & _ & [= <-])|(rf & Hrf & Hp & He)]]; [done..|].
  unfold existingEntry in He.
  destruct (expectedFileOf _ _ rf) as [ef|] eqn:Hef; [|done]. simpl in He.
  apply entryOf_Some in He as (s & Hs & -> & Hne). by exists rf, ef, s.
Qed.

(** X5.  Every entry of the diff has one of three shapes.  It holds only
    [fixed], all the issues of an expected file at that path, which is the path
    of no result file; or only [new], all the issues of a result file at that
    path, which is the path of no expected file; or [existing], [fixed] and
    [new] together, for a result file at that path, and then [fixed] or [new]
    is not empty. *)
Theorem X5_differ_entry_shapes expected result :
  ∃ diff, differ expected result = Ok diff
  ∧ ∀ path entry, diff !! path = Some entry →
      (∃ file, file ∈ files expected ∧ File.absolutePath file = path
         ∧ (path ∉ paths result)
         ∧ entry = {| existing := None;
                      fixed := Some (serialiseIssue <$> File.issues file);
                      new := None |})
      ∨ (∃ file, file ∈ files result ∧ File.absolutePath file = path
           ∧ (path ∉ paths expected)
           ∧ entry = {| existing := None;
                        fixed := None;
                        new := Some (serialiseIssue <$> File.issues file) |})
      ∨ (∃ file existingIssues fixedIssues newIssues,
           file ∈ files result ∧ File.absolutePath file = path
           ∧ entry = {| existing := Some existingIssues;
                        fixed := Some fixedIssues;
                        new := Some newIssues |}
           ∧ (fixedIssues ≠ [] ∨ newIssues ≠ [])).
Proof.
  eexists. split; [apply differ_Ok|]. intros path entry Hl.
  destruct (differ_entry_origin _ _ _ _ _ (differ_Ok expected result) Hl)
    as [(f & Hf & Hp & [= <-])|[(f & Hf & Hp & [= <-])|(rf & Hrf & Hp & He)]].
  - left. apply fixedFiles_path in Hf as [Hf Hn]. exists f. by rewrite <- Hp.
  - right; left. apply newFiles_path in Hf as [Hf Hn]. exists f. by rewrite <- Hp.
  - right; right. unfold existingEntry in He.
    destruct (expectedFileOf _ _ rf) as [ef|] eqn:Hef; [|done]. simpl in He.
    apply entryOf_Some in He as (s & Hs & -> & Hne).
    exists rf. eexists _, _, _. split; [by eapply existingFiles_subseteq|].
    split; [done|]. split; [done|].
    destruct Hne as [Hne|Hne]; [left | right]; by intros ?%fmap_nil_inv.
Qed.

(** X6.  An entry with [existing] is that of a result file at its path and of
    an expected file, which has the same path or, after a move, the same hash.
    Every issue of the expected file is counted once, as existing or as fixed:
    the two arrays have together as many elements as the expected file has
    issues.  [fixed] lists issues of the expected file in their order and
    [new] issues of the result file in their order. *)
Theorem X6_existing_entry_accounts_for_expected_issues expected result :
  ∃ diff, differ expected result = Ok diff
  ∧ ∀ path entry existingIssues,
      diff !! path = Some entry → existing entry = Some existingIssues →
      ∃ resultFile expectedFile fixedIssues newIssues,
        resultFile ∈ files result ∧ File.absolutePath resultFile = path
        ∧ expectedFile ∈ files expected
        ∧ (File.absolutePath expectedFile = path
           ∨ File.hash expectedFile = File.hash resultFile)
        ∧ fixed entry = Some fixedIssues ∧ new entry = Some newIssues
        ∧ (List.length existingIssues + List.length fixedIssues
           = List.length (File.issues expectedFile))%nat
        ∧ fixedIssues `sublist_of` (serialiseIssue <$> File.issues expectedFile)
        ∧ newIssues `sublist_of` (serialiseIssue <$> File.issues resultFile).
Proof.
  eexists. split; [apply differ_Ok|]. intros path entry ex Hl Hex.
  destruct (existing_entry_origin _ _ _ _ _ _ (differ_Ok expected result) Hl Hex)
    as (rf & ef & s & Hrf & Hp & Hef & Hs & -> & _).
  apply expectedFileOf_origin in Hef as [Hin Hrel]. rewrite Hp in Hrel.
  injection Hex as <-.
  exists rf, ef. eexists _, _. split; [by eapply existingFiles_subseteq|].
  do 5 (split; [done|]). rewrite !length_fmap.
  split; [by apply detectIssueMoves_length|].
  apply detectIssueMoves_order in Hs as [Hf Hn].
  split; apply fmap_sublist.
  - etrans; [exact Hf|]. unfold fixedOrMovedIssues. apply sublist_filter.
  - etrans; [exact Hn|]. unfold newOrMovedIssues. apply sublist_filter.
Qed.





(** ** An empty snapshot *)

Lemma detectMoves_empty_expected result :
  detectMoves {| files := [] |} result
  = {| fixedOrMoved := []; newOrMoved := files result; movedFiles := [] |}.
Proof.
  unfold detectMoves, fixedOrMovedFiles, newOrMovedFiles. simpl.
  rewrite (filter_all _ (files result)); [reflexivity|]. intros r _ []%is_Some_None.
Qed.

Lemma detectMoves_empty_result expected :
  detectMoves expected {| files := [] |}
  = {| fixedOrMoved := files expected; newOrMoved := []; movedFiles := [] |}.
Proof.
  unfold detectMoves, fixedOrMovedFiles, newOrMovedFiles, forEach. simpl.
  rewrite (filter_all _ (files expected)) by (intros r _ []%is_Some_None).
  apply forEachFrom_no_candidate. simpl. intros f r _ []%elem_of_nil.
Qed.

(** X9.  Against a snapshot without files, the diff has an entry exactly under
    the paths of the other snapshot: with no expected file every entry lists
    all the issues of a result file at that path as new, with no result file
    every entry lists all the issues of an expected file at that path as
    fixed. *)
Theorem X9_differ_against_empty_snapshot snapshot :
  (∃ diff, differ {| files := [] |} snapshot = Ok diff
     ∧ (∀ path, is_Some (diff !! path) ↔ path ∈ paths snapshot)
     ∧ (∀ path entry, diff !! path = Some entry →
          ∃ file, file ∈ files snapshot ∧ File.absolutePath file = path
            ∧ entry = {| existing := None;
                         fixed := None;
                         new := Some (serialiseIssue <$> File.issues file) |}))
  ∧ (∃ diff, differ snapshot {| files := [] |} = Ok diff
       ∧ (∀ path, is_Some (diff !! path) ↔ path ∈ paths snapshot)
       ∧ (∀ path entry, diff !! path = Some entry →
            ∃ file, file ∈ files snapshot ∧ File.absolutePath file = path
              ∧ entry = {| existing := None;
                           fixed := Some (serialiseIssue <$> File.issues file);
                           new := None |})).
Proof.
  split; (eexists; split; [apply differ_Ok|]);
    unfold existingFiles, fixedFiles, newFiles, unchangedResultFiles, changedResultFiles;
    rewrite ?detectMoves_empty_expected, ?detectMoves_empty_result; simpl.
  - rewrite !filter_none by (intros r _ []%is_Some_None). simpl. split.
    + intros path. rewrite foldl_write_is_Some, lookup_empty. unfold paths.
      rewrite list_elem_of_fmap. split.
      * intros [[]%is_Some_None|(f & Hf & Hp & _)]. by exists f.
      * intros (f & Hp & Hf). right. by exists f.
    + intros path entry [Hl|(f & Hf & Hp & [= <-])]%foldl_write_Some.
      * by rewrite lookup_empty in Hl.
      * by exists f.
  - split.
    + intros path. rewrite !foldl_write_is_Some, lookup_empty. unfold paths.
      rewrite list_elem_of_fmap. split.
      * intros [[]%is_Some_None|(f & Hf & Hp & _)]. by exists f.
      * intros (f & Hp & Hf). right. by exists f.
    + intros path entry [Hl|(f & Hf & Hp & [= <-])]%foldl_write_Some.
      * by rewrite lookup_empty in Hl.
      * by exists f.
Qed.

(** ** The object [diff] *)

Section ObjFacts.
Context {V : Type}.
Implicit Types (o : Obj.t V) (key : string) (value : V).

Lemma dictionary_get key o : Map.get key o = dictionary o !! key.
Proof.
  unfold Map.get, find, dictionary. induction o as [|[k v] o IH]; [done|].
  simpl. destruct (decide (k = key)) as [->|Hne]; simpl.
  - by rewrite lookup_insert_eq.
  - rewrite lookup_insert_ne by done. rewrite <- IH.
    by destruct (list_find _ o) as [[i [k' v']]|].
Qed.

Lemma dictionary_set key value o :
  dictionary (Map.set key value o) = <[key := value]> (dictionary o).
Proof.
  unfold dictionary. induction o as [|[k v] o IH]; [done|]. simpl.
  destruct (decide (k = key)) as [->|Hne]; simpl.
  - by rewrite insert_insert_eq.
  - by rewrite IH, insert_insert_ne.
Qed.
End ObjFacts.

Lemma Logged_diffExisting_Ok expected moved resultFile diff :
  is_Some (expectedFileOf expected moved resultFile) →
  Logged.diffExisting expected moved resultFile diff
  = Ok (assign File.absolutePath (existingEntry expected moved) diff resultFile).
Proof.
  intros [expectedFile He]. unfold Logged.diffExisting, assign, existingEntry, entryOf.
  rewrite He. simpl.
  destruct (detectIssueMoves_Ok (File.issues expectedFile) (File.issues resultFile))
    as [s Hs].
  rewrite Hs. simpl.
  rewrite map_rawIssue by by eapply newOrMovedI_subseteq. simpl.
  destruct (newOrMovedI s) as [|n ns], (fixedIssues s) as [|f fs]; simpl; try done.
  all: rewrite bool_decide_eq_false_2; [done | by intros [? ?]].
Qed.

Lemma forEachM_Logged_diffExisting expected moved l diff :
  Forall (λ resultFile, is_Some (expectedFileOf expected moved resultFile)) l →
  forEachM (Logged.diffExisting expected moved) l diff
  = Ok (foldl (assign File.absolutePath (existingEntry expected moved)) diff l).
Proof.
  revert diff. induction l as [|rf l IH]; intros diff Hl; [done|].
  apply Forall_cons in Hl as [Hrf Hl]. simpl.
  rewrite Logged_diffExisting_Ok by done. simpl. by apply IH.
Qed.

Section Assign.
Context {A : Type} (key : A → string) (entry : A → option BettererFileDiff).

Lemma dictionary_foldl_assign l (diff : Obj.t BettererFileDiff) :
  dictionary (foldl (assign key entry) diff l)
  = foldl (write key entry) (dictionary diff) l.
Proof.
  revert diff. induction l as [|x l IH]; intros diff; [done|]. simpl.
  rewrite IH. f_equal. unfold assign, write.
  destruct (entry x); [apply dictionary_set | done].
Qed.
End Assign.

(** The entries of the object are those of the dictionary. *)
Lemma dictionary_diffObject expected result :
  differ expected result = Ok (dictionary (diffObject expected result)).
Proof.
  rewrite differ_Ok. unfold diffObject. by rewrite !dictionary_foldl_assign.
Qed.

Lemma Logged_differ_unfold format expected resultΩ :
  Logged.differ format expected resultΩ
  = (logs ← forEachM (Logged.logFile format resultΩ (diffObject expected (asResult resultΩ)))
             (Obj.keys (diffObject expected (asResult resultΩ))) [];
     Ok {| Logged.diff := diffObject expected (asResult resultΩ); Logged.logs := logs |}).
Proof.
  unfold Logged.differ. rewrite forEachM_Logged_diffExisting; [done|].
  apply Forall_forall. intros rf. apply expectedFileOf_existing.
Qed.

Lemma arrayIndex_Some key n : Obj.arrayIndex key = Some n → pretty n = key.
Proof.
  unfold Obj.arrayIndex. destruct (Obj.numeral key 0) as [m|]; [|done]. simpl.
  case_decide as H; [|done]. intros [= <-]. by destruct H.
Qed.

Lemma elem_of_Obj_keys {V} (o : Obj.t V) key : key ∈ Obj.keys o ↔ key ∈ Map.keys o.
Proof.
  unfold Obj.keys. rewrite elem_of_app, list_elem_of_fmap, list_elem_of_filter. split.
  - intros [(n & -> & Hn)|[_ ?]]; [|done].
    rewrite merge_sort_Permutation in Hn.
    apply list_elem_of_omap in Hn as (k & Hk & Hi).
    by rewrite (arrayIndex_Some _ _ Hi).
  - intros Hin. destruct (Obj.arrayIndex key) as [n|] eqn:Hi; [left | by right].
    exists n. split; [by rewrite (arrayIndex_Some _ _ Hi)|].
    rewrite merge_sort_Permutation. apply list_elem_of_omap. by exists key.
Qed.

Lemma NoDup_omap_arrayIndex (l : list string) : NoDup l → NoDup (omap Obj.arrayIndex l).
Proof.
  induction 1 as [|k l Hk Hnd IH]; [constructor|]. simpl.
  destruct (Obj.arrayIndex k) as [n|] eqn:Hi; [|done]. constructor; [|done].
  intros (k' & Hk' & Hi')%list_elem_of_omap.
  apply arrayIndex_Some in Hi, Hi'. congruence.
Qed.

Lemma NoDup_Obj_keys {V} (o : Obj.t V) : NoDup (Map.keys o) → NoDup (Obj.keys o).
Proof.
  intros Hnd. unfold Obj.keys. apply NoDup_app. split; [|split].
  - apply NoDup_fmap_2; [apply _|]. rewrite merge_sort_Permutation.
    by apply NoDup_omap_arrayIndex.
  - intros key (n & -> & Hn)%list_elem_of_fmap [Hnone _]%list_elem_of_filter.
    rewrite merge_sort_Permutation in Hn.
    apply list_elem_of_omap in Hn as (k & Hk & Hi).
    rewrite (arrayIndex_Some _ _ Hi) in Hnone. congruence.
  - by apply NoDup_filter.
Qed.

Lemma Obj_keys_no_index {V} (o : Obj.t V) :
  (∀ key, key ∈ Map.keys o → Obj.arrayIndex key = None) → Obj.keys o = Map.keys o.
Proof.
  intros Hno. unfold Obj.keys. rewrite filter_all by done.
  assert (omap Obj.arrayIndex (Map.keys o) = []) as ->; [|done].
  induction (Map.keys o) as [|k l IH]; [done|]. simpl.
  rewrite (Hno k) by left. apply IH. intros key Hkey. apply Hno. by right.
Qed.

Section AssignKeys.
Context {A : Type} (key : A → string) (entry : A → option BettererFileDiff).

Lemma NoDup_keys_set {V} k (v : V) (o : Obj.t V) :
  NoDup (Map.keys o) → NoDup (Map.keys (Map.set k v o)).
Proof.
  intros Hnd. rewrite Map_set_keys. case_decide as Hin; [done|].
  apply NoDup_app. split; [done|]. split; [|apply NoDup_singleton].
  intros x Hx ->%list_elem_of_singleton. done.
Qed.

Lemma NoDup_keys_foldl_assign l (diff : Obj.t BettererFileDiff) :
  NoDup (Map.keys diff) → NoDup (Map.keys (foldl (assign key entry) diff l)).
Proof.
  revert diff. induction l as [|x l IH]; intros diff Hnd; [done|]. simpl.
  apply IH. unfold assign. destruct (entry x); [by apply NoDup_keys_set | done].
Qed.

(** New keys go to the end, in the order of the writes. *)
Lemma keys_foldl_assign l (diff : Obj.t BettererFileDiff) :
  NoDup (key <$> l) → (∀ x, x ∈ l → key x ∉ Map.keys diff) →
  Map.keys (foldl (assign key entry) diff l)
  = Map.keys diff ++ (key <$> filter (λ x, is_Some (entry x)) l).
Proof.
  revert diff. induction l as [|x l IH]; intros diff Hnd Hfresh; simpl.
  { by rewrite app_nil_r. }
  rewrite fmap_cons in Hnd. apply NoDup_cons in Hnd as [Hx Hnd].
  assert (key x ∉ Map.keys diff) as Hxd by (apply Hfresh; left).
  rewrite filter_cons. unfold assign at 2. destruct (entry x) as [e|] eqn:He.
  - rewrite decide_True by done. rewrite IH; [|done|].
    + rewrite Map_set_keys, decide_False by done. by rewrite <- app_assoc.
    + intros y Hy. rewrite Map_set_keys, decide_False by done.
      rewrite elem_of_app, list_elem_of_singleton. intros [Hin|Heq].
      * apply (Hfresh y); [by right | done].
      * apply Hx. rewrite <- Heq. by apply list_elem_of_fmap_2.
  - rewrite decide_False by (by intros []%is_Some_None). apply IH; [done|].
    intros y Hy. apply Hfresh. by right.
Qed.
End AssignKeys.

Lemma NoDup_keys_diffObject expected result : NoDup (Map.keys (diffObject expected result)).
Proof. unfold diffObject. do 3 apply NoDup_keys_foldl_assign. constructor. Qed.

Lemma Map_keys_dictionary {V} (o : Obj.t V) key :
  key ∈ Map.keys o ↔ is_Some (dictionary o !! key).
Proof. by rewrite <- dictionary_get, Map_get_is_Some. Qed.

(** ** The logs *)

Lemma getFileΩ_is_Some resultΩ path :
  is_Some (getFileΩ resultΩ path) ↔ path ∈ paths (asResult resultΩ).
Proof.
  unfold getFileΩ, paths, asResult. simpl.
  rewrite (find_is_Some (λ f, File.absolutePath (base f) = path)), <- list_fmap_compose.
  rewrite list_elem_of_fmap. split; intros (f & ? & ?); by exists f.
Qed.

(** One call of the callback of [filePaths.forEach], on a key that has an
    entry and whose file is found if it has a new issue. *)
Lemma logFile_Ok format resultΩ diff filePath entry logs :
  Map.get filePath diff = Some entry →
  (∀ firstIssue rest, new entry = Some (firstIssue :: rest) →
     is_Some (getFileΩ resultΩ filePath)) →
  Logged.logFile format resultΩ diff filePath logs
  = Ok (logs ++ entryLogs format resultΩ diff filePath).
Proof.
  intros Hget Hfile. unfold Logged.logFile, entryLogs. rewrite Hget. simpl.
  destruct entry as [ex fx nw]. simpl in *.
  assert (∀ (l : list BettererFileIssueSerialised) (a b : BettererLogs),
            (if decide (Z.of_nat (List.length l) ≠ 0) then a else b)
            = if decide (l = []) then b else a) as Hlen.
  { intros [|x l] a b; simpl; repeat case_decide; try done; lia. }
  rewrite !Hlen. unfold fixedLogs, existingLogs.
  destruct (default [] nw) as [|firstIssue rest] eqn:Hnw.
  { simpl. rewrite !app_nil_r.
    repeat case_decide; simpl; rewrite ?app_nil_r, <- ?app_assoc; done. }
  destruct nw as [nw|]; [|done]. simpl in Hnw. subst nw.
  destruct (Hfile firstIssue rest eq_refl) as [fileΩ HΩ]. rewrite HΩ.
  rewrite decide_True by (simpl; lia). simpl.
  destruct firstIssue as [[[[line column] length] message] hash]. simpl.
  unfold newLogs. f_equal.
  assert (∀ a b : BettererLogs,
            (if decide (Z.of_nat (List.length ((line, column, length, message, hash) :: rest)) > 1)
             then a else b) = if decide (rest = []) then b else a) as Hgt.
  { intros a b. destruct rest; simpl; repeat case_decide; try done; lia. }
  rewrite Hgt.
  repeat case_decide; simpl; rewrite <- ?app_assoc; simpl; done.
Qed.

Lemma forEachM_logFile format resultΩ diff : ∀ keys logs,
  (∀ filePath, filePath ∈ keys → ∃ entry, Map.get filePath diff = Some entry
     ∧ ∀ firstIssue rest, new entry = Some (firstIssue :: rest) →
         is_Some (getFileΩ resultΩ filePath)) →
  forEachM (Logged.logFile format resultΩ diff) keys logs
  = Ok (logs ++ (keys ≫= entryLogs format resultΩ diff)).
Proof.
  induction keys as [|k keys IH]; intros logs Hkeys; simpl.
  { by rewrite app_nil_r. }
  destruct (Hkeys k) as (entry & Hget & Hfile); [left|].
  rewrite (logFile_Ok _ _ _ _ _ _ Hget Hfile). simpl.
  rewrite IH by (intros p Hp; apply Hkeys; by right).
  by rewrite <- app_assoc.
Qed.

(** A path under which the diff lists a new issue is the path of a file of
    the result. *)
Lemma new_issue_in_result expected result path entry firstIssue rest :
  Map.get path (diffObject expected result) = Some entry →
  new entry = Some (firstIssue :: rest) → path ∈ paths result.
Proof.
  rewrite dictionary_get. intros Hl Hnew.
  destruct (differ_entry_origin _ _ _ _ _ (dictionary_diffObject expected result) Hl)
    as [(f & _ & _ & [= <-])|[(f & Hf & Hp & _)|(rf & Hrf & Hp & _)]]; [done| |].
  - apply newFiles_path in Hf as [Hf _]. rewrite <- Hp. by apply list_elem_of_fmap_2.
  - rewrite <- Hp. apply list_elem_of_fmap_2. by eapply existingFiles_subseteq.
Qed.

(** What [differ] returns: the object, and the logs of its keys in the
    order of [Object.keys]. *)
Lemma Logged_differ_Ok format expected resultΩ :
  Logged.differ format expected resultΩ
  = Ok {| Logged.diff := diffObject expected (asResult resultΩ);
          Logged.logs := Obj.keys (diffObject expected (asResult resultΩ))
                         ≫= entryLogs format resultΩ (diffObject expected (asResult resultΩ)) |}.
Proof.
  rewrite Logged_differ_unfold, forEachM_logFile; [done|].
  intros path Hpath%elem_of_Obj_keys. apply Map_get_is_Some in Hpath as [entry Hget].
  exists entry. split; [done|]. intros firstIssue rest Hnew.
  apply getFileΩ_is_Some. by eapply new_issue_in_result.
Qed.

Lemma elem_of_fixedLogs log filePath fixed :
  log ∈ fixedLogs filePath fixed
  ↔ fixed ≠ []
    ∧ log = Log.success (pretty (Z.of_nat (List.length fixed)) +:+ " fixed "
                         +:+ Logged.getIssues (Z.of_nat (List.length fixed))
                         +:+ " in " +:+ Logged.quote +:+ filePath +:+ Logged.quote +:+ ".").
Proof.
  unfold fixedLogs. case_decide as H.
  - split; [by intros []%elem_of_nil | by intros []].
  - rewrite list_elem_of_singleton. tauto.
Qed.

Lemma elem_of_existingLogs log filePath existing :
  log ∈ existingLogs filePath existing
  ↔ existing ≠ []
    ∧ log = Log.warn (pretty (Z.of_nat (List.length existing)) +:+ " existing "
                      +:+ Logged.getIssues (Z.of_nat (List.length existing))
                      +:+ " in " +:+ Logged.quote +:+ filePath +:+ Logged.quote +:+ ".").
Proof.
  unfold existingLogs. case_decide as H.
  - split; [by intros []%elem_of_nil | by intros []].
  - rewrite list_elem_of_singleton. tauto.
Qed.

Lemma elem_of_logs format resultΩ (diff : Obj.t BettererFileDiff) log :
  log ∈ Obj.keys diff ≫= entryLogs format resultΩ diff
  ↔ ∃ path entry, Map.get path diff = Some entry
      ∧ (log ∈ fixedLogs path (default [] (fixed entry))
         ∨ log ∈ existingLogs path (default [] (existing entry))
         ∨ ∃ firstIssue rest fileΩ,
             default [] (new entry) = firstIssue :: rest
             ∧ getFileΩ resultΩ path = Some fileΩ
             ∧ log ∈ newLogs format path (fileText fileΩ) firstIssue rest).
Proof.
  rewrite list_elem_of_bind. split.
  - intros (path & Hlog & Hpath). unfold entryLogs in Hlog.
    destruct (Map.get path diff) as [entry|] eqn:Hget; [|by apply elem_of_nil in Hlog].
    exists path, entry. split; [done|].
    rewrite !elem_of_app in Hlog. destruct Hlog as [?|[?|Hnew]]; [by left | by right; left|].
    right; right. destruct (default [] (new entry)) as [|firstIssue rest];
      [by apply elem_of_nil in Hnew|].
    destruct (getFileΩ resultΩ path) as [fileΩ|]; [|by apply elem_of_nil in Hnew].
    by exists firstIssue, rest, fileΩ.
  - intros (path & entry & Hget & Hlog). exists path. split.
    + unfold entryLogs. rewrite Hget, !elem_of_app.
      destruct Hlog as [?|[?|(firstIssue & rest & fileΩ & -> & -> & ?)]];
        [by left | by right; left | by right; right].
    + apply elem_of_Obj_keys, Map_get_is_Some. by rewrite Hget.
Qed.

Lemma default_cons {A} (o : option (list A)) x l :
  default [] o = x :: l ↔ o = Some (x :: l).
Proof. destruct o; simpl; split; congruence. Qed.

Lemma default_not_nil {A} (o : option (list A)) :
  default [] o ≠ [] ↔ ∃ l, o = Some l ∧ l ≠ [].
Proof.
  destruct o as [l|]; simpl; split.
  - intros. by exists l.
  - by intros (? & [= <-] & ?).
  - done.
  - by intros (? & [=] & _).
Qed.

(** X10.  [differ] with its logs returns on all snapshots: every key of
    [diff] has an entry when the logs read it, and the file of every path with
    a new issue is found in the result.  The entries of the object [diff] are
    those of the dictionary of [differ] above, and [Object.keys] lists each
    path that has an entry, once. *)
Theorem X10_differ_with_logs_returns format expected resultΩ :
  ∃ r, Logged.differ format expected resultΩ = Ok r
    ∧ differ expected (asResult resultΩ) = Ok (list_to_map (Logged.diff r))
    ∧ (∀ path, Map.get path (Logged.diff r)
               = (list_to_map (Logged.diff r) : BettererFilesDiff) !! path)
    ∧ NoDup (Obj.keys (Logged.diff r))
    ∧ ∀ path, path ∈ Obj.keys (Logged.diff r) ↔ is_Some (Map.get path (Logged.diff r)).
Proof.
  eexists. split; [apply Logged_differ_Ok|]. cbn [Logged.diff Logged.logs]. split; [|split; [|split]].
  - apply dictionary_diffObject.
  - intros path. apply dictionary_get.
  - apply NoDup_Obj_keys, NoDup_keys_diffObject.
  - intros path. by rewrite elem_of_Obj_keys, Map_get_is_Some.
Qed.

(** X11.  What the logs hold.  A [success] log is the count message of an
    entry whose [fixed] is not empty, and each such entry has one; a [warn]
    log likewise for [existing]; there is an [error] log exactly when an entry
    has a new issue; and there is no log at all exactly when no entry lists an
    issue.  The messages say [issue] for one and [issues] otherwise. *)
Theorem X11_logs_tell_each_category format expected resultΩ :
  ∃ r, Logged.differ format expected resultΩ = Ok r
  ∧ (∀ message, Log.success message ∈ Logged.logs r
       ↔ ∃ path entry issues,
           Map.get path (Logged.diff r) = Some entry
           ∧ fixed entry = Some issues ∧ issues ≠ []
           ∧ message = pretty (Z.of_nat (List.length issues)) +:+ " fixed "
                       +:+ Logged.getIssues (Z.of_nat (List.length issues))
                       +:+ " in " +:+ Logged.quote +:+ path +:+ Logged.quote +:+ ".")
  ∧ (∀ message, Log.warn message ∈ Logged.logs r
       ↔ ∃ path entry issues,
           Map.get path (Logged.diff r) = Some entry
           ∧ existing entry = Some issues ∧ issues ≠ []
           ∧ message = pretty (Z.of_nat (List.length issues)) +:+ " existing "
                       +:+ Logged.getIssues (Z.of_nat (List.length issues))
                       +:+ " in " +:+ Logged.quote +:+ path +:+ Logged.quote +:+ ".")
  ∧ ((∃ message, Log.error message ∈ Logged.logs r)
       ↔ ∃ path entry issues,
           Map.get path (Logged.diff r) = Some entry
           ∧ new entry = Some issues ∧ issues ≠ [])
  ∧ (Logged.logs r = []
       ↔ ∀ path entry, Map.get path (Logged.diff r) = Some entry →
           default [] (fixed entry) = [] ∧ default [] (existing entry) = []
           ∧ default [] (new entry) = []).
Proof.
  eexists. split; [apply Logged_differ_Ok|]. cbn [Logged.diff Logged.logs].
  set (diff := diffObject expected (asResult resultΩ)).
  assert (∀ path entry firstIssue rest,
            Map.get path diff = Some entry → default [] (new entry) = firstIssue :: rest →
            ∃ fileΩ, getFileΩ resultΩ path = Some fileΩ) as Hfile.
  { intros path entry firstIssue rest Hget Hnew%default_cons.
    apply getFileΩ_is_Some. by eapply new_issue_in_result. }
  split; [|split; [|split]].
  - intros message. rewrite elem_of_logs. split.
    + intros (path & entry & Hget & [Hlog|[Hlog|(f & rest & fileΩ & _ & _ & Hlog)]]).
      * apply elem_of_fixedLogs in Hlog as [(l & Hl & Hne)%default_not_nil [= ->]].
        exists path, entry, l. by rewrite Hl.
      * by apply elem_of_existingLogs in Hlog as [_ [=]].
      * unfold newLogs in Hlog. destruct f as [[[[? ?] ?] ?] ?].
        rewrite !elem_of_app, !list_elem_of_singleton in Hlog.
        destruct Hlog as [[=]|[Hlog|[=]]]. case_decide; [by apply elem_of_nil in Hlog|].
        by apply list_elem_of_singleton in Hlog.
    + intros (path & entry & l & Hget & Hl & Hne & ->). exists path, entry.
      split; [done|]. left. apply elem_of_fixedLogs. rewrite Hl. done.
  - intros message. rewrite elem_of_logs. split.
    + intros (path & entry & Hget & [Hlog|[Hlog|(f & rest & fileΩ & _ & _ & Hlog)]]).
      * by apply elem_of_fixedLogs in Hlog as [_ [=]].
      * apply elem_of_existingLogs in Hlog as [(l & Hl & Hne)%default_not_nil [= ->]].
        exists path, entry, l. by rewrite Hl.
      * unfold newLogs in Hlog. destruct f as [[[[? ?] ?] ?] ?].
        rewrite !elem_of_app, !list_elem_of_singleton in Hlog.
        destruct Hlog as [[=]|[Hlog|[=]]]. case_decide; [by apply elem_of_nil in Hlog|].
        by apply list_elem_of_singleton in Hlog.
    + intros (path & entry & l & Hget & Hl & Hne & ->). exists path, entry.
      split; [done|]. right; left. apply elem_of_existingLogs. rewrite Hl. done.
  - split.
    + intros (message & Hlog). apply elem_of_logs in Hlog
        as (path & entry & Hget & [Hlog|[Hlog|(f & rest & fileΩ & Hnew & _ & _)]]).
      * by apply elem_of_fixedLogs in Hlog as [_ [=]].
      * by apply elem_of_existingLogs in Hlog as [_ [=]].
      * apply default_cons in Hnew. by exists path, entry, (f :: rest).
    + intros (path & entry & [|f rest] & Hget & Hnew & Hne); [done|].
      destruct (Hfile path entry f rest Hget) as [fileΩ HΩ]; [by apply default_cons|].
      eexists. apply elem_of_logs. exists path, entry. split; [done|].
      right; right. exists f, rest, fileΩ. split; [by apply default_cons|].
      split; [done|]. unfold newLogs. destruct f as [[[[? ?] ?] ?] ?].
      apply elem_of_app. left. apply list_elem_of_here.
  - split.
    + intros Hnil path entry Hget.
      assert (∀ log, log ∉ Obj.keys diff ≫= entryLogs format resultΩ diff) as Hno.
      { intros log. rewrite Hnil. apply not_elem_of_nil. }
      split; [|split].
      * destruct (default [] (fixed entry)) as [|x l] eqn:Hl; [done|]. exfalso.
        eapply Hno, elem_of_logs. exists path, entry. split; [done|]. left.
        apply elem_of_fixedLogs. rewrite Hl. done.
      * destruct (default [] (existing entry)) as [|x l] eqn:Hl; [done|]. exfalso.
        eapply Hno, elem_of_logs. exists path, entry. split; [done|]. right; left.
        apply elem_of_existingLogs. rewrite Hl. done.
      * destruct (default [] (new entry)) as [|f rest] eqn:Hl; [done|]. exfalso.
        destruct (Hfile path entry f rest Hget Hl) as [fileΩ HΩ].
        eapply Hno, elem_of_logs. exists path, entry. split; [done|].
        right; right. exists f, rest, fileΩ. split; [done|]. split; [done|].
        unfold newLogs. destruct f as [[[[? ?] ?] ?] ?].
        apply elem_of_app. left. apply list_elem_of_here.
    + intros Hall. apply elem_of_nil_inv. intros log Hlog.
      apply elem_of_logs in Hlog
        as (path & entry & Hget & [Hlog|[Hlog|(f & rest & fileΩ & Hnew & _ & _)]]);
        destruct (Hall path entry Hget) as (Hf & He & Hn).
      * by apply elem_of_fixedLogs in Hlog as [? _].
      * by apply elem_of_existingLogs in Hlog as [? _].
      * congruence.
Qed.

Lemma codePaths_app l1 l2 : codePaths (l1 ++ l2) = codePaths l1 ++ codePaths l2.
Proof. apply omap_app. Qed.

Lemma codePaths_newLogs format filePath fileText firstIssue rest :
  codePaths (newLogs format filePath fileText firstIssue rest) = [filePath].
Proof.
  unfold newLogs. destruct firstIssue as [[[[? ?] ?] ?] ?].
  rewrite !codePaths_app. case_decide; reflexivity.
Qed.

Lemma codePaths_fixedLogs path fixed : codePaths (fixedLogs path fixed) = [].
Proof. unfold fixedLogs. case_decide; reflexivity. Qed.

Lemma codePaths_existingLogs path existing : codePaths (existingLogs path existing) = [].
Proof. unfold existingLogs. case_decide; reflexivity. Qed.

Lemma codePaths_entryLogs format resultΩ diff path :
  (∀ entry firstIssue rest,
     Map.get path diff = Some entry → default [] (new entry) = firstIssue :: rest →
     is_Some (getFileΩ resultΩ path)) →
  codePaths (entryLogs format resultΩ diff path)
  = if decide (hasNewIssue diff path) then [path] else [].
Proof.
  intros Hfile. unfold entryLogs.
  destruct (decide (hasNewIssue diff path)) as [Hhas|Hhas]; unfold hasNewIssue in Hhas;
    destruct (Map.get path diff) as [entry|] eqn:Hget; [| tauto | | reflexivity].
  all: rewrite !codePaths_app, codePaths_fixedLogs, codePaths_existingLogs.
  all: cbn [app]; destruct (default [] (new entry)) as [|firstIssue rest] eqn:Hnew.
  - by destruct Hhas.
  - destruct (Hfile entry firstIssue rest eq_refl Hnew) as [fileΩ ->].
    apply codePaths_newLogs.
  - reflexivity.
  - destruct Hhas. discriminate.
Qed.

Lemma codePaths_logs format resultΩ diff keys :
  (∀ path entry firstIssue rest,
     Map.get path diff = Some entry → default [] (new entry) = firstIssue :: rest →
     is_Some (getFileΩ resultΩ path)) →
  codePaths (keys ≫= entryLogs format resultΩ diff) = filter (hasNewIssue diff) keys.
Proof.
  intros Hfile. induction keys as [|path keys IH]; [done|].
  rewrite bind_cons, codePaths_app, IH, filter_cons, codePaths_entryLogs.
  - case_decide; reflexivity.
  - intros entry firstIssue rest. apply Hfile.
Qed.

(** X12.  For every entry with a new issue the logs hold, one after the other:
    the error naming the path, the error [Showing first of ...] if and only if
    there is more than one new issue, and the code frame of the first new
    issue, with the text of the file that the result has at that path.  The
    code frames come in the order of [Object.keys], one for each path with a
    new issue. *)
Theorem X12_new_issues_are_shown_with_the_text_of_their_file format expected resultΩ :
  ∃ r, Logged.differ format expected resultΩ = Ok r
  ∧ (∀ path entry line column length message hash rest,
       Map.get path (Logged.diff r) = Some entry →
       new entry = Some ((line, column, length, message, hash) :: rest) →
       ∃ fileΩ before after,
         getFileΩ resultΩ path = Some fileΩ
         ∧ Logged.logs r
           = before
             ++ [Log.error ("New " +:+ Logged.getIssues (Z.of_nat (S (List.length rest)))
                            +:+ " in " +:+ Logged.quote +:+ path +:+ Logged.quote +:+ "!")]
             ++ (if decide (rest = []) then []
                 else [Log.error ("Showing first of "
                                  +:+ format (Z.of_nat (S (List.length rest)))
                                  +:+ " new issues:")])
             ++ [Log.code {| Log.message := message; Log.filePath := path;
                             Log.fileText := fileText fileΩ; Log.line := line;
                             Log.column := column; Log.length := length |}]
             ++ after)
  ∧ codePaths (Logged.logs r) = filter (hasNewIssue (Logged.diff r)) (Obj.keys (Logged.diff r)).
Proof.
  eexists. split; [apply Logged_differ_Ok|]. cbn [Logged.diff Logged.logs].
  set (diff := diffObject expected (asResult resultΩ)).
  assert (∀ path entry firstIssue rest,
            Map.get path diff = Some entry → default [] (new entry) = firstIssue :: rest →
            is_Some (getFileΩ resultΩ path)) as Hfile.
  { intros path entry firstIssue rest Hget Hnew%default_cons.
    apply getFileΩ_is_Some. by eapply new_issue_in_result. }
  split; [|by apply codePaths_logs].
  intros path entry line column length message hash rest Hget Hnew.
  destruct (Hfile path entry (line, column, length, message, hash) rest Hget)
    as [fileΩ HΩ]; [by apply default_cons|].
  assert (path ∈ Obj.keys diff) as Hin
    by (apply elem_of_Obj_keys, Map_get_is_Some; by rewrite Hget).
  apply list_elem_of_split in Hin as (keys1 & keys2 & ->).
  exists fileΩ,
    ((keys1 ≫= entryLogs format resultΩ diff)
     ++ fixedLogs path (default [] (fixed entry))
     ++ existingLogs path (default [] (existing entry))),
    (keys2 ≫= entryLogs format resultΩ diff).
  split; [exact HΩ|].
  rewrite bind_app, bind_cons. unfold entryLogs at 2. rewrite Hget, HΩ, Hnew.
  cbn [default from_option id]. unfold newLogs. cbn [List.length].
  rewrite <- !app_assoc. reflexivity.
Qed.

(** The logs of a fixed file, a new file and a changed file. *)
Example differ_logs_of_a_report :
  Logged.differ pretty expectedReport resultReport
  = Ok {| Logged.diff :=
            [("/b", {| existing := None; fixed := Some [(2, 1, 5, "m", "X")]; new := None |});
             ("/d", {| existing := None; fixed := None; new := Some [(2, 1, 5, "m", "X")] |});
             ("/a", {| existing := Some [(1, 1, 5, "m", "X")];
                       fixed := Some [(9, 9, 5, "m", "X")];
                       new := Some [(3, 3, 3, "n", "N"); (4, 3, 3, "n", "N")] |})];
          Logged.logs :=
            [Log.success ("1 fixed issue in " +:+ Logged.quote +:+ "/b" +:+ Logged.quote +:+ ".");
             Log.error ("New issue in " +:+ Logged.quote +:+ "/d" +:+ Logged.quote +:+ "!");
             Log.code {| Log.message := "m"; Log.filePath := "/d";
                         Log.fileText := "text of d"; Log.line := 2;
                         Log.column := 1; Log.length := 5 |};
             Log.success ("1 fixed issue in " +:+ Logged.quote +:+ "/a" +:+ Logged.quote +:+ ".");
             Log.warn ("1 existing issue in " +:+ Logged.quote +:+ "/a" +:+ Logged.quote +:+ ".");
             Log.error ("New issues in " +:+ Logged.quote +:+ "/a" +:+ Logged.quote +:+ "!");
             Log.error "Showing first of 2 new issues:";
             Log.code {| Log.message := "n"; Log.filePath := "/a";
                         Log.fileText := "text of a"; Log.line := 3;
                         Log.column := 3; Log.length := 3 |}] |}.
Proof. vm_compute. reflexivity. Qed.

(** Keys that are array indices come first, in ascending order. *)
Example keys_array_indices_first :
  Obj.keys [("/b", 1%nat); ("7", 2%nat); ("12", 3%nat); ("01", 4%nat); ("3", 5%nat)]
  = ["3"; "7"; "12"; "/b"; "01"].
Proof. vm_compute. reflexivity. Qed.

(** ** The order of the report *)

Lemma result_files_split expected result :
  NoDup (paths expected) → NoDup (paths result) →
  files result ≡ₚ existingFiles expected result ++ newFiles expected result.
Proof.
  intros Hexp Hres.
  destruct (detectMoves_split expected result) as (_ & _ & HN).
  { by apply NoDup_newOrMovedFiles. }
  rewrite (files_split expected result Hexp) at 1. rewrite HN.
  unfold existingFiles, newFiles, Map.keys. by rewrite <- !app_assoc.
Qed.

(** With unique paths every write makes a new key. *)
Lemma keys_diffObject expected result :
  NoDup (paths expected) → NoDup (paths result) →
  NoDup (File.absolutePath <$> existingFiles expected result)
  ∧ Map.keys (diffObject expected result)
    = (File.absolutePath <$> fixedFiles expected result)
      ++ (File.absolutePath <$> newFiles expected result)
      ++ (File.absolutePath <$>
            filter (λ file, is_Some (existingEntry expected
                                       (movedFiles (detectMoves expected result)) file))
              (existingFiles expected result)).
Proof.
  intros Hexp Hres.
  assert (NoDup (File.absolutePath <$> existingFiles expected result
                 ++ newFiles expected result)) as Hsplit.
  { rewrite <- (result_files_split expected result Hexp Hres). done. }
  rewrite fmap_app in Hsplit. apply NoDup_app in Hsplit as (Hex & Hdisj & Hnew).
  assert (NoDup (File.absolutePath <$> fixedFiles expected result)) as Hfixed.
  { eapply sublist_NoDup; [exact Hexp | apply fmap_sublist, fixedFiles_sublist]. }
  split; [done|]. unfold diffObject.
  rewrite keys_foldl_assign; [|done|].
  - rewrite keys_foldl_assign; [|done|].
    + rewrite keys_foldl_assign.
      * simpl. rewrite !filter_all by (by intros; eexists). by rewrite <- app_assoc.
      * exact Hfixed.
      * intros x _. apply not_elem_of_nil.
    + intros x Hx. rewrite keys_foldl_assign.
      * simpl. rewrite filter_all by (by intros; eexists).
        intros (f & Hp & Hf)%list_elem_of_fmap.
        apply fixedFiles_path in Hf as [_ Hf]. apply Hf. rewrite <- Hp.
        apply list_elem_of_fmap_2. by apply newFiles_path in Hx as [? _].
      * exact Hfixed.
      * intros y _. apply not_elem_of_nil.
  - intros x Hx. rewrite keys_foldl_assign; [|done|].
    + rewrite keys_foldl_assign.
      * simpl. rewrite !filter_all by (by intros; eexists).
        rewrite elem_of_app. intros [(f & Hp & Hf)%list_elem_of_fmap|Hin].
        -- apply fixedFiles_path in Hf as [_ Hf]. apply Hf. rewrite <- Hp.
           apply list_elem_of_fmap_2. by eapply existingFiles_subseteq.
        -- apply (Hdisj (File.absolutePath x)); [by apply list_elem_of_fmap_2 | done].
      * exact Hfixed.
      * intros y _. apply not_elem_of_nil.
    + intros y Hy. rewrite keys_foldl_assign.
      * simpl. rewrite filter_all by (by intros; eexists).
        intros (f & Hp & Hf)%list_elem_of_fmap.
        apply fixedFiles_path in Hf as [_ Hf]. apply Hf. rewrite <- Hp.
        apply list_elem_of_fmap_2. by apply newFiles_path in Hy as [? _].
      * exact Hfixed.
      * intros z _. apply not_elem_of_nil.
Qed.

(** X13.  With unique paths in both snapshots, none of them an array index,
    [Object.keys(diff)], which the logs follow, lists the fixed files in the
    order of the expected snapshot, then the new files in the order of the
    result, then the existing files that have an entry: unchanged, changed
    and moved. *)
Theorem X13_report_lists_fixed_then_new_then_existing_files format expected resultΩ r :
  NoDup (paths expected) → NoDup (paths (asResult resultΩ)) →
  (∀ path, path ∈ paths expected ++ paths (asResult resultΩ) →
           Obj.arrayIndex path = None) →
  Logged.differ format expected resultΩ = Ok r →
  Obj.keys (Logged.diff r)
  = (File.absolutePath <$> fixedFiles expected (asResult resultΩ))
    ++ (File.absolutePath <$> newFiles expected (asResult resultΩ))
    ++ (File.absolutePath <$>
          filter (λ file, is_Some (Map.get (File.absolutePath file) (Logged.diff r)))
            (existingFiles expected (asResult resultΩ))).
Proof.
  intros Hexp Hres Hindex. rewrite Logged_differ_Ok. intros [= <-]. cbn [Logged.diff].
  set (result := asResult resultΩ) in *.
  destruct (keys_diffObject expected result Hexp Hres) as [Hnd Hkeys].
  assert (∀ file, file ∈ existingFiles expected result →
            is_Some (Map.get (File.absolutePath file) (diffObject expected result))
            ↔ is_Some (existingEntry expected (movedFiles (detectMoves expected result))
                         file)) as Hentry.
  { intros file Hfile. rewrite Map_get_is_Some, Hkeys, !elem_of_app. split.
    - intros [(f & Hp & Hf)%list_elem_of_fmap|[(f & Hp & Hf)%list_elem_of_fmap|Hin]].
      + apply fixedFiles_path in Hf as [_ Hf]. destruct Hf. rewrite <- Hp.
        apply list_elem_of_fmap_2. by eapply existingFiles_subseteq.
      + destruct (existingFiles_not_new expected result file Hres Hfile).
        replace file with f; [done|].
        eapply same_path_same_file; [exact Hres| | |done].
        * by apply newFiles_path in Hf as [? _].
        * by eapply existingFiles_subseteq.
      + apply list_elem_of_fmap in Hin as (f & Hp & [He Hf]%list_elem_of_filter).
        replace file with f; [done|].
        by eapply (NoDup_fmap_inj_on File.absolutePath).
    - intros He. right; right. apply list_elem_of_fmap_2. by apply list_elem_of_filter. }
  rewrite Obj_keys_no_index.
  - rewrite Hkeys. do 3 f_equal. apply list_filter_ext_in.
    intros file Hfile. symmetry. by apply Hentry.
  - intros key. rewrite Hkeys, !elem_of_app.
    intros [(f & -> & Hf)%list_elem_of_fmap|[(f & -> & Hf)%list_elem_of_fmap
                                            |(f & -> & [_ Hf]%list_elem_of_filter)%list_elem_of_fmap]];
      apply Hindex, elem_of_app.
    + left. apply list_elem_of_fmap_2. by apply fixedFiles_path in Hf as [? _].
    + right. apply list_elem_of_fmap_2. by apply newFiles_path in Hf as [? _].
    + right. apply list_elem_of_fmap_2. by eapply existingFiles_subseteq.
Qed.

Lemma X13_report_order_witness :
  ∃ r, Logged.differ pretty expectedReport resultReport = Ok r
    ∧ Obj.keys (Logged.diff r) = ["/b"; "/d"; "/a"].
Proof.
  eexists. split; [vm_compute; reflexivity|].
  etrans.
  - apply (X13_report_lists_fixed_then_new_then_existing_files pretty expectedReport resultReport).
    + vm_compute. apply NoDup_cons. split; [|apply NoDup_singleton].
      intros [H|H]%elem_of_cons; [discriminate H | by apply elem_of_nil in H].
    + vm_compute. apply NoDup_cons. split; [|apply NoDup_singleton].
      intros [H|H]%elem_of_cons; [discriminate H | by apply elem_of_nil in H].
    + intros path Hpath. vm_compute in Hpath.
      repeat (apply elem_of_cons in Hpath as [->|Hpath]; [vm_compute; reflexivity|]).
      by apply elem_of_nil in Hpath.
    + vm_compute. reflexivity.
  - vm_compute. reflexivity.
Defined.

(** ** [merge]: a failure of [setEnv] *)

(** X14.  [setEnv] is called outside the [try]: when it throws, the handler
    ends with that failure, the process is as [setEnv] left it, with no exit
    code set by the handler, and [betterer.merge] is not called, so that the
    outcome is the same with any other [betterer.merge]. *)
Theorem X14_merge_does_not_catch_setEnv {World Failure : Type}
    (setEnv : Cli.BettererCLIMergeConfig → Cli.Process World
              → Cli.Process World * Cli.completion Failure unit)
    (betterer_merge betterer_merge' : Cli.BettererOptionsMerge → Cli.Process World
                      → Cli.Process World * Cli.completion Failure unit)
    cwd config args process process1 e :
  setEnv config process = (process1, Cli.Rejected e) →
  Cli.merge setEnv betterer_merge cwd config args process = (process1, Cli.Rejected e)
  ∧ Cli.merge setEnv betterer_merge' cwd config args process
    = Cli.merge setEnv betterer_merge cwd config args process.
Proof. intros Henv. unfold Cli.merge. by rewrite Henv. Qed.

Lemma X14_merge_does_not_catch_setEnv_witness :
  Cli.merge (World := unit) (Failure := string)
    (λ _ p, (p, Cli.Rejected "no results path")) (λ _ p, (p, Cli.Resolved tt))
    "/repo" {| Cli.results := ".betterer.results" |} ["ours"; "theirs"]
    {| Cli.exitCode := None; Cli.world := tt |}
  = ({| Cli.exitCode := None; Cli.world := tt |}, Cli.Rejected "no results path")
  ∧ Cli.merge (World := unit) (Failure := string)
      (λ _ p, (p, Cli.Rejected "no results path")) (λ _ p, (p, Cli.Rejected "conflict"))
      "/repo" {| Cli.results := ".betterer.results" |} ["ours"; "theirs"]
      {| Cli.exitCode := None; Cli.world := tt |}
    = Cli.merge (World := unit) (Failure := string)
        (λ _ p, (p, Cli.Rejected "no results path")) (λ _ p, (p, Cli.Resolved tt))
        "/repo" {| Cli.results := ".betterer.results" |} ["ours"; "theirs"]
        {| Cli.exitCode := None; Cli.world := tt |}.
Proof.
  apply (X14_merge_does_not_catch_setEnv (World := unit) (Failure := string)
           (λ _ p, (p, Cli.Rejected "no results path")) (λ _ p, (p, Cli.Resolved tt))
           (λ _ p, (p, Cli.Rejected "conflict"))
           "/repo" {| Cli.results := ".betterer.results" |} ["ours"; "theirs"]
           {| Cli.exitCode := None; Cli.world := tt |}
           {| Cli.exitCode := None; Cli.world := tt |} "no results path").
  reflexivity.
Defined.
